(** * Path ORAM engine of etclab/pathoram-go: shallow embedding and proofs

    The development follows the current engine of the repository:
    config.go (Config, Validate, ComputeTreeParams), oram.go (PathORAM,
    Access, Read, Write, access, findInStash, readPathIntoStash, Path,
    canPlaceAt), eviction.go (evictWithStrategy, evict,
    evictGreedyByDepth), constanttime.go (the constant-time variants),
    storage.go (InMemoryStorage), posmap.go (InMemoryPositionMap) and
    encryptor.go (the Encryptor interface and NoOpEncryptor).

    Go's [int] is taken as the 64-bit two's-complement integer of the
    usual platforms; [int32(x)] truncates to 32 bits.  Byte slices are
    lists of bytes, a nil slice is [None]. *)

From Stdlib Require Import ZArith Lia Strings.Byte.
From stdpp Require Import base numbers option list gmap.

Local Open Scope Z_scope.

(** ** Machine integers *)

(** The value a 64-bit signed integer holds after an operation whose
    mathematical result is [x]. *)
Definition wrap64 (x : Z) : Z := (x + 2 ^ 63) `mod` 2 ^ 64 - 2 ^ 63.

(** The conversion [int32(x)]. *)
Definition int32 (x : Z) : Z := (x + 2 ^ 31) `mod` 2 ^ 32 - 2 ^ 31.

(** [1 << h] on [int]: shift counts of 64 and more give 0. *)
Definition shl1 (h : Z) : Z := if h <? 64 then wrap64 (2 ^ h) else 0.

Definition max_int : Z := 2 ^ 63 - 1.
Definition min_int : Z := - 2 ^ 63.

(** ** Errors and outcomes (config.go) *)

Definition EmptyBlockID : Z := -1.

Inductive error : Type :=
  | ErrInvalidConfig
  | ErrInvalidBlockID
  | ErrInvalidDataSize
  | ErrStashOverflow
  | ErrEncryptionFailed
  | ErrDecryptionFailed.

(** What a call produces: a value, a returned error, or a run-time panic. *)
Inductive outcome (A : Type) : Type :=
  | Ok (a : A)
  | Err (e : error)
  | Panic.
Arguments Ok {A} a.
Arguments Err {A} e.
Arguments Panic {A}.

Inductive EvictionStrategy : Type :=
  | EvictLevelByLevel
  | EvictGreedyByDepth
  | EvictDeterministicTwoPath.

Record Config : Type := mkConfig {
  NumBlocks : Z;
  BlockSize : Z;
  BucketSize : Z;
  StashLimit : Z;
  Strategy : EvictionStrategy;
  ConstantTime : bool
}.

(** [Config.Validate]: rejects [NumBlocks <= 0] and [BlockSize <= 0] and
    fills in the defaults for a zero bucket size and a zero stash limit. *)
Definition Validate (c : Config) : outcome Config :=
  if (NumBlocks c <=? 0) || (BlockSize c <=? 0) then Err ErrInvalidConfig
  else
    let bs := if BucketSize c =? 0 then 5 else BucketSize c in
    let sl := if StashLimit c =? 0 then 100 else StashLimit c in
    Ok (mkConfig (NumBlocks c) (BlockSize c) bs sl (Strategy c) (ConstantTime c)).

(** The loop [for (1<<height)-1 < numBuckets { height++ }].  Sixty-four
    rounds are always enough: see [height_loop_exit]. *)
Fixpoint height_loop (fuel : nat) (height numBuckets : Z) : Z :=
  match fuel with
  | O => height
  | S fuel' =>
      if wrap64 (shl1 height - 1) <? numBuckets
      then height_loop fuel' (wrap64 (height + 1)) numBuckets
      else height
  end.

(** [Config.ComputeTreeParams]; the integer division panics on a zero
    bucket size (which [Validate] has replaced by 5). *)
Definition ComputeTreeParams (c : Config) : outcome (Z * Z * Z) :=
  if BucketSize c =? 0 then Panic
  else
    let numBuckets :=
      wrap64 (Z.quot (wrap64 (wrap64 (NumBlocks c + BucketSize c) - 1)) (BucketSize c)) in
    let height := height_loop 64 1 numBuckets in
    let numLeaves := shl1 (height - 1) in
    let totalBuckets := wrap64 (shl1 height - 1) in
    Ok (height, numLeaves, totalBuckets).

(** ** Tree geometry (oram.go) *)

(** The parent step [(bucket - 1) / 2]; Go's division truncates. *)
Definition parent (bucket : Z) : Z := Z.quot (bucket - 1) 2.

Fixpoint Path_loop (n : nat) (bucket : Z) : list Z :=
  match n with
  | O => []
  | S n' => bucket :: Path_loop n' (parent bucket)
  end.

(** [Path(leaf)]: the [height] bucket indices from the leaf's bucket
    up to the root. *)
Definition Path (height numLeaves leaf : Z) : list Z :=
  Path_loop (Z.to_nat height) (numLeaves - 1 + leaf).

(** The loop of [canPlaceAt]: [for b := leafBucket; b >= 0; b = (b-1)/2].
    [None] means the rounds given were not enough. *)
Fixpoint canPlaceAt_loop (fuel : nat) (b bucketIdx : Z) : option bool :=
  match fuel with
  | O => None
  | S fuel' =>
      if b <? 0 then Some false
      else if b =? bucketIdx then Some true
      else if b =? 0 then Some false
      else canPlaceAt_loop fuel' (parent b) bucketIdx
  end.

(** Rounds that suffice for a walk that starts at [b]: the index at
    least halves in every round. *)
Definition walk_fuel (b : Z) : nat := S (S (Z.to_nat (Z.log2 b))).

Definition canPlaceAt (numLeaves leaf bucketIdx : Z) : bool :=
  let leafBucket := numLeaves - 1 + leaf in
  default false (canPlaceAt_loop (walk_fuel leafBucket) leafBucket bucketIdx).

(** ** Blocks, the bucket store and the position map *)

Definition bytes : Type := list byte.

(** [make([]byte, n)] *)
Definition zeros (n : Z) : bytes := replicate (Z.to_nat n) x00.

(** [copy(dst, src)]: the first [min(len dst, len src)] bytes of [dst]
    are overwritten. *)
Definition go_copy (dst src : bytes) : bytes :=
  take (length dst) src ++ drop (length src) dst.

(** [len] of a byte slice that may be nil. *)
Definition len_opt (d : option bytes) : Z :=
  match d with None => 0 | Some l => Z.of_nat (length l) end.

(** The engine's plaintext block (oram.go). *)
Record block : Type := mkblock { b_id : Z; b_leaf : Z; b_data : bytes }.

(** The block of the bucket store (storage.go). *)
Record Block : Type := mkBlock { ID : Z; Leaf : Z; Data : bytes }.

(** A call the bucket store receives. *)
Inductive StoreCall : Type :=
  | CallRead (idx : Z)
  | CallWrite (idx : Z).

(** [InMemoryStorage]; [calls] is a ghost log of the calls received,
    oldest first. *)
Record InMemoryStorage : Type := mkStorage {
  buckets : list (list Block);
  bucketSize : Z;
  blockSize : Z;
  calls : list StoreCall
}.

Definition emptyBlock (blockSize : Z) : Block :=
  mkBlock EmptyBlockID (-1) (zeros blockSize).

(** [NewInMemoryStorage]: [make] panics on a negative length.  The
    bucket size is used only when there is a bucket to make, and the
    block size only when there is a slot to fill.  Memory is not
    bounded here: a [make] with a length that is not negative
    succeeds. *)
Definition NewInMemoryStorage (numBuckets bucketSize blockSize : Z)
  : outcome InMemoryStorage :=
  if numBuckets <? 0 then Panic
  else if (0 <? numBuckets) && (bucketSize <? 0) then Panic
  else if (0 <? numBuckets) && (0 <? bucketSize) && (blockSize <? 0) then Panic
  else Ok (mkStorage
             (replicate (Z.to_nat numBuckets)
                (replicate (Z.to_nat bucketSize) (emptyBlock blockSize)))
             bucketSize blockSize []).

Definition log_call (c : StoreCall) (s : InMemoryStorage) : InMemoryStorage :=
  mkStorage (buckets s) (bucketSize s) (blockSize s) (calls s ++ [c]).

Definition set_buckets (bs : list (list Block)) (s : InMemoryStorage)
  : InMemoryStorage :=
  mkStorage bs (bucketSize s) (blockSize s) (calls s).

(** [ReadBucket]: a copy of the bucket, or [ErrInvalidConfig]. *)
Definition ReadBucket (s : InMemoryStorage) (idx : Z)
  : outcome (list Block) * InMemoryStorage :=
  let s' := log_call (CallRead idx) s in
  if (idx <? 0) || (Z.of_nat (length (buckets s)) <=? idx) then (Err ErrInvalidConfig, s')
  else match buckets s !! Z.to_nat idx with
       | Some b => (Ok b, s')
       | None => (Panic, s')
       end.

(** [WriteBucket]: the slots of the stored bucket are overwritten one by
    one with the blocks given. *)
Definition WriteBucket (s : InMemoryStorage) (idx : Z) (blocks : list Block)
  : outcome unit * InMemoryStorage :=
  let s' := log_call (CallWrite idx) s in
  if (idx <? 0) || (Z.of_nat (length (buckets s)) <=? idx) then (Err ErrInvalidConfig, s')
  else if negb (Z.of_nat (length blocks) =? bucketSize s) then (Err ErrInvalidConfig, s')
  else match buckets s !! Z.to_nat idx with
       | Some old =>
           if (length old <? length blocks)%nat then (Panic, s')
           else (Ok tt,
                 set_buckets (<[Z.to_nat idx := blocks ++ drop (length blocks) old]> (buckets s)) s')
       | None => (Panic, s')
       end.

(** ** The encryptor interface (encryptor.go) *)

Class Encryptor : Type := {
  Encrypt : Z → Z → bytes → outcome bytes;
  Decrypt : Z → Z → bytes → outcome bytes;
  Overhead : Z
}.

(** [NoOpEncryptor]: both directions return a copy. *)
#[export] Instance NoOpEncryptor : Encryptor := {|
  Encrypt _ _ plaintext := Ok plaintext;
  Decrypt _ _ ciphertext := Ok ciphertext;
  Overhead := 0
|}.

(** What the engine needs of an encryptor: encryption succeeds and
    decryption under the same block id and leaf gives the plaintext back. *)
Class EncryptorCorrect (E : Encryptor) : Prop := {
  encrypt_total : ∀ i l p, ∃ c, Encrypt i l p = Ok c;
  decrypt_encrypt : ∀ i l p c, Encrypt i l p = Ok c → Decrypt i l c = Ok p
}.

#[export] Instance NoOp_correct : EncryptorCorrect NoOpEncryptor.
Proof. split; simpl; intros; [eauto | congruence]. Qed.

(** ** The engine state (oram.go) *)

(** [posMap] is the map of [InMemoryPositionMap]; [drawn] is a ghost
    counter of the values taken from the random source so far. *)
Record PathORAM : Type := mkORAM {
  cfg : Config;
  height : Z;
  numLeaves : Z;
  storage : InMemoryStorage;
  posMap : gmap Z Z;
  stash : list block;
  drawn : nat
}.

Definition set_storage (s : InMemoryStorage) (o : PathORAM) : PathORAM :=
  mkORAM (cfg o) (height o) (numLeaves o) s (posMap o) (stash o) (drawn o).
Definition set_posMap (m : gmap Z Z) (o : PathORAM) : PathORAM :=
  mkORAM (cfg o) (height o) (numLeaves o) (storage o) m (stash o) (drawn o).
Definition set_stash (st : list block) (o : PathORAM) : PathORAM :=
  mkORAM (cfg o) (height o) (numLeaves o) (storage o) (posMap o) st (drawn o).
Definition set_drawn (n : nat) (o : PathORAM) : PathORAM :=
  mkORAM (cfg o) (height o) (numLeaves o) (storage o) (posMap o) (stash o) n.

(** Methods run in a state-and-error monad over the engine: a call
    returns its outcome together with the engine as the call left it. *)
Definition M (A : Type) : Type := PathORAM → outcome A * PathORAM.

Definition ret {A} (a : A) : M A := λ o, (Ok a, o).
Definition fail {A} (e : error) : M A := λ o, (Err e, o).
Definition panic {A} : M A := λ o, (Panic, o).
Definition bind {A B} (m : M A) (k : A → M B) : M B :=
  λ o, match m o with
       | (Ok a, o') => k a o'
       | (Err e, o') => (Err e, o')
       | (Panic, o') => (Panic, o')
       end.
Definition lift {A} (r : outcome A) : M A := λ o, (r, o).
Definition gets {A} (f : PathORAM → A) : M A := λ o, (Ok (f o), o).
Definition modify (f : PathORAM → PathORAM) : M unit := λ o, (Ok tt, f o).

Notation "x <- m ;; k" := (bind m (λ x, k))
  (at level 100, m at next level, k at level 200, right associativity).
Notation "m ;;; k" := (bind m (λ _, k))
  (at level 100, k at level 200, right associativity).

Fixpoint forM_ {A} (l : list A) (f : A → M unit) : M unit :=
  match l with
  | [] => ret tt
  | x :: l' => f x ;;; forM_ l' f
  end.

Fixpoint mapM {A B} (l : list A) (f : A → M B) : M (list B) :=
  match l with
  | [] => ret []
  | x :: l' => y <- f x ;; ys <- mapM l' f ;; ret (y :: ys)
  end.

Definition readBucket (idx : Z) : M (list Block) :=
  λ o, let '(r, s) := ReadBucket (storage o) idx in (r, set_storage s o).
Definition writeBucket (idx : Z) (blocks : list Block) : M unit :=
  λ o, let '(r, s) := WriteBucket (storage o) idx blocks in (r, set_storage s o).

Fixpoint foldM {A S} (f : A → S → M S) (l : list A) (s : S) : M S :=
  match l with
  | [] => ret s
  | x :: l' => s' <- f x s ;; foldM f l' s'
  end.

(** ** crypto/subtle *)

(** [subtle.ConstantTimeEq] on two [int32] values. *)
Definition ConstantTimeEq (x y : Z) : Z := if x =? y then 1 else 0.

(** [subtle.ConstantTimeSelect(v, x, y)] for [v] in {0, 1}. *)
Definition ConstantTimeSelect (v x y : Z) : Z := if v =? 1 then x else y.

(** [subtle.ConstantTimeCopy(v, x, y)]: panics on slices of different
    lengths; the result is the new content of [x]. *)
Definition ConstantTimeCopy (v : Z) (x y : bytes) : outcome bytes :=
  if negb (length x =? length y)%nat then Panic
  else Ok (if v =? 1 then y else x).

(** ** The engine's methods *)

Section Engine.
Context {Enc : Encryptor}.

(** The random source: [rand_Reader k] is the raw value behind the
    [k]-th call of [rand.Int], which reduces it to the range asked. *)
Variable rand_Reader : nat → Z.

(** [randomLeaf]: [rand.Int] panics on a bound that is not positive. *)
Definition randomLeaf : M Z := λ o,
  if numLeaves o <=? 0 then (Panic, o)
  else (Ok (rand_Reader (drawn o) `mod` numLeaves o), set_drawn (S (drawn o)) o).

(** [o.Path(leaf)] *)
Definition pathOf (leaf : Z) : M (list Z) := λ o,
  if height o <? 0 then (Panic, o)
  else (Ok (Path (height o) (numLeaves o) leaf), o).

(** [blockToStorage]: a failed encryption panics. *)
Definition blockToStorage (b : block) : outcome Block :=
  match Encrypt (b_id b) (b_leaf b) (b_data b) with
  | Ok ciphertext => Ok (mkBlock (b_id b) (b_leaf b) ciphertext)
  | _ => Panic
  end.

Definition appendStash (b : block) : M unit :=
  modify (λ o, set_stash (stash o ++ [b]) o).

(** The inner loop of [readPathIntoStash] over the slots of one bucket:
    every occupied slot is decrypted, appended to the stash and marked
    empty.  Returns the bucket to write back. *)
Fixpoint drainSlots (bucket : list Block) : M (list Block) :=
  match bucket with
  | [] => ret []
  | B :: rest =>
      if ID B =? EmptyBlockID then
        rest' <- drainSlots rest ;; ret (B :: rest')
      else
        plaintext <- lift (Decrypt (ID B) (Leaf B) (Data B)) ;;
        appendStash (mkblock (ID B) (Leaf B) plaintext) ;;;
        rest' <- drainSlots rest ;;
        ret (mkBlock EmptyBlockID (Leaf B) (Data B) :: rest')
  end.

(** [readPathIntoStash] *)
Definition readPathIntoStash (path : list Z) : M unit :=
  forM_ path (λ bucketIdx,
    bucket <- readBucket bucketIdx ;;
    bucket' <- drainSlots bucket ;;
    writeBucket bucketIdx bucket').

(** [findInStash]: index and a copy of the data of the first stash
    block with the id, or [(-1, nil)]. *)
Fixpoint findInStash_loop (blockSize i : Z) (st : list block) (blockID : Z)
  : Z * option bytes :=
  match st with
  | [] => (-1, None)
  | b :: st' =>
      if b_id b =? blockID then (i, Some (go_copy (zeros blockSize) (b_data b)))
      else findInStash_loop blockSize (i + 1) st' blockID
  end.

Definition findInStash (blockID : Z) : M (Z * option bytes) :=
  gets (λ o, findInStash_loop (BlockSize (cfg o)) 0 (stash o) blockID).

(** [findInStashConstantTime]: every stash entry is visited. *)
Fixpoint findInStashConstantTime_loop (i : Z) (st : list block) (blockID : Z)
    (foundIdx : Z) (result : bytes) : outcome (Z * bytes) :=
  match st with
  | [] => Ok (foundIdx, result)
  | b :: st' =>
      let match_ := ConstantTimeEq (int32 (b_id b)) (int32 blockID) in
      let foundIdx' := ConstantTimeSelect match_ i foundIdx in
      match ConstantTimeCopy match_ result (b_data b) with
      | Ok result' => findInStashConstantTime_loop (i + 1) st' blockID foundIdx' result'
      | Err e => Err e
      | Panic => Panic
      end
  end.

Definition findInStashConstantTime (blockID : Z) : M (Z * option bytes) := λ o,
  match findInStashConstantTime_loop 0 (stash o) blockID (-1) (zeros (BlockSize (cfg o))) with
  | Ok (i, r) => (Ok (i, Some r), o)
  | Err e => (Err e, o)
  | Panic => (Panic, o)
  end.

(** [canPlaceAtConstantTime]: for every level the ancestor of the leaf
    bucket at that level is recomputed and compared. *)
Definition canPlaceAtConstantTime (height numLeaves leaf bucketIdx : Z) : bool :=
  let leafBucket := numLeaves - 1 + leaf in
  let found :=
    foldl (λ found level,
             Z.lor found (ConstantTimeEq (int32 (Nat.iter level parent leafBucket))
                                         (int32 bucketIdx)))
          0 (seq 0 (Z.to_nat height)) in
  found =? 1.

(** The check that ends every eviction. *)
Definition checkStash : M unit := λ o,
  if StashLimit (cfg o) <? Z.of_nat (length (stash o)) then (Err ErrStashOverflow, o)
  else (Ok tt, o).

(** *** Level-by-level eviction (eviction.go, [evict]) *)

(** Index of the first stash block that may be placed in the bucket. *)
Fixpoint firstPlaceable (numLeaves bucketIdx : Z) (st : list block) : option nat :=
  match st with
  | [] => None
  | b :: st' =>
      if canPlaceAt numLeaves (b_leaf b) bucketIdx then Some O
      else S <$> firstPlaceable numLeaves bucketIdx st'
  end.

(** One round of the slot loop; [acc] is the bucket in memory and the
    [modified] flag. *)
Definition evictSlot (bucketIdx : Z) (slot : nat) (acc : list Block * bool)
  : M (list Block * bool) :=
  match acc.1 !! slot with
  | None => panic
  | Some B =>
      if negb (ID B =? EmptyBlockID) then ret acc
      else λ o,
        match firstPlaceable (numLeaves o) bucketIdx (stash o) with
        | None => (Ok acc, o)
        | Some i =>
            match stash o !! i with
            | None => (Panic, o)
            | Some b =>
                match blockToStorage b with
                | Ok B' => (Ok (<[slot := B']> acc.1, true), set_stash (delete i (stash o)) o)
                | Err e => (Err e, o)
                | Panic => (Panic, o)
                end
            end
        end
  end.

Definition evictBucket (bucketIdx : Z) : M unit :=
  bucket <- readBucket bucketIdx ;;
  bucketSz <- gets (λ o, BucketSize (cfg o)) ;;
  r <- foldM (evictSlot bucketIdx) (seq 0 (Z.to_nat bucketSz)) (bucket, false) ;;
  if r.2 then writeBucket bucketIdx r.1 else ret tt.

Definition evict (path : list Z) : M unit :=
  forM_ path evictBucket ;;; checkStash.

(** *** Greedy-by-depth eviction (eviction.go, [evictGreedyByDepth]) *)

(** Index of the first empty slot of a bucket. *)
Fixpoint firstEmpty (bucket : list Block) : option nat :=
  match bucket with
  | [] => None
  | B :: rest => if ID B =? EmptyBlockID then Some O else S <$> firstEmpty rest
  end.

(** The level loop for one stash block: [Some] of the new buckets when
    the block was placed. *)
Fixpoint placeGreedy (numLeaves : Z) (b : block) (path : list Z)
    (bks : list (list Block)) : outcome (option (list (list Block))) :=
  match path, bks with
  | [], _ => Ok None
  | _ :: _, [] => Panic
  | bucketIdx :: path', bucket :: bks' =>
      let next :=
        match placeGreedy numLeaves b path' bks' with
        | Ok (Some r) => Ok (Some (bucket :: r))
        | other => other
        end in
      if negb (canPlaceAt numLeaves (b_leaf b) bucketIdx) then next
      else match firstEmpty bucket with
           | Some slot =>
               match blockToStorage b with
               | Ok B' => Ok (Some (<[slot := B']> bucket :: bks'))
               | Err e => Err e
               | Panic => Panic
               end
           | None => next
           end
  end.

(** [o.stash[i] = o.stash[len-1]; o.stash = o.stash[:len-1]] *)
Definition swapRemove (i : nat) (st : list block) : list block :=
  match last st with
  | Some x => take (length st - 1) (<[i := x]> st)
  | None => st
  end.

(** The loop [for i < len(o.stash)]; every round places a block or
    advances [i], so [length stash] rounds suffice. *)
Fixpoint greedyLoop (fuel : nat) (path : list Z) (i : nat)
    (bks : list (list Block)) : M (list (list Block)) :=
  match fuel with
  | O => ret bks
  | S fuel' => λ o,
      match stash o !! i with
      | None => (Ok bks, o)
      | Some b =>
          match placeGreedy (numLeaves o) b path bks with
          | Ok (Some bks') =>
              greedyLoop fuel' path i bks' (set_stash (swapRemove i (stash o)) o)
          | Ok None => greedyLoop fuel' path (S i) bks o
          | Err e => (Err e, o)
          | Panic => (Panic, o)
          end
      end
  end.

(** Writing the buckets in memory back, in path order. *)
Fixpoint writeBack (path : list Z) (bks : list (list Block)) : M unit :=
  match path, bks with
  | [], _ => ret tt
  | _ :: _, [] => panic
  | bucketIdx :: path', bucket :: bks' =>
      writeBucket bucketIdx bucket ;;; writeBack path' bks'
  end.

Definition evictGreedyByDepth (path : list Z) : M unit :=
  bks <- mapM path readBucket ;;
  n <- gets (λ o, length (stash o)) ;;
  bks' <- greedyLoop n path O bks ;;
  writeBack path bks' ;;;
  checkStash.

(** *** Constant-time eviction (constanttime.go, [evictConstantTime]) *)

(** The slot loop of one level for one block; [acc] is the bucket and
    the [placed] flag. *)
Fixpoint ctSlots (b : block) (canPlace : Z) (done todo : list Block) (placed : Z)
  : outcome (list Block * Z) :=
  match todo with
  | [] => Ok (done, placed)
  | B :: rest =>
      let isEmpty := ConstantTimeEq (int32 (ID B)) (int32 EmptyBlockID) in
      let shouldPlace := Z.land (Z.land canPlace isEmpty) (Z.lxor 1 placed) in
      if shouldPlace =? 1 then
        match blockToStorage b with
        | Ok B' => ctSlots b canPlace (done ++ [B']) rest 1
        | Err e => Err e
        | Panic => Panic
        end
      else ctSlots b canPlace (done ++ [B]) rest placed
  end.

(** The level loop for one block. *)
Fixpoint ctLevels (height numLeaves : Z) (b : block) (path : list Z)
    (bks : list (list Block)) (placed : Z) : outcome (list (list Block) * Z) :=
  match path, bks with
  | [], _ => Ok ([], placed)
  | _ :: _, [] => Panic
  | bucketIdx :: path', bucket :: bks' =>
      let canPlace :=
        if canPlaceAtConstantTime height numLeaves (b_leaf b) bucketIdx then 1 else 0 in
      match ctSlots b canPlace [] bucket placed with
      | Ok (bucket', placed') =>
          match ctLevels height numLeaves b path' bks' placed' with
          | Ok (r, placed'') => Ok (bucket' :: r, placed'')
          | other => other
          end
      | Err e => Err e
      | Panic => Panic
      end
  end.

(** The loop over the stash; returns the buckets and [newStash]. *)
Fixpoint ctStash (height numLeaves : Z) (path : list Z) (st : list block)
    (bks : list (list Block)) (newStash : list block)
  : outcome (list (list Block) * list block) :=
  match st with
  | [] => Ok (bks, newStash)
  | b :: st' =>
      match ctLevels height numLeaves b path bks 0 with
      | Ok (bks', placed) =>
          ctStash height numLeaves path st' bks'
            (if placed =? 0 then newStash ++ [b] else newStash)
      | Err e => Err e
      | Panic => Panic
      end
  end.

Definition evictConstantTime (path : list Z) : M unit :=
  bks <- mapM path readBucket ;;
  r <- (λ o, (ctStash (height o) (numLeaves o) path (stash o) bks [], o)) ;;
  modify (set_stash r.2) ;;;
  writeBack path r.1 ;;;
  checkStash.

(** *** Strategy dispatch (eviction.go, [evictWithStrategy]) *)

Definition evictWithStrategy (path : list Z) : M unit :=
  strategy <- gets (λ o, Strategy (cfg o)) ;;
  match strategy with
  | EvictGreedyByDepth => evictGreedyByDepth path
  | EvictDeterministicTwoPath =>
      evictGreedyByDepth path ;;;
      l <- randomLeaf ;;
      secondPath <- pathOf l ;;
      readPathIntoStash secondPath ;;;
      evictGreedyByDepth secondPath
  | EvictLevelByLevel => evict path
  end.

(** *** The access protocol (oram.go, [access]) *)

Definition posMapGet (blockID : Z) : M (Z * bool) :=
  gets (λ o, match posMap o !! blockID with
             | Some l => (l, true)
             | None => (0, false)
             end).

Definition posMapSet (blockID l : Z) : M unit :=
  modify (λ o, set_posMap (<[blockID := l]> (posMap o)) o).

(** Step 5 when the block was not in the stash. *)
Definition serveNew (blockID : Z) (newData : option bytes) : M bytes :=
  blockSz <- gets (λ o, BlockSize (cfg o)) ;;
  nl <- posMapGet blockID ;;
  let data0 := zeros blockSz in
  let data1 := match newData with Some d => go_copy data0 d | None => data0 end in
  appendStash (mkblock blockID nl.1 data1) ;;;
  ret (zeros blockSz).

(** Step 5 when the block is at [foundIdx] of the stash. *)
Definition serveFound (blockID foundIdx : Z) (newData : option bytes) : M unit :=
  nl <- posMapGet blockID ;;
  st <- gets stash ;;
  if (foundIdx <? 0) then panic
  else match st !! Z.to_nat foundIdx with
       | None => panic
       | Some b =>
           let data1 := match newData with
                        | Some d => go_copy (b_data b) d
                        | None => b_data b
                        end in
           modify (set_stash (<[Z.to_nat foundIdx := mkblock (b_id b) nl.1 data1]> st))
       end.

Definition access (blockID : Z) (newData : option bytes) : M (option bytes) :=
  (* Step 1: look up or assign the leaf *)
  l0 <- posMapGet blockID ;;
  l <- (if l0.2 then ret l0.1 else randomLeaf) ;;
  (* Step 2: a new random leaf for the block *)
  l' <- randomLeaf ;;
  posMapSet blockID l' ;;;
  (* Step 3: read the path into the stash *)
  path <- pathOf l ;;
  readPathIntoStash path ;;;
  (* Step 4: find the block in the stash *)
  ct <- gets (λ o, ConstantTime (cfg o)) ;;
  found <- (if ct then findInStashConstantTime blockID else findInStash blockID) ;;
  (* Step 5: read or write *)
  result <- (if found.1 =? -1
             then r <- serveNew blockID newData ;; ret (Some r)
             else serveFound blockID found.1 newData ;;; ret found.2) ;;
  (* Step 6: eviction *)
  (if ct then evictConstantTime path else evictWithStrategy path) ;;;
  ret result.

(** *** The public methods (oram.go) *)

Definition validID (blockID : Z) (o : PathORAM) : bool :=
  negb ((blockID <? 0) || (NumBlocks (cfg o) <=? blockID)).

Definition Access (blockID : Z) (newData : option bytes) : M (option bytes) := λ o,
  if negb (validID blockID o) then (Err ErrInvalidBlockID, o)
  else if (match newData with Some _ => true | None => false end)
          && negb (len_opt newData =? BlockSize (cfg o))
       then (Err ErrInvalidDataSize, o)
  else access blockID newData o.

Definition Read (blockID : Z) : M (option bytes) := λ o,
  if negb (validID blockID o) then (Err ErrInvalidBlockID, o)
  else access blockID None o.

Definition Write (blockID : Z) (data : option bytes) : M (option bytes) := λ o,
  if negb (validID blockID o) then (Err ErrInvalidBlockID, o)
  else if negb (len_opt data =? BlockSize (cfg o)) then (Err ErrInvalidDataSize, o)
  else access blockID data o.

Definition Size (o : PathORAM) : Z := Z.of_nat (size (posMap o)).
Definition StashSize (o : PathORAM) : Z := Z.of_nat (length (stash o)).
Definition Capacity (o : PathORAM) : Z := NumBlocks (cfg o).

(** *** Construction (oram.go, [New] and [NewInMemory]) *)

Definition New (c : Config) (s : InMemoryStorage) (m : gmap Z Z) : outcome PathORAM :=
  match Validate c with
  | Ok c' =>
      match ComputeTreeParams c' with
      | Ok (h, nl, _) => Ok (mkORAM c' h nl s m [] O)
      | Err e => Err e
      | Panic => Panic
      end
  | Err e => Err e
  | Panic => Panic
  end.

Definition NewInMemory (c : Config) : outcome PathORAM :=
  match Validate c with
  | Ok c' =>
      match ComputeTreeParams c' with
      | Ok (_, _, totalBuckets) =>
          match NewInMemoryStorage totalBuckets (BucketSize c') (BlockSize c') with
          | Ok s => New c' s ∅
          | Err e => Err e
          | Panic => Panic
          end
      | Err e => Err e
      | Panic => Panic
      end
  | Err e => Err e
  | Panic => Panic
  end.

End Engine.


(** * Specification vocabulary *)

(** ** Geometry *)

Definition pow2 (d : nat) : Z := 2 ^ Z.of_nat d.

(** The buckets of depth [d] (the root has depth 0) are the indices
    from [2^d - 1] up to [2^(d+1) - 2]. *)
Definition at_depth (d : nat) (b : Z) : Prop := pow2 d - 1 ≤ b < pow2 (S d) - 1.

(** The ceiling of the rational [n / z], for any sign of [z]. *)
Definition ceil_div (n z : Z) : Z := - ((- n) `div` z).

(** The configuration stays within the 64-bit integers. *)
Definition fits_int (c : Config) : Prop :=
  NumBlocks c ≤ max_int ∧ min_int ≤ BucketSize c ≤ max_int ∧
  NumBlocks c + BucketSize c - 1 ≤ max_int.

(** ** What the engine holds *)

(** A slot of the bucket store holds a block when its id is not the
    empty marker. *)
Definition live (B : Block) : Prop := ID B ≠ EmptyBlockID.

#[export] Instance live_dec B : Decision (live B).
Proof. unfold live. apply _. Defined.

(** The ids of the blocks a bucket holds, and of a whole tree. *)
Definition bucket_ids (bkt : list Block) : list Z := ID <$> filter live bkt.
Definition tree_ids (t : list (list Block)) : list Z := bucket_ids (mjoin t).

(** The ids across the stash and the tree, with repetitions. *)
Definition all_ids (t : list (list Block)) (st : list block) : list Z :=
  (b_id <$> st) ++ tree_ids t.

Section Content.
Context {Enc : Encryptor}.
(** The configuration, the number of leaves, the position map and the
    reference memory: the payload last stored under every id. *)
Variables (c : Config) (L : Z) (pm : gmap Z Z) (mem : gmap Z bytes).

(** A block with id [i], leaf [l] and plaintext [p] is as the position
    map and the reference memory say. *)
Definition good (i l : Z) (p : bytes) : Prop :=
  0 ≤ i < NumBlocks c ∧ pm !! i = Some l ∧ 0 ≤ l < L ∧
  mem !! i = Some p ∧ Z.of_nat (length p) = BlockSize c.

Definition stash_ok (st : list block) : Prop :=
  Forall (λ b, good (b_id b) (b_leaf b) (b_data b)) st.

(** A held block of bucket [k] lies on the path of its leaf, and
    decrypts to the payload of its id. *)
Definition slot_ok (k : nat) (B : Block) : Prop :=
  live B →
  canPlaceAt L (Leaf B) (Z.of_nat k) = true ∧
  ∃ p, Decrypt (ID B) (Leaf B) (Data B) = Ok p ∧ good (ID B) (Leaf B) p.

Definition tree_ok (t : list (list Block)) : Prop :=
  ∀ k bkt, t !! k = Some bkt → Forall (slot_ok k) bkt.

(** The content invariant: every block is good, no id occurs twice
    across the tree and the stash, and every id of the position map
    occurs there. *)
Definition content_ok (t : list (list Block)) (st : list block) : Prop :=
  stash_ok st ∧ tree_ok t ∧ NoDup (all_ids t st) ∧
  ∀ i, is_Some (pm !! i) → i ∈ all_ids t st.
End Content.

(** The path's buckets held in memory, laid over the stored tree: what
    the store holds once they are written back. *)
Fixpoint overlay (t : list (list Block)) (path : list Z) (bks : list (list Block))
  : list (list Block) :=
  match path, bks with
  | k :: path', bkt :: bks' => overlay (<[Z.to_nat k := bkt]> t) path' bks'
  | _, _ => t
  end.

(** Eviction, seen on the buckets in memory: blocks leave the stash for
    an empty slot of a bucket that [canPlaceAt] accepts; the order of the
    stash is immaterial. *)
Inductive moves {Enc : Encryptor} (L : Z) (path : list Z)
  : list (list Block) * list block → list (list Block) * list block → Prop :=
  | moves_refl s : moves L path s s
  | moves_perm bks st st' s :
      st ≡ₚ st' → moves L path (bks, st') s → moves L path (bks, st) s
  | moves_place bks st lv k bkt j e n b B' s :
      path !! lv = Some k → bks !! lv = Some bkt → bkt !! j = Some e →
      ID e = EmptyBlockID → st !! n = Some b →
      canPlaceAt L (b_leaf b) k = true →
      Encrypt (b_id b) (b_leaf b) (b_data b) = Ok (Data B') →
      ID B' = b_id b → Leaf B' = b_leaf b →
      moves L path (<[lv := <[j := B']> bkt]> bks, delete n st) s →
      moves L path (bks, st) s.

(** The engine with tree [t], stash [st] and the calls [cs] added to
    the log of the store. *)
Definition upd (o : PathORAM) (t : list (list Block)) (st : list block)
    (cs : list StoreCall) : PathORAM :=
  mkORAM (cfg o) (height o) (numLeaves o)
    (mkStorage t (bucketSize (storage o)) (blockSize (storage o))
       (calls (storage o) ++ cs))
    (posMap o) st (drawn o).

(** The shape of the store and of the tree behind an engine of depth [d]. *)
Record shape_ok (o : PathORAM) (d : nat) : Prop := {
  sh_height : height o = Z.of_nat (S d);
  sh_leaves : numLeaves o = pow2 d;
  sh_buckets : Z.of_nat (length (buckets (storage o))) = pow2 (S d) - 1;
  sh_bsize : bucketSize (storage o) = BucketSize (cfg o);
  sh_slots : Forall (λ bkt, Z.of_nat (length bkt) = BucketSize (cfg o))
               (buckets (storage o));
  sh_block : 0 < BlockSize (cfg o)
}.

(** In constant-time mode ids and bucket indices are compared as
    [int32]: they must fit. *)
Definition ct_fits (o : PathORAM) : Prop :=
  ConstantTime (cfg o) = true →
  NumBlocks (cfg o) ≤ 2 ^ 32 - 1 ∧ height o ≤ 32.

(** The invariant of the engine, against a reference memory. *)
Record inv {Enc : Encryptor} (o : PathORAM) (mem : gmap Z bytes) : Prop := {
  inv_shape : ∃ d, shape_ok o d;
  inv_content :
    content_ok (cfg o) (numLeaves o) (posMap o) mem (buckets (storage o)) (stash o);
  inv_mem : ∀ i, is_Some (mem !! i) → is_Some (posMap o !! i)
}.

(** The calls one access sends to the store. *)
Definition drainCalls (path : list Z) : list StoreCall :=
  path ≫= (λ k, [CallRead k; CallWrite k]).

Definition batchCalls (path : list Z) : list StoreCall :=
  (CallRead <$> path) ++ (CallWrite <$> path).

Definition levelCalls (path : list Z) (modified : list bool) : list StoreCall :=
  mjoin (zip_with (λ k (m : bool), CallRead k :: if m then [CallWrite k] else [])
           path modified).

(** Bucket [k] of the tree [t] holds a block: one of its slots has an
    id that is not the empty marker. *)
Definition holds_block (t : list (list Block)) (k : Z) : bool :=
  existsb (λ B, negb (ID B =? EmptyBlockID)) (default [] (t !! Z.to_nat k)).

(** ** Reading a bucket into the stash *)

(** The slot as [readPathIntoStash] writes it back. *)
Definition kill (B : Block) : Block :=
  if ID B =? EmptyBlockID then B else mkBlock EmptyBlockID (Leaf B) (Data B).

(** The stash block a held slot decrypts to. *)
Definition plainOf {Enc : Encryptor} (B : Block) : option block :=
  if ID B =? EmptyBlockID then None
  else match Decrypt (ID B) (Leaf B) (Data B) with
       | Ok p => Some (mkblock (ID B) (Leaf B) p)
       | _ => None
       end.

Definition plain_blocks {Enc : Encryptor} (bkt : list Block) : list block :=
  omap plainOf bkt.

(** Two lists of buckets with the same numbers of slots. *)
Definition same_shape (bks bks' : list (list Block)) : Prop :=
  Forall2 (λ a b, length a = length b) bks bks'.

(** A value that [int32] keeps apart from every other such value and
    from the empty marker. *)
Definition id_fits (x : Z) : Prop := -1 ≤ x < 2 ^ 32 - 1.

(** Every slot of the bucket is empty. *)
Definition all_dead (bkt : list Block) : Prop :=
  Forall (λ B, ID B = EmptyBlockID) bkt.

(** The store behind the engine has [Zs] slots in every bucket. *)
Definition slots_ok (o : PathORAM) (t : list (list Block)) : Prop :=
  Forall (λ bkt, Z.of_nat (length bkt) = bucketSize (storage o)) t.

(** What every eviction leaves behind: a tree and a stash that keep
    the content invariant, the calls [cs] sent to the store, and the
    verdict of the stash check. *)
Definition evict_post {Enc : Encryptor} (c : Config) (L : Z) (pm : gmap Z Z)
    (mem : gmap Z bytes) (o : PathORAM) (cs : list StoreCall)
    (res : outcome unit * PathORAM) : Prop :=
  ∃ t' st',
    res = (if StashLimit (cfg o) <? Z.of_nat (length st')
           then Err ErrStashOverflow else Ok tt,
           upd o t' st' cs) ∧
    content_ok c L pm mem t' st' ∧ slots_ok o t' ∧
    length t' = length (buckets (storage o)).

(** The calls an eviction along [path] sends to the store, by mode and
    strategy.  Level-by-level writes back the buckets it modified
    ([ms]); the others read all the buckets and then write all of them;
    two-path goes on with a second path, of a leaf [l2], unless its
    first round has overflowed the stash. *)
Inductive eviction_calls (o : PathORAM) (path : list Z) : list StoreCall → Prop :=
  | ec_level ms :
      ConstantTime (cfg o) = false → Strategy (cfg o) = EvictLevelByLevel →
      length ms = length path →
      eviction_calls o path (levelCalls path ms)
  | ec_greedy :
      ConstantTime (cfg o) = false → Strategy (cfg o) = EvictGreedyByDepth →
      eviction_calls o path (batchCalls path)
  | ec_two_short :
      ConstantTime (cfg o) = false → Strategy (cfg o) = EvictDeterministicTwoPath →
      eviction_calls o path (batchCalls path)
  | ec_two l2 :
      ConstantTime (cfg o) = false → Strategy (cfg o) = EvictDeterministicTwoPath →
      0 ≤ l2 < numLeaves o →
      eviction_calls o path
        (batchCalls path
           ++ drainCalls (Path (height o) (numLeaves o) l2)
           ++ batchCalls (Path (height o) (numLeaves o) l2))
  | ec_ct :
      ConstantTime (cfg o) = true →
      eviction_calls o path (batchCalls path).

(** ** The access protocol in two halves *)

Section Halves.
Context {Enc : Encryptor}.
Variable rand_Reader : nat → Z.

(** Steps 1 to 5 of [access]: everything before the eviction.  It
    hands the path, the mode and the result to the eviction step. *)
Definition serve (blockID : Z) (newData : option bytes)
  : M (list Z * bool * option bytes) :=
  l0 <- posMapGet blockID ;;
  l <- (if l0.2 then ret l0.1 else randomLeaf rand_Reader) ;;
  l' <- randomLeaf rand_Reader ;;
  posMapSet blockID l' ;;;
  path <- pathOf l ;;
  readPathIntoStash path ;;;
  ct <- gets (λ o, ConstantTime (cfg o)) ;;
  found <- (if ct then findInStashConstantTime blockID else findInStash blockID) ;;
  result <- (if found.1 =? -1
             then r <- serveNew blockID newData ;; ret (Some r)
             else serveFound blockID found.1 newData ;;; ret found.2) ;;
  ret (path, ct, result).

(** Step 6. *)
Definition evictStep (r : list Z * bool * option bytes) : M (option bytes) :=
  (if r.1.2 then evictConstantTime r.1.1 else evictWithStrategy rand_Reader r.1.1) ;;;
  ret r.2.

(** The calls step 6 sends to the store, from the engine [o1] that
    the steps 1 to 5 leave behind and the tree [t'] that the access
    leaves behind.  The constant-time eviction and greedy-by-depth
    read all the buckets of the path and then write all of them.
    Level-by-level reads every bucket and writes it back when it has
    placed a block there: the path was emptied in step 3, so these are
    the buckets of the path that hold a block in the end.  Two-path
    sends the calls of greedy-by-depth; when that round has not left
    the stash over its limit, it draws a second leaf, empties the path
    of that leaf bucket by bucket and evicts along it. *)
Definition eviction_trace (o1 : PathORAM) (t' : list (list Block)) (path : list Z)
  : list StoreCall :=
  if ConstantTime (cfg o1) then batchCalls path
  else match Strategy (cfg o1) with
       | EvictLevelByLevel => levelCalls path (holds_block t' <$> path)
       | EvictGreedyByDepth => batchCalls path
       | EvictDeterministicTwoPath =>
           batchCalls path ++
           (if StashLimit (cfg o1)
               <? Z.of_nat (length (stash (evictGreedyByDepth path o1).2))
            then []
            else
              let path2 := Path (height o1) (numLeaves o1)
                             (rand_Reader (drawn o1) `mod` numLeaves o1) in
              drainCalls path2 ++ batchCalls path2)
       end.

(** The leaf whose path an access to [blockID] reads, and the leaf it
    assigns to the block. *)
Definition read_leaf (o : PathORAM) (blockID : Z) : Z :=
  match posMap o !! blockID with
  | Some l => l
  | None => rand_Reader (drawn o) `mod` numLeaves o
  end.

Definition fresh_leaf (o : PathORAM) (blockID : Z) : Z :=
  match posMap o !! blockID with
  | Some _ => rand_Reader (drawn o) `mod` numLeaves o
  | None => rand_Reader (S (drawn o)) `mod` numLeaves o
  end.

Definition drawn_after (o : PathORAM) (blockID : Z) : nat :=
  match posMap o !! blockID with
  | Some _ => S (drawn o)
  | None => S (S (drawn o))
  end.
End Halves.

(** The payload the reference memory holds for an id: zeros when the id
    was never accessed. *)
Definition payload (c : Config) (mem : gmap Z bytes) (blockID : Z) : bytes :=
  default (zeros (BlockSize c)) (mem !! blockID).

(** The reference memory after an access. *)
Definition mem_after (c : Config) (mem : gmap Z bytes) (blockID : Z)
    (newData : option bytes) : gmap Z bytes :=
  <[blockID := default (payload c mem blockID) newData]> mem.

(** The stash as the constant-time search needs it: ids that fit
    [int32] and payloads of the length [n] of the result buffer. *)
Definition ct_stash_ok (n : nat) (st : list block) : Prop :=
  Forall (λ b, 0 ≤ b_id b < 2 ^ 32 - 1 ∧ length (b_data b) = n) st.

(** ** Sequences of calls *)

(** One call of [Access]: the id and the payload, [None] for a read. *)
Definition op : Type := Z * option bytes.

Section Runs.
Context {Enc : Encryptor}.
Variable rand_Reader : nat → Z.

(** The engine after one call; an error does not stop the caller. *)
Definition step (o : PathORAM) (a : op) : PathORAM :=
  (Access rand_Reader a.1 a.2 o).2.

(** The engine after a sequence of calls. *)
Definition run (o : PathORAM) (ops : list op) : PathORAM := foldl step o ops.

(** What the calls of a sequence return, in order. *)
Fixpoint results (o : PathORAM) (ops : list op) : list (outcome (option bytes)) :=
  match ops with
  | [] => []
  | a :: ops' => (Access rand_Reader a.1 a.2 o).1 :: results (step o a) ops'
  end.
End Runs.

(** A call that passes the checks of [Access]. *)
Definition valid_op (c : Config) (a : op) : bool :=
  (0 <=? a.1) && (a.1 <? NumBlocks c) &&
  match a.2 with
  | Some dd => Z.of_nat (length dd) =? BlockSize c
  | None => true
  end.

(** The reference memory: an array of payloads, all zeros at first,
    in which a call that passes the checks stores its payload (a
    read stores back what it has read). *)
Definition ref_step (c : Config) (mem : gmap Z bytes) (a : op) : gmap Z bytes :=
  if valid_op c a then mem_after c mem a.1 a.2 else mem.

Definition ref_run (c : Config) (ops : list op) : gmap Z bytes :=
  foldl (ref_step c) ∅ ops.

(** The payload an id holds after a sequence of calls. *)
Definition ref_payload (c : Config) (ops : list op) (blockID : Z) : bytes :=
  payload c (ref_run c ops) blockID.

(** ** Counting *)

(** The blocks the engine holds: the slots of the tree and the entries
    of the stash whose id is not the empty marker. *)
Definition tree_blocks (o : PathORAM) : list Block :=
  filter live (mjoin (buckets (storage o))).

Definition stash_blocks (o : PathORAM) : list block :=
  filter (λ b, b_id b ≠ EmptyBlockID) (stash o).

Definition held_ids (o : PathORAM) : list Z :=
  (b_id <$> stash_blocks o) ++ (ID <$> tree_blocks o).

(** A random source that hands out the values of a list, then zeros. *)
Definition stream (l : list Z) : nat → Z := λ n, nth n l 0.

(** The configuration with the constant-time mode set. *)
Definition set_ConstantTime (b : bool) (c : Config) : Config :=
  mkConfig (NumBlocks c) (BlockSize c) (BucketSize c) (StashLimit c) (Strategy c) b.

(** Two results that are the same, or of which one is the overflow of
    the stash. *)
Definition same_but_overflow (r r' : outcome (option bytes)) : Prop :=
  r = r' ∨ r = Err ErrStashOverflow ∨ r' = Err ErrStashOverflow.

(** The engine [NewInMemory] builds, for the configurations it accepts
    (an empty engine stands in for the others). *)
Definition engine_of (c : Config) : PathORAM :=
  match NewInMemory c with
  | Ok o => o
  | _ => mkORAM c 0 0 (mkStorage [] 0 0 []) ∅ [] O
  end.


(** * More of the code *)

(** ** storage.go: the accessors *)

(** [NumBuckets]; [BucketSize] and [BlockSize] are the fields
    [bucketSize] and [blockSize]. *)
Definition NumBuckets (s : InMemoryStorage) : Z := Z.of_nat (length (buckets s)).

(** ** The results of a plain array *)

(** What a sequence of calls returns on an array of N payloads of B
    bytes, all zeros at first: the checks of [Access], then the payload
    held. *)
Fixpoint ref_results (c : Config) (mem : gmap Z bytes) (ops : list op)
  : list (outcome (option bytes)) :=
  match ops with
  | [] => []
  | a :: ops' =>
      (if (a.1 <? 0) || (NumBlocks c <=? a.1) then Err ErrInvalidBlockID
       else if valid_op c a then Ok (Some (payload c mem a.1))
       else Err ErrInvalidDataSize)
      :: ref_results c (ref_step c mem a) ops'
  end.

(** ** encryptor.go: the AES-GCM encryptor *)

(** A byte from a number; only the low eight bits count. *)
Definition byte_of_Z (z : Z) : byte :=
  default x00 (Byte.of_N (Z.to_N (z `mod` 256))).

Definition Z_of_byte (b : byte) : Z := Z.of_N (Byte.to_N b).

(** [binary.LittleEndian.PutUint64(buf, uint64(x))]: the eight bytes of
    [x] taken modulo [2^64], the lowest first. *)
Definition le64 (x : Z) : bytes :=
  (λ k : nat, byte_of_Z (Z.shiftr (x `mod` 2 ^ 64) (8 * Z.of_nat k))) <$> seq 0 8.

(** [makeAAD]: sixteen bytes, the block id and then the leaf. *)
Definition makeAAD (blockID leaf : Z) : bytes := le64 blockID ++ le64 leaf.

Definition aesKeySize : Z := 32.
Definition aesNonceSize : Z := 12.

(** The [cipher.AEAD] behind the encryptor is a parameter: [Seal] with
    an empty destination gives the ciphertext followed by the tag,
    [Open] the plaintext or nothing, [Overhead] the length of the
    tag. *)
Section AESGCM.
Variable aead_Seal : bytes → bytes → bytes → bytes.
Variable aead_Open : bytes → bytes → bytes → option bytes.
Variable aead_Overhead : Z.

(** [Encrypt]; [nonce] is what [rand.Read] has left in the buffer of
    twelve bytes, or [None] when it has failed.  [Seal] appends to the
    nonce. *)
Definition AESGCM_Encrypt (nonce : option bytes) (blockID leaf : Z) (plaintext : bytes)
  : outcome bytes :=
  match nonce with
  | None => Err ErrEncryptionFailed
  | Some n => Ok (n ++ aead_Seal n plaintext (makeAAD blockID leaf))
  end.

(** [Decrypt] *)
Definition AESGCM_Decrypt (blockID leaf : Z) (ciphertext : bytes) : outcome bytes :=
  if Z.of_nat (length ciphertext) <? aesNonceSize + aead_Overhead
  then Err ErrDecryptionFailed
  else if Z.of_nat (length ciphertext) <? aesNonceSize
  then Panic (* the slice [ciphertext[:aesNonceSize]] is out of range *)
  else
    let nonce := take (Z.to_nat aesNonceSize) ciphertext in
    let ct := drop (Z.to_nat aesNonceSize) ciphertext in
    match aead_Open nonce ct (makeAAD blockID leaf) with
    | Some plaintext => Ok plaintext
    | None => Err ErrDecryptionFailed
    end.

(** [Overhead] *)
Definition AESGCM_Overhead : Z := aesNonceSize + aead_Overhead.
End AESGCM.

#[export] Instance byte_eq_dec : EqDecision byte.
Proof.
  intros a b. destruct (N.eq_dec (Byte.to_N a) (Byte.to_N b)) as [H|H]; [left|right].
  - apply (f_equal Byte.of_N) in H. rewrite !Byte.of_to_N in H. congruence.
  - intros ->. by apply H.
Defined.

(** A stand-in for the cipher, to try the encryptor on: the tag is the
    additional data, cut or filled up with zeros to sixteen bytes, and
    the plaintext goes through as it is. *)
Definition toy_tag (aad : bytes) : bytes := take 16 (aad ++ replicate 16 x00).

Definition toy_Seal (nonce plaintext aad : bytes) : bytes := plaintext ++ toy_tag aad.

Definition toy_Open (nonce ct aad : bytes) : option bytes :=
  if decide (16 ≤ length ct ∧ drop (length ct - 16) ct = toy_tag aad)%nat
  then Some (take (length ct - 16) ct) else None.


(** * pathoram.go: the engine that keeps the tree in memory *)

(** The older engine of the repository: no bucket store, no encryptor
    and one eviction only; the tree is a slice of buckets of plaintext
    blocks.  It shares [block], [Path] and the arithmetic of the tree
    parameters with the engine above. *)
Module Legacy.

(** [OpType] is an [int]; a caller can pass any value. *)
Definition OpType : Type := Z.
Definition OpRead : OpType := 0.
Definition OpWrite : OpType := 1.

Record Config : Type := mkConfig {
  NumBlocks : Z;
  BlockSize : Z;
  BucketSize : Z;
  StashLimit : Z
}.

(** [drawn] is a ghost counter of the values taken from the random
    source so far. *)
Record PathORAM : Type := mkORAM {
  cfg : Config;
  height : Z;
  numLeaves : Z;
  posMap : gmap Z Z;
  stash : list block;
  tree : list (list block);
  drawn : nat
}.

Definition set_posMap (m : gmap Z Z) (o : PathORAM) : PathORAM :=
  mkORAM (cfg o) (height o) (numLeaves o) m (stash o) (tree o) (drawn o).
Definition set_stash (st : list block) (o : PathORAM) : PathORAM :=
  mkORAM (cfg o) (height o) (numLeaves o) (posMap o) st (tree o) (drawn o).
Definition set_tree (t : list (list block)) (o : PathORAM) : PathORAM :=
  mkORAM (cfg o) (height o) (numLeaves o) (posMap o) (stash o) t (drawn o).
Definition set_drawn (n : nat) (o : PathORAM) : PathORAM :=
  mkORAM (cfg o) (height o) (numLeaves o) (posMap o) (stash o) (tree o) n.

(** [NewPathORAM]: the checks and defaults of [Validate] and the
    arithmetic of [ComputeTreeParams], in one function.  [make] panics
    on a negative length; every slot gets a buffer of its own. *)
Definition NewPathORAM (c : Config) : outcome PathORAM :=
  if (NumBlocks c <=? 0) || (BlockSize c <=? 0) then Err ErrInvalidConfig
  else
    let bs := if BucketSize c =? 0 then 5 else BucketSize c in
    let sl := if StashLimit c =? 0 then 100 else StashLimit c in
    let numBuckets :=
      wrap64 (Z.quot (wrap64 (wrap64 (NumBlocks c + bs) - 1)) bs) in
    let height := height_loop 64 1 numBuckets in
    let numLeaves := shl1 (height - 1) in
    let totalBuckets := wrap64 (shl1 height - 1) in
    if totalBuckets <? 0 then Panic
    else if (0 <? totalBuckets) && (bs <? 0) then Panic
    else
      Ok (mkORAM (mkConfig (NumBlocks c) (BlockSize c) bs sl) height numLeaves ∅ []
            (replicate (Z.to_nat totalBuckets)
               (replicate (Z.to_nat bs) (mkblock (-1) (-1) (zeros (BlockSize c)))))
            0).

Definition Capacity (o : PathORAM) : Z := NumBlocks (cfg o).
Definition Height (o : PathORAM) : Z := height o.
Definition NumLeaves (o : PathORAM) : Z := numLeaves o.
Definition StashSize (o : PathORAM) : Z := Z.of_nat (length (stash o)).
Definition Size (o : PathORAM) : Z := Z.of_nat (size (posMap o)).

(** The methods run in a state-and-error monad over this engine. *)
Definition M (A : Type) : Type := PathORAM → outcome A * PathORAM.

Definition ret {A} (a : A) : M A := λ o, (Ok a, o).
Definition panic {A} : M A := λ o, (Panic, o).
Definition bind {A B} (m : M A) (k : A → M B) : M B :=
  λ o, match m o with
       | (Ok a, o') => k a o'
       | (Err e, o') => (Err e, o')
       | (Panic, o') => (Panic, o')
       end.
Definition gets {A} (f : PathORAM → A) : M A := λ o, (Ok (f o), o).
Definition modify (f : PathORAM → PathORAM) : M unit := λ o, (Ok tt, f o).

Declare Scope legacy_scope.
Delimit Scope legacy_scope with legacy.
Bind Scope legacy_scope with M.
Notation "x <- m ;; k" := (bind m (λ x, k))
  (at level 100, m at next level, k at level 200, right associativity) : legacy_scope.
Notation "m ;;; k" := (bind m (λ _, k))
  (at level 100, k at level 200, right associativity) : legacy_scope.
#[local] Open Scope legacy_scope.

Fixpoint forM_ {A} (l : list A) (f : A → M unit) : M unit :=
  match l with
  | [] => ret tt
  | x :: l' => f x ;;; forM_ l' f
  end.

Section Engine.
(** The random source, as for the engine above. *)
Variable rand_Reader : nat → Z.

(** [randomLeaf]: [rand.Int] panics on a bound that is not positive. *)
Definition randomLeaf : M Z := λ o,
  if numLeaves o <=? 0 then (Panic, o)
  else (Ok (rand_Reader (drawn o) `mod` numLeaves o), set_drawn (S (drawn o)) o).

(** [o.Path(leaf)]; [make([]int, o.height)] panics on a negative
    height. *)
Definition pathOf (leaf : Z) : M (list Z) := λ o,
  if height o <? 0 then (Panic, o)
  else (Ok (Path (height o) (numLeaves o) leaf), o).

(** [o.tree[bucketIdx]] *)
Definition treeAt (bucketIdx : Z) : M (list block) := λ o,
  if (bucketIdx <? 0) || (Z.of_nat (length (tree o)) <=? bucketIdx) then (Panic, o)
  else match tree o !! Z.to_nat bucketIdx with
       | Some bucket => (Ok bucket, o)
       | None => (Panic, o)
       end.

(** Step 3 of [access], the loop over the slots of one bucket: every
    occupied slot is appended to the stash and its id set to -1; the
    slot keeps its leaf and its buffer.  Returns the bucket as the loop
    leaves it.

    In Go the emptied slot and the block in the stash share the buffer,
    so a later write to the block shows in the emptied slot as well;
    here the emptied slot keeps the bytes it had.  The code never reads
    the leaf or the data of a slot whose id is -1 ([access] and [evict]
    test the id and [evict] overwrites the whole slot), and two blocks
    that are held never share a buffer: each buffer is made in step 5
    and moves with its block. *)
Fixpoint drainSlots (bucket : list block) : M (list block) :=
  match bucket with
  | [] => ret []
  | b :: rest =>
      if negb (b_id b =? -1) then
        modify (λ o, set_stash (stash o ++ [b]) o) ;;;
        rest' <- drainSlots rest ;;
        ret (mkblock (-1) (b_leaf b) (b_data b) :: rest')
      else
        rest' <- drainSlots rest ;; ret (b :: rest')
  end.

Definition drainBucket (bucketIdx : Z) : M unit :=
  bucket <- treeAt bucketIdx ;;
  bucket' <- drainSlots bucket ;;
  modify (λ o, set_tree (<[Z.to_nat bucketIdx := bucket']> (tree o)) o).

(** [canPlaceAt]: is [bucketIdx] among the indices of [Path(leaf)]? *)
Definition canPlaceAt (leaf bucketIdx : Z) : M bool :=
  path <- pathOf leaf ;;
  ret (existsb (λ idx, idx =? bucketIdx) path).

(** The loop over the stash in [evict]: the index of the first block
    that may be placed in the bucket. *)
Fixpoint firstPlaceable (bucketIdx : Z) (st : list block) : M (option nat) :=
  match st with
  | [] => ret None
  | b :: st' =>
      ok <- canPlaceAt (b_leaf b) bucketIdx ;;
      if ok then ret (Some O)
      else r <- firstPlaceable bucketIdx st' ;; ret (S <$> r)
  end.

(** One round of the slot loop of [evict]: an empty slot takes the
    first block of the stash that may be placed there. *)
Definition evictSlot (bucketIdx : Z) (slot : nat) : M unit :=
  bucket <- treeAt bucketIdx ;;
  match bucket !! slot with
  | None => panic
  | Some s =>
      if negb (b_id s =? -1) then ret tt
      else
        st <- gets stash ;;
        r <- firstPlaceable bucketIdx st ;;
        match r with
        | None => ret tt
        | Some i =>
            match st !! i with
            | None => panic
            | Some b =>
                modify (λ o, set_stash (delete i st)
                               (set_tree (<[Z.to_nat bucketIdx := <[slot := b]> bucket]>
                                            (tree o)) o))
            end
        end
  end.

Definition evictLevel (bucketIdx : Z) : M unit :=
  treeAt bucketIdx ;;;
  bucketSz <- gets (λ o, BucketSize (cfg o)) ;;
  forM_ (seq 0 (Z.to_nat bucketSz)) (evictSlot bucketIdx).

(** [evict] *)
Definition evict (path : list Z) : M unit :=
  forM_ path evictLevel ;;;
  λ o, if StashLimit (cfg o) <? Z.of_nat (length (stash o))
       then (Err ErrStashOverflow, o)
       else (Ok tt, o).

(** [copy(dst, newData)] when [newData] is not nil. *)
Definition copy_new (dst : bytes) (newData : option bytes) : bytes :=
  match newData with
  | Some d => go_copy dst d
  | None => dst
  end.

(** Steps 3 to 6 of [access], for the leaf whose path is read.  The
    result is [None] for a nil slice. *)
Definition serveAndEvict (blockID : Z) (newData : option bytes) (leaf : Z)
  : M (option bytes) :=
  (* Step 3: read the path into the stash *)
  path <- pathOf leaf ;;
  forM_ path drainBucket ;;;
  (* Step 4: find the block in the stash *)
  blockSz <- gets (λ o, BlockSize (cfg o)) ;;
  st <- gets stash ;;
  let found := findInStash_loop blockSz 0 st blockID in
  nl <- gets (λ o, default 0 (posMap o !! blockID)) ;;
  (* Step 5: read or write; [make([]byte, BlockSize)] has run by now *)
  result <-
    (if blockSz <? 0 then panic
     else if found.1 =? -1 then
       modify (λ o, set_stash
                      (stash o ++ [mkblock blockID nl (copy_new (zeros blockSz) newData)])
                      o) ;;;
       ret (Some (copy_new (zeros blockSz) newData))
     else
       match st !! Z.to_nat found.1 with
       | None => panic
       | Some b =>
           modify (set_stash
                     (<[Z.to_nat found.1 :=
                          mkblock (b_id b) nl (copy_new (b_data b) newData)]> st)) ;;;
           ret ((λ r, copy_new r newData) <$> found.2)
       end) ;;
  (* Step 6: eviction *)
  evict path ;;;
  ret result.

(** [access] *)
Definition access (blockID : Z) (newData : option bytes) : M (option bytes) :=
  (* Step 1: look up or assign the leaf *)
  known <- gets (λ o, posMap o !! blockID) ;;
  leaf <- match known with
          | Some l => ret l
          | None => randomLeaf
          end ;;
  (* Step 2: a new random leaf for the block *)
  newLeaf <- randomLeaf ;;
  modify (λ o, set_posMap (<[blockID := newLeaf]> (posMap o)) o) ;;;
  serveAndEvict blockID newData leaf.

Definition validID (blockID : Z) (o : PathORAM) : bool :=
  negb ((blockID <? 0) || (NumBlocks (cfg o) <=? blockID)).

(** [Access] *)
Definition Access (op : OpType) (blockID : Z) (data : option bytes)
  : M (option bytes) := λ o,
  if negb (validID blockID o) then (Err ErrInvalidBlockID, o)
  else if (op =? OpWrite) && negb (len_opt data =? BlockSize (cfg o))
       then (Err ErrInvalidDataSize, o)
  else if op =? OpRead then access blockID None o
  else access blockID data o.

(** [Read] *)
Definition Read (blockID : Z) : M (option bytes) := λ o,
  if negb (validID blockID o) then (Err ErrInvalidBlockID, o)
  else access blockID None o.

(** [Write] returns the error only. *)
Definition Write (blockID : Z) (data : option bytes) : M unit := λ o,
  if negb (validID blockID o) then (Err ErrInvalidBlockID, o)
  else if negb (len_opt data =? BlockSize (cfg o)) then (Err ErrInvalidDataSize, o)
  else (access blockID data ;;; ret tt) o.

(** ** Sequences of calls *)

(** One call of [Access]: the operation, the id and the data. *)
Definition call : Type := OpType * Z * option bytes.

Definition step (o : PathORAM) (a : call) : PathORAM :=
  (Access a.1.1 a.1.2 a.2 o).2.

Definition run (o : PathORAM) (calls : list call) : PathORAM := foldl step o calls.

Fixpoint results (o : PathORAM) (calls : list call) : list (outcome (option bytes)) :=
  match calls with
  | [] => []
  | a :: calls' => (Access a.1.1 a.1.2 a.2 o).1 :: results (step o a) calls'
  end.
End Engine.

(** ** A plain array to compare with *)

(** The payload the array holds for an id; zeros at first. *)
Definition payload (c : Config) (mem : gmap Z bytes) (blockID : Z) : bytes :=
  default (zeros (BlockSize c)) (mem !! blockID).

(** A call that passes the checks of [Access]: the size of the data is
    looked at for [OpWrite] only. *)
Definition accepted (c : Config) (a : call) : bool :=
  (0 <=? a.1.2) && (a.1.2 <? NumBlocks c) &&
  negb ((a.1.1 =? OpWrite) && negb (len_opt a.2 =? BlockSize c)).

(** The data a call hands to [access]: none for [OpRead]. *)
Definition handed (a : call) : option bytes :=
  if a.1.1 =? OpRead then None else a.2.

(** The payload of the id once the call is done. *)
Definition stored (c : Config) (mem : gmap Z bytes) (a : call) : bytes :=
  copy_new (payload c mem a.1.2) (handed a).

Definition ref_step (c : Config) (mem : gmap Z bytes) (a : call) : gmap Z bytes :=
  if accepted c a then <[a.1.2 := stored c mem a]> mem else mem.

Definition ref_run (c : Config) (calls : list call) : gmap Z bytes :=
  foldl (ref_step c) ∅ calls.

(** What the calls return on the array: the checks of [Access], then
    the payload of the id as the call leaves it. *)
Fixpoint ref_results (c : Config) (mem : gmap Z bytes) (calls : list call)
  : list (outcome (option bytes)) :=
  match calls with
  | [] => []
  | a :: calls' =>
      (if (a.1.2 <? 0) || (NumBlocks c <=? a.1.2) then Err ErrInvalidBlockID
       else if accepted c a then Ok (Some (stored c mem a))
       else Err ErrInvalidDataSize)
      :: ref_results c (ref_step c mem a) calls'
  end.

(** ** What the engine holds *)

Definition held (b : block) : Prop := b_id b ≠ -1.

#[export] Instance held_dec b : Decision (held b).
Proof. unfold held. apply _. Defined.

(** The blocks of the tree that are not marked empty, and all blocks
    the engine holds. *)
Definition tree_blocks (t : list (list block)) : list block := filter held (mjoin t).
Definition blocks (o : PathORAM) : list block := stash o ++ tree_blocks (tree o).

(** A slot as step 3 of [access] leaves it. *)
Definition kill (b : block) : block := mkblock (-1) (b_leaf b) (b_data b).

(** The engine with stash [st] and tree [t]. *)
Definition upd (o : PathORAM) (st : list block) (t : list (list block)) : PathORAM :=
  mkORAM (cfg o) (height o) (numLeaves o) (posMap o) st t (drawn o).

(** The shape of the tree of an engine whose leaves are at depth [d]. *)
Record shape_ok (o : PathORAM) (d : nat) : Prop := {
  sh_height : height o = Z.of_nat (S d);
  sh_leaves : numLeaves o = pow2 d;
  sh_buckets : Z.of_nat (length (tree o)) = pow2 (S d) - 1;
  sh_slots : Forall (λ bkt, Z.of_nat (length bkt) = BucketSize (cfg o)) (tree o);
  sh_block : 0 < BlockSize (cfg o)
}.

Section Content.
(** The configuration, the height, the number of leaves, the position
    map and the reference memory. *)
Variables (c : Config) (h L : Z) (pm : gmap Z Z) (mem : gmap Z bytes).

(** A block is as the position map and the reference memory say. *)
Definition good (b : block) : Prop :=
  0 ≤ b_id b < NumBlocks c ∧ pm !! b_id b = Some (b_leaf b) ∧ 0 ≤ b_leaf b < L ∧
  mem !! b_id b = Some (b_data b) ∧ Z.of_nat (length (b_data b)) = BlockSize c.

(** Every block of the tree is in a bucket of the path of its leaf. *)
Definition on_path (t : list (list block)) : Prop :=
  ∀ k bkt b, t !! k = Some bkt → b ∈ bkt → held b → Z.of_nat k ∈ Path h L (b_leaf b).

(** The content invariant: every block held is good and in its place,
    no id is held twice, and every id of the position map is held. *)
Definition content_ok (st : list block) (t : list (list block)) : Prop :=
  Forall good (st ++ tree_blocks t) ∧ on_path t ∧
  NoDup (b_id <$> (st ++ tree_blocks t)) ∧
  ∀ i, is_Some (pm !! i) → i ∈ b_id <$> (st ++ tree_blocks t).
End Content.

(** The invariant of the engine, against a reference memory. *)
Record inv (o : PathORAM) (mem : gmap Z bytes) : Prop := {
  inv_shape : ∃ d, shape_ok o d;
  inv_content :
    content_ok (cfg o) (height o) (numLeaves o) (posMap o) mem (stash o) (tree o);
  inv_mem : ∀ i, is_Some (mem !! i) → is_Some (posMap o !! i)
}.

(** A step that moves blocks between the stash and the tree and
    touches nothing else: the sizes of the tree stay, and so does the
    content invariant, whatever the position map and the memory. *)
Definition keeps (o o' : PathORAM) : Prop :=
  (∃ st t, o' = upd o st t) ∧
  length (tree o') = length (tree o) ∧
  (∀ n : Z, Forall (λ bkt, Z.of_nat (length bkt) = n) (tree o) →
            Forall (λ bkt, Z.of_nat (length bkt) = n) (tree o')) ∧
  ∀ c pm mem,
    content_ok c (height o) (numLeaves o) pm mem (stash o) (tree o) →
    content_ok c (height o) (numLeaves o) pm mem (stash o') (tree o').

(** Bucket [k] holds no block. *)
Definition emptied (t : list (list block)) (k : nat) : Prop :=
  ∀ bkt, t !! k = Some bkt → Forall (λ b, ¬ held b) bkt.

(** What the steps of the eviction need of the engine. *)
Definition ready (o : PathORAM) : Prop :=
  0 ≤ height o ∧
  Forall (λ bkt, Z.of_nat (length bkt) = BucketSize (cfg o)) (tree o).

(** The engine [NewPathORAM] builds, for the configurations it accepts
    (an empty engine stands in for the others). *)
Definition engine_of (c : Config) : PathORAM :=
  match NewPathORAM c with
  | Ok o => o
  | _ => mkORAM c 0 0 ∅ [] [] O
  end.

Section Leaves.
Variable rand_Reader : nat → Z.

(** The leaf whose path an access of [blockID] reads, and the leaf it
    gives the block. *)
Definition read_leaf (o : PathORAM) (blockID : Z) : Z :=
  match posMap o !! blockID with
  | Some l => l
  | None => rand_Reader (drawn o) `mod` numLeaves o
  end.

Definition fresh_leaf (o : PathORAM) (blockID : Z) : Z :=
  match posMap o !! blockID with
  | Some _ => rand_Reader (drawn o) `mod` numLeaves o
  | None => rand_Reader (S (drawn o)) `mod` numLeaves o
  end.
End Leaves.

End Legacy.


(** * Tree geometry *)

Lemma pow2_0 : pow2 0 = 1.
Proof. reflexivity. Qed.

Lemma pow2_S d : pow2 (S d) = 2 * pow2 d.
Proof. unfold pow2. rewrite Nat2Z.inj_succ, Z.pow_succ_r; lia. Qed.

Lemma pow2_pos d : 0 < pow2 d.
Proof. unfold pow2. apply Z.pow_pos_nonneg; lia. Qed.

Lemma pow2_mono d d' : (d ≤ d')%nat → pow2 d ≤ pow2 d'.
Proof. intros. unfold pow2. apply Z.pow_le_mono_r; lia. Qed.

Lemma pow2_Z h : 0 ≤ h → 2 ^ h = pow2 (Z.to_nat h).
Proof. intros. unfold pow2. by rewrite Z2Nat.id. Qed.

Lemma at_depth_0 b : at_depth 0 b ↔ b = 0.
Proof. unfold at_depth. rewrite pow2_S, pow2_0. lia. Qed.

Lemma at_depth_nonneg d b : at_depth d b → 0 ≤ b.
Proof. unfold at_depth. pose proof (pow2_pos d). lia. Qed.

Lemma at_depth_S_pos d b : at_depth (S d) b → 1 ≤ b.
Proof. unfold at_depth. rewrite pow2_S. pose proof (pow2_pos d). lia. Qed.

Lemma parent_depth d b : at_depth (S d) b → at_depth d (parent b).
Proof.
  unfold at_depth, parent. rewrite !pow2_S. pose proof (pow2_pos d).
  intros. Z.to_euclidean_division_equations. lia.
Qed.

Lemma parent_lt b : 1 ≤ b → 0 ≤ parent b < b.
Proof. unfold parent. intros. Z.to_euclidean_division_equations. lia. Qed.

Lemma parent_0 : parent 0 = 0.
Proof. reflexivity. Qed.

Lemma at_depth_inj d d' b : at_depth d b → at_depth d' b → d = d'.
Proof.
  unfold at_depth. intros H1 H2.
  destruct (decide (d < d')%nat) as [Hlt|Hge].
  { pose proof (pow2_mono (S d) d' ltac:(lia)). lia. }
  destruct (decide (d' < d)%nat) as [Hlt|Hge'].
  { pose proof (pow2_mono (S d') d ltac:(lia)). lia. }
  lia.
Qed.

Lemma leaf_bucket_depth d l :
  0 ≤ l < pow2 d → at_depth d (pow2 d - 1 + l).
Proof. unfold at_depth. rewrite pow2_S. lia. Qed.

Lemma Path_loop_length n b : length (Path_loop n b) = n.
Proof. revert b. induction n; intros; simpl; [done | by rewrite IHn]. Qed.

Lemma Path_loop_lookup n b j :
  (j < n)%nat → Path_loop n b !! j = Some (Nat.iter j parent b).
Proof.
  revert b j. induction n as [|n IH]; intros b j Hj; [lia|].
  destruct j as [|j]; [done|]. simpl. rewrite IH by lia.
  f_equal. clear. induction j; simpl; [done | by rewrite IHj].
Qed.

Lemma Path_loop_bound d b x :
  at_depth d b → x ∈ Path_loop (S d) b → 0 ≤ x ≤ b.
Proof.
  revert b. induction d as [|d IH]; intros b Hb Hx.
  - apply at_depth_0 in Hb. subst. apply list_elem_of_singleton in Hx. lia.
  - pose proof (at_depth_S_pos _ _ Hb). pose proof (parent_lt b ltac:(done)).
    change (Path_loop (S (S d)) b) with (b :: Path_loop (S d) (parent b)) in Hx.
    apply elem_of_cons in Hx as [->|Hx]; [lia|].
    apply IH in Hx; [lia | by apply parent_depth].
Qed.

Lemma Path_loop_NoDup d b : at_depth d b → NoDup (Path_loop (S d) b).
Proof.
  revert b. induction d as [|d IH]; intros b Hb.
  - simpl. apply NoDup_singleton.
  - change (Path_loop (S (S d)) b) with (b :: Path_loop (S d) (parent b)).
    pose proof (at_depth_S_pos _ _ Hb). pose proof (parent_lt b ltac:(done)).
    apply NoDup_cons. split; [|by apply IH, parent_depth].
    intros Hx. apply Path_loop_bound in Hx; [lia | by apply parent_depth].
Qed.

Lemma Path_loop_root d b : at_depth d b → 0 ∈ Path_loop (S d) b.
Proof.
  revert b. induction d as [|d IH]; intros b Hb.
  - apply at_depth_0 in Hb. subst. simpl. by apply list_elem_of_singleton.
  - change (Path_loop (S (S d)) b) with (b :: Path_loop (S d) (parent b)).
    apply elem_of_cons. right. by apply IH, parent_depth.
Qed.

(** The loop of [canPlaceAt] decides membership in the path, whenever
    it is given more rounds than the depth of the starting bucket. *)
Lemma canPlaceAt_loop_spec d b i fuel :
  at_depth d b → (d < fuel)%nat →
  canPlaceAt_loop fuel b i = Some (bool_decide (i ∈ Path_loop (S d) b)).
Proof.
  revert b fuel. induction d as [|d IH]; intros b fuel Hb Hf.
  - apply at_depth_0 in Hb. subst. destruct fuel as [|fuel]; [lia|].
    cbn [canPlaceAt_loop Path_loop]. change (0 <? 0) with false. cbv iota.
    destruct (0 =? i) eqn:E.
    + apply Z.eqb_eq in E. subst i.
      rewrite bool_decide_eq_true_2; [done|]. by apply list_elem_of_singleton.
    + apply Z.eqb_neq in E. rewrite bool_decide_eq_false_2; [done|].
      rewrite list_elem_of_singleton. lia.
  - destruct fuel as [|fuel]; [lia|].
    pose proof (at_depth_S_pos _ _ Hb).
    change (Path_loop (S (S d)) b) with (b :: Path_loop (S d) (parent b)).
    cbn [canPlaceAt_loop]. destruct (b <? 0) eqn:E0; [lia|].
    destruct (b =? i) eqn:E.
    + apply Z.eqb_eq in E. subst i.
      rewrite bool_decide_eq_true_2; [done|]. apply elem_of_cons. by left.
    + apply Z.eqb_neq in E. destruct (b =? 0) eqn:E1; [lia|].
      rewrite (IH (parent b) fuel); [|by apply parent_depth|lia].
      f_equal. apply bool_decide_ext. rewrite elem_of_cons.
      split; [by right | by intros [?|?]].
Qed.

Lemma walk_fuel_enough d b : at_depth d b → (d < walk_fuel b)%nat.
Proof.
  unfold walk_fuel. intros Hb. destruct d as [|d]; [lia|].
  pose proof (at_depth_S_pos _ _ Hb).
  assert (Z.of_nat d ≤ Z.log2 b); [|lia].
  apply Z.log2_le_pow2; [lia|]. fold (pow2 d).
  destruct Hb as [Hb _]. rewrite pow2_S in Hb. pose proof (pow2_pos d). lia.
Qed.

(** [canPlaceAt] never runs out of rounds on a bucket of the tree, and
    holds exactly for the buckets of the leaf's path. *)
Lemma canPlaceAt_Path d l i :
  0 ≤ l < pow2 d →
  canPlaceAt (pow2 d) l i = bool_decide (i ∈ Path (Z.of_nat (S d)) (pow2 d) l).
Proof.
  intros Hl. unfold canPlaceAt, Path. rewrite Nat2Z.id.
  pose proof (leaf_bucket_depth d l Hl) as Hd.
  by rewrite (canPlaceAt_loop_spec d) by (done || by apply walk_fuel_enough).
Qed.

Lemma Path_NoDup d l : 0 ≤ l < pow2 d → NoDup (Path (Z.of_nat (S d)) (pow2 d) l).
Proof.
  intros. unfold Path. rewrite Nat2Z.id. by apply Path_loop_NoDup, leaf_bucket_depth.
Qed.

Lemma Path_range d l x :
  0 ≤ l < pow2 d → x ∈ Path (Z.of_nat (S d)) (pow2 d) l → 0 ≤ x < pow2 (S d) - 1.
Proof.
  intros Hl. unfold Path. rewrite Nat2Z.id. intros Hx.
  apply Path_loop_bound in Hx; [|by apply leaf_bucket_depth].
  rewrite pow2_S. lia.
Qed.

Lemma Path_length h L l : length (Path h L l) = Z.to_nat h.
Proof. apply Path_loop_length. Qed.

(** ** The constant-time ancestry test *)

Lemma int32_inj x y :
  0 ≤ x < 2 ^ 32 → 0 ≤ y < 2 ^ 32 → int32 x = int32 y → x = y.
Proof. unfold int32. intros. Z.to_euclidean_division_equations. lia. Qed.

Lemma int32_empty x : -1 ≤ x < 2 ^ 32 - 1 → int32 x = int32 EmptyBlockID → x = -1.
Proof.
  unfold int32, EmptyBlockID. intros. Z.to_euclidean_division_equations. lia.
Qed.

Lemma Path_loop_iter n b : Path_loop n b = (λ j, Nat.iter j parent b) <$> seq 0 n.
Proof.
  apply list_eq. intros j. rewrite list_lookup_fmap.
  destruct (decide (j < n)%nat).
  - rewrite Path_loop_lookup by done. by rewrite lookup_seq_lt.
  - rewrite lookup_ge_None_2 by (rewrite Path_loop_length; lia).
    by rewrite lookup_seq_ge by lia.
Qed.

Lemma foldl_lor_bits {A} (f : A → bool) (l : list A) (acc : bool) :
  foldl (λ found x, Z.lor found (if f x then 1 else 0)) (if acc then 1 else 0) l
  = if acc || existsb f l then 1 else 0.
Proof.
  revert acc. induction l as [|x l IH]; intros acc; simpl.
  - by rewrite orb_false_r.
  - replace (Z.lor (if acc then 1 else 0) (if f x then 1 else 0))
      with (if acc || f x then 1 else 0) by (by destruct acc, (f x)).
    rewrite IH. by rewrite orb_assoc.
Qed.

Lemma canPlaceAtConstantTime_spec d l i :
  (d < 32)%nat → 0 ≤ l < pow2 d → 0 ≤ i < 2 ^ 32 →
  canPlaceAtConstantTime (Z.of_nat (S d)) (pow2 d) l i = canPlaceAt (pow2 d) l i.
Proof.
  intros Hd Hl Hi. rewrite canPlaceAt_Path by done.
  unfold canPlaceAtConstantTime, Path, ConstantTimeEq. rewrite Nat2Z.id.
  set (lb := pow2 d - 1 + l).
  pose proof (leaf_bucket_depth d l Hl) as Hlb. fold lb in Hlb.
  pose proof (foldl_lor_bits
    (λ level, int32 (Nat.iter level parent lb) =? int32 i) (seq 0 (S d)) false) as HF.
  cbv beta in HF. change (if false then 1 else 0) with 0 in HF. rewrite HF. clear HF.
  rewrite orb_false_l.
  assert (pow2 (S d) ≤ 2 ^ 32) as Hpow.
  { change (2 ^ 32) with (pow2 32). apply pow2_mono. lia. }
  rewrite Path_loop_iter.
  destruct (existsb _ _) eqn:E.
  - apply existsb_exists in E as (j & Hj & E). apply Z.eqb_eq in E.
    symmetry. apply bool_decide_eq_true_2. apply list_elem_of_fmap.
    exists j. split; [|by apply list_elem_of_In].
    symmetry. apply int32_inj; [|done|done].
    apply list_elem_of_In in Hj.
    assert (Nat.iter j parent lb ∈ Path_loop (S d) lb) as Hin.
    { rewrite Path_loop_iter. by apply (list_elem_of_fmap_2 (λ j, Nat.iter j parent lb)). }
    apply Path_loop_bound in Hin; [|done]. destruct Hlb. lia.
  - symmetry. apply bool_decide_eq_false_2. intros Hin.
    apply list_elem_of_fmap in Hin as (j & -> & Hj).
    assert (existsb (λ level, int32 (Nat.iter level parent lb)
                                =? int32 (Nat.iter j parent lb)) (seq 0 (S d)) = true);
      [|congruence].
    apply existsb_exists. exists j. split; [by apply list_elem_of_In | by apply Z.eqb_eq].
Qed.

(** ** [ComputeTreeParams] *)

Lemma wrap64_id x : min_int ≤ x ≤ max_int → wrap64 x = x.
Proof.
  unfold wrap64, min_int, max_int. intros. Z.to_euclidean_division_equations. lia.
Qed.

Lemma wrap64_range x : min_int ≤ wrap64 x ≤ max_int.
Proof.
  unfold wrap64, min_int, max_int. Z.to_euclidean_division_equations. lia.
Qed.

Lemma wrap64_add_l a b : wrap64 (wrap64 a + b) = wrap64 (a + b).
Proof.
  unfold wrap64.
  replace ((a + 2 ^ 63) `mod` 2 ^ 64 - 2 ^ 63 + b + 2 ^ 63)
    with ((a + 2 ^ 63) `mod` 2 ^ 64 + b) by lia.
  rewrite Zplus_mod_idemp_l. f_equal. f_equal. lia.
Qed.

Lemma pow_le_62 h : 0 ≤ h ≤ 62 → 1 ≤ 2 ^ h ≤ 2 ^ 62.
Proof.
  intros. split; [|apply Z.pow_le_mono_r; lia].
  pose proof (Z.pow_pos_nonneg 2 h). lia.
Qed.

(** [(1 << h) - 1] is [2^h - 1] for every height the loop can reach. *)
Lemma mask_value h : 0 ≤ h ≤ 63 → wrap64 (shl1 h - 1) = 2 ^ h - 1.
Proof.
  intros Hh. unfold shl1. destruct (h <? 64) eqn:E; [|lia].
  destruct (decide (h = 63)) as [->|Hne]; [reflexivity|].
  pose proof (pow_le_62 h ltac:(lia)) as Hp. change (2 ^ 62) with 4611686018427387904 in Hp.
  rewrite (wrap64_id (2 ^ h)) by (unfold min_int, max_int; lia).
  apply wrap64_id. unfold min_int, max_int. lia.
Qed.

Lemma shl1_value h : 0 ≤ h ≤ 62 → shl1 h = 2 ^ h.
Proof.
  intros Hh. unfold shl1. destruct (h <? 64) eqn:E; [|lia].
  pose proof (pow_le_62 h ltac:(lia)) as Hp. change (2 ^ 62) with 4611686018427387904 in Hp.
  apply wrap64_id. unfold min_int, max_int. lia.
Qed.

(** The height loop stops within its rounds, at the least height whose
    tree has [numBuckets] buckets or more. *)
Lemma height_loop_spec fuel h nb :
  1 ≤ h ≤ 63 → (63 - h < Z.of_nat fuel) → nb ≤ max_int →
  let r := height_loop fuel h nb in
  h ≤ r ≤ 63 ∧ nb ≤ 2 ^ r - 1 ∧ ∀ k, h ≤ k < r → 2 ^ k - 1 < nb.
Proof.
  revert h. induction fuel as [|fuel IH]; intros h Hh Hf Hnb; [lia|].
  cbn [height_loop]. rewrite mask_value by lia.
  destruct (2 ^ h - 1 <? nb) eqn:E.
  - apply Z.ltb_lt in E.
    assert (h < 63).
    { destruct (decide (h = 63)) as [->|]; [|lia].
      unfold max_int in Hnb. lia. }
    rewrite (wrap64_id (h + 1)) by (unfold min_int, max_int; lia).
    destruct (IH (h + 1)) as (H1 & H2 & H3); [lia..|done|].
    cbv zeta. split; [lia|]. split; [done|].
    intros k Hk. destruct (decide (k = h)) as [->|]; [done|]. apply H3. lia.
  - apply Z.ltb_ge in E. cbv zeta. split; [lia|]. split; [done|]. intros; lia.
Qed.

Lemma ceil_div_pos n z : 0 < z → Z.quot (n + z - 1) z = ceil_div n z ∨ n + z - 1 < 0.
Proof.
  intros Hz. destruct (decide (n + z - 1 < 0)); [by right|left].
  unfold ceil_div. rewrite Z.quot_div_nonneg by lia.
  Z.to_euclidean_division_equations. nia.
Qed.

Lemma ceil_div_neg n z :
  z < 0 → 0 < n → Z.quot (n + z - 1) z ≤ 1 ∧ ceil_div n z ≤ 0.
Proof.
  intros Hz Hn. unfold ceil_div. split; Z.to_euclidean_division_equations; nia.
Qed.

Lemma Path_last d l :
  0 ≤ l < pow2 d → last (Path (Z.of_nat (S d)) (pow2 d) l) = Some 0.
Proof.
  intros Hl. unfold Path. rewrite Nat2Z.id.
  pose proof (leaf_bucket_depth d l Hl) as Hd. revert Hd.
  generalize (pow2 d - 1 + l). clear.
  induction d as [|d IH]; intros b Hb.
  - apply at_depth_0 in Hb. by subst.
  - change (Path_loop (S (S d)) b) with (b :: Path_loop (S d) (parent b)).
    rewrite last_cons. by rewrite IH by (by apply parent_depth).
Qed.

(** A height [h >= 1] in terms of the depth [d = h - 1] of the leaves. *)
Lemma height_depth h : 1 ≤ h → ∃ d : nat, h = Z.of_nat (S d) ∧ 2 ^ (h - 1) = pow2 d.
Proof.
  intros. exists (Z.to_nat (h - 1)). split; [lia|]. by apply pow2_Z; lia.
Qed.

(** The path as a list of bucket positions. *)
Lemma Path_nat d l :
  0 ≤ l < pow2 d →
  ∃ pn : list nat,
    Path (Z.of_nat (S d)) (pow2 d) l = Z.of_nat <$> pn ∧ NoDup pn ∧
    Forall (λ k, Z.of_nat k < pow2 (S d) - 1) pn ∧
    ∀ i, canPlaceAt (pow2 d) l (Z.of_nat i) = true ↔ i ∈ pn.
Proof.
  intros Hl. set (p := Path (Z.of_nat (S d)) (pow2 d) l).
  assert (∀ x, x ∈ p → 0 ≤ x < pow2 (S d) - 1) as Hr
    by (intros x Hx; by eapply Path_range).
  assert (Z.of_nat <$> (Z.to_nat <$> p) = p) as Hp.
  { rewrite <- list_fmap_compose. rewrite <- (list_fmap_id p) at 2.
    apply list_fmap_ext. intros i x Hx. simpl.
    apply list_elem_of_lookup_2 in Hx. apply Hr in Hx. lia. }
  exists (Z.to_nat <$> p). split; [done|]. split; [|split].
  - apply NoDup_fmap_2_strong; [|by apply Path_NoDup].
    intros x y Hx Hy. apply Hr in Hx, Hy. lia.
  - apply Forall_fmap, Forall_forall. intros x Hx. apply Hr in Hx. simpl. lia.
  - intros i. rewrite canPlaceAt_Path by done. fold p. rewrite bool_decide_eq_true.
    rewrite <- Hp at 1. rewrite list_elem_of_fmap. split.
    + intros (y & Hy & Hin). apply Nat2Z.inj in Hy. by subst.
    + intros Hin. by exists i.
Qed.


(** * Basic facts: the monad, the store, lists of buckets *)

Lemma bind_Ok {A B} (m : M A) (k : A → M B) o a o' :
  m o = (Ok a, o') → bind m k o = k a o'.
Proof. unfold bind. by intros ->. Qed.

Lemma bind_Err {A B} (m : M A) (k : A → M B) o e o' :
  m o = (Err e, o') → bind m k o = (Err e, o').
Proof. unfold bind. by intros ->. Qed.

Lemma upd_id o : upd o (buckets (storage o)) (stash o) [] = o.
Proof. destruct o as [? ? ? [] ? ? ?]. unfold upd. simpl. by rewrite app_nil_r. Qed.

Lemma upd_upd o t st cs t' st' cs' :
  upd (upd o t st cs) t' st' cs' = upd o t' st' (cs ++ cs').
Proof. unfold upd. simpl. by rewrite app_assoc. Qed.

Lemma set_stash_upd o t st cs st' : set_stash st' (upd o t st cs) = upd o t st' cs.
Proof. done. Qed.

Lemma set_stash_as_upd o st' : set_stash st' o = upd o (buckets (storage o)) st' [].
Proof. destruct o as [? ? ? [] ? ? ?]. unfold upd, set_stash. simpl. by rewrite app_nil_r. Qed.

Lemma readBucket_Ok o (k : nat) bkt :
  buckets (storage o) !! k = Some bkt →
  readBucket (Z.of_nat k) o =
    (Ok bkt, upd o (buckets (storage o)) (stash o) [CallRead (Z.of_nat k)]).
Proof.
  intros Hk. unfold readBucket, ReadBucket.
  pose proof (lookup_lt_Some _ _ _ Hk).
  destruct (_ || _) eqn:E.
  { apply orb_true_iff in E as [E|E]; [apply Z.ltb_lt in E | apply Z.leb_le in E]; lia. }
  rewrite Nat2Z.id, Hk. done.
Qed.

Lemma writeBucket_Ok o (k : nat) bkt old :
  buckets (storage o) !! k = Some old →
  Z.of_nat (length bkt) = bucketSize (storage o) →
  length old = length bkt →
  writeBucket (Z.of_nat k) bkt o =
    (Ok tt, upd o (<[k := bkt]> (buckets (storage o))) (stash o) [CallWrite (Z.of_nat k)]).
Proof.
  intros Hk Hsz Hlen. unfold writeBucket, WriteBucket.
  pose proof (lookup_lt_Some _ _ _ Hk).
  destruct (_ || _) eqn:E.
  { apply orb_true_iff in E as [E|E]; [apply Z.ltb_lt in E | apply Z.leb_le in E]; lia. }
  rewrite Hsz, Z.eqb_refl. simpl. rewrite Nat2Z.id, Hk.
  destruct (length old <? length bkt)%nat eqn:E2; [apply Nat.ltb_lt in E2; lia|].
  rewrite <- Hlen, drop_all, app_nil_r. done.
Qed.

(** ** Ids of buckets and trees *)

Lemma bucket_ids_app l1 l2 : bucket_ids (l1 ++ l2) = bucket_ids l1 ++ bucket_ids l2.
Proof. unfold bucket_ids. by rewrite filter_app, fmap_app. Qed.

Lemma bucket_ids_cons_live B l : live B → bucket_ids (B :: l) = ID B :: bucket_ids l.
Proof. intros. unfold bucket_ids. by rewrite filter_cons_True. Qed.

Lemma bucket_ids_cons_dead B l : ¬ live B → bucket_ids (B :: l) = bucket_ids l.
Proof. intros. unfold bucket_ids. by rewrite filter_cons_False. Qed.

Lemma join_insert {A} (t : list (list A)) k bkt :
  t !! k = Some bkt →
  ∃ pre post, mjoin t = pre ++ bkt ++ post ∧
              ∀ bkt', mjoin (<[k := bkt']> t) = pre ++ bkt' ++ post.
Proof.
  intros Hk. exists (mjoin (take k t)), (mjoin (drop (S k) t)). split.
  - rewrite <- (take_drop_middle t k bkt Hk) at 1. by rewrite join_app.
  - intros bkt'. rewrite insert_take_drop by (by eapply lookup_lt_Some).
    by rewrite join_app.
Qed.

Lemma tree_ids_insert t k bkt :
  t !! k = Some bkt →
  ∃ pre post, tree_ids t = pre ++ bucket_ids bkt ++ post ∧
              ∀ bkt', tree_ids (<[k := bkt']> t) = pre ++ bucket_ids bkt' ++ post.
Proof.
  intros Hk. destruct (join_insert t k bkt Hk) as (pre & post & E1 & E2).
  exists (bucket_ids pre), (bucket_ids post). unfold tree_ids. split.
  - by rewrite E1, !bucket_ids_app.
  - intros bkt'. by rewrite E2, !bucket_ids_app.
Qed.

(** Filling an empty slot adds the id of the block placed. *)
Lemma bucket_ids_fill bkt j e B' :
  bkt !! j = Some e → ¬ live e → live B' →
  bucket_ids (<[j := B']> bkt) ≡ₚ ID B' :: bucket_ids bkt.
Proof.
  intros Hj He HB'.
  rewrite insert_take_drop by (by eapply lookup_lt_Some).
  rewrite <- (take_drop_middle bkt j e Hj) at 3.
  rewrite !bucket_ids_app, bucket_ids_cons_live, bucket_ids_cons_dead by done.
  by rewrite Permutation_middle.
Qed.

Lemma tree_ids_fill t k bkt j e B' :
  t !! k = Some bkt → bkt !! j = Some e → ¬ live e → live B' →
  tree_ids (<[k := <[j := B']> bkt]> t) ≡ₚ ID B' :: tree_ids t.
Proof.
  intros Hk Hj He HB'. destruct (tree_ids_insert t k bkt Hk) as (pre & post & E1 & E2).
  rewrite E2, E1, bucket_ids_fill by done.
  rewrite <- app_comm_cons. symmetry. apply Permutation_middle.
Qed.

Lemma tree_ids_elem t i :
  i ∈ tree_ids t ↔ ∃ k bkt B, t !! k = Some bkt ∧ B ∈ bkt ∧ live B ∧ ID B = i.
Proof.
  unfold tree_ids, bucket_ids. rewrite list_elem_of_fmap. split.
  - intros (B & -> & HB). apply list_elem_of_filter in HB as [HB Hin].
    apply list_elem_of_join in Hin as (bkt & Hin & Hbkt).
    apply list_elem_of_lookup in Hbkt as [k Hk]. by exists k, bkt, B.
  - intros (k & bkt & B & Hk & Hin & HB & <-). exists B. split; [done|].
    apply list_elem_of_filter. split; [done|].
    apply list_elem_of_join. exists bkt. split; [done|].
    by eapply list_elem_of_lookup_2.
Qed.


(** * The content invariant under the elementary steps *)

Section ContentLemmas.
Context {Enc : Encryptor} {EncOK : EncryptorCorrect Enc}.
Variables (c : Config) (L : Z) (pm : gmap Z Z) (mem : gmap Z bytes).

Local Abbreviation content_ok := (content_ok c L pm mem).
Local Abbreviation stash_ok := (stash_ok c L pm mem).
Local Abbreviation tree_ok := (tree_ok c L pm mem).
Local Abbreviation slot_ok := (slot_ok c L pm mem).
Local Abbreviation good := (good c L pm mem).

Lemma content_ids t st t' st' :
  stash_ok st' → tree_ok t' → all_ids t' st' ≡ₚ all_ids t st →
  content_ok t st → content_ok t' st'.
Proof.
  intros Hs Ht Hp (_ & _ & Hnd & Hdom). split; [done|]. split; [done|]. split.
  - by rewrite Hp.
  - intros i Hi. rewrite Hp. by apply Hdom.
Qed.

(** The order of the stash does not matter. *)
Lemma content_perm t st st' :
  st ≡ₚ st' → content_ok t st → content_ok t st'.
Proof.
  intros Hp H. apply (content_ids t st); [| |by unfold all_ids; rewrite Hp|done].
  - destruct H as (Hs & _). unfold stash_ok in *. by rewrite <- Hp.
  - by destruct H as (_ & Ht & _).
Qed.

Lemma good_live i l p : good i l p → i ≠ EmptyBlockID.
Proof. unfold good, EmptyBlockID. lia. Qed.

(** A stash block moves to an empty slot of a bucket on the path of
    its leaf. *)
Lemma content_place t st k bkt j e n b B' :
  content_ok t st →
  t !! k = Some bkt → bkt !! j = Some e → ID e = EmptyBlockID →
  st !! n = Some b →
  canPlaceAt L (b_leaf b) (Z.of_nat k) = true →
  Encrypt (b_id b) (b_leaf b) (b_data b) = Ok (Data B') →
  ID B' = b_id b → Leaf B' = b_leaf b →
  content_ok (<[k := <[j := B']> bkt]> t) (delete n st).
Proof.
  intros H Hk Hj He Hn Hcan Henc HID HLeaf.
  pose proof H as (Hs & Ht & _).
  assert (good (b_id b) (b_leaf b) (b_data b)) as Hgood.
  { unfold stash_ok in Hs. rewrite Forall_lookup in Hs. by eapply Hs. }
  assert (live B') as HB' by (unfold live; rewrite HID; by eapply good_live).
  apply (content_ids t st); [| | |done].
  - by apply Forall_delete.
  - intros k' bkt' Hk'.
    destruct (decide (k = k')) as [<-|Hne].
    + rewrite list_lookup_insert_eq in Hk' by (by eapply lookup_lt_Some).
      injection Hk' as <-. apply Forall_insert; [by eapply Ht|].
      intros _. rewrite HID, HLeaf. split; [done|].
      exists (b_data b). split; [|done]. by apply decrypt_encrypt.
    + rewrite list_lookup_insert_ne in Hk' by done. by eapply Ht.
  - unfold all_ids.
    pose proof (fmap_Permutation b_id _ _ (delete_Permutation st n b Hn)) as Hp.
    rewrite fmap_cons in Hp. rewrite Hp. clear Hp.
    assert (¬ live e) as Hde by (unfold live; tauto).
    pose proof (tree_ids_fill t k bkt j e B' Hk Hj Hde HB') as Hp.
    rewrite Hp, HID. clear Hp.
    symmetry. apply Permutation_middle.
Qed.

(** ** Draining a bucket *)

Lemma bucket_ids_kill bkt : bucket_ids (kill <$> bkt) = [].
Proof.
  induction bkt as [|B bkt IH]; [done|]. rewrite fmap_cons.
  rewrite bucket_ids_cons_dead; [done|].
  unfold live, kill. destruct (ID B =? EmptyBlockID) eqn:E; simpl; [|tauto].
  apply Z.eqb_eq in E. tauto.
Qed.

Lemma plainOf_Some k B :
  slot_ok k B → live B →
  ∃ p, plainOf B = Some (mkblock (ID B) (Leaf B) p) ∧
       Decrypt (ID B) (Leaf B) (Data B) = Ok p ∧ good (ID B) (Leaf B) p.
Proof.
  intros Hok Hl. destruct (Hok Hl) as (_ & p & Hd & Hg). exists p.
  unfold plainOf. rewrite Hd.
  destruct (ID B =? EmptyBlockID) eqn:E; [|done].
  apply Z.eqb_eq in E. done.
Qed.

Lemma plainOf_dead B : ¬ live B → plainOf B = None.
Proof.
  unfold live, plainOf. intros H.
  destruct (ID B =? EmptyBlockID) eqn:E; [done|]. apply Z.eqb_neq in E. tauto.
Qed.

Lemma plain_blocks_ids k bkt :
  Forall (slot_ok k) bkt → b_id <$> plain_blocks bkt = bucket_ids bkt.
Proof.
  induction 1 as [|B bkt HB _ IH]; [done|].
  unfold plain_blocks in *. cbn [omap list_omap].
  destruct (decide (live B)) as [Hl|Hl].
  - destruct (plainOf_Some k B HB Hl) as (p & -> & _).
    rewrite bucket_ids_cons_live by done. rewrite fmap_cons. simpl. by f_equal.
  - rewrite plainOf_dead by done. by rewrite bucket_ids_cons_dead.
Qed.

Lemma plain_blocks_ok k bkt :
  Forall (slot_ok k) bkt → stash_ok (plain_blocks bkt).
Proof.
  induction 1 as [|B bkt HB _ IH]; [constructor|].
  unfold plain_blocks in *. cbn [omap list_omap].
  destruct (decide (live B)) as [Hl|Hl].
  - destruct (plainOf_Some k B HB Hl) as (p & -> & _ & Hg). by constructor.
  - by rewrite plainOf_dead.
Qed.

Lemma content_drain t st k bkt :
  content_ok t st → t !! k = Some bkt →
  content_ok (<[k := kill <$> bkt]> t) (st ++ plain_blocks bkt).
Proof.
  intros H Hk. pose proof H as (Hs & Ht & _).
  pose proof (Ht k bkt Hk) as Hbkt.
  apply (content_ids t st); [| | |done].
  - apply Forall_app_2; [done|]. by eapply plain_blocks_ok.
  - intros k' bkt' Hk'.
    destruct (decide (k = k')) as [<-|Hne].
    + rewrite list_lookup_insert_eq in Hk' by (by eapply lookup_lt_Some).
      injection Hk' as <-. apply Forall_fmap, Forall_forall. intros B _ Hl.
      exfalso. revert Hl. unfold live, kill.
      destruct (ID B =? EmptyBlockID) eqn:E; simpl; [|tauto].
      apply Z.eqb_eq in E. tauto.
    + rewrite list_lookup_insert_ne in Hk' by done. by eapply Ht.
  - unfold all_ids. destruct (tree_ids_insert t k bkt Hk) as (pre & post & E1 & E2).
    rewrite E2, E1, bucket_ids_kill, fmap_app, (plain_blocks_ids k) by done.
    simpl. rewrite <- !app_assoc. apply Permutation_app_head.
    rewrite !app_assoc. apply Permutation_app_tail. apply Permutation_app_comm.
Qed.
End ContentLemmas.

(** ** The buckets in memory laid over the tree *)

Lemma overlay_length t path bks : length (overlay t path bks) = length t.
Proof.
  revert t bks. induction path as [|k path IH]; intros t [|bkt bks]; simpl; try done.
  by rewrite IH, length_insert.
Qed.

(** Buckets just read change nothing. *)
Lemma overlay_read t (pn : list nat) bks :
  Forall2 (λ k bkt, t !! k = Some bkt) pn bks →
  overlay t (Z.of_nat <$> pn) bks = t.
Proof.
  revert t. induction 1 as [|k bkt pn bks Hk _ IH]; [done|].
  rewrite fmap_cons. cbn [overlay]. rewrite Nat2Z.id.
  by rewrite list_insert_id.
Qed.

Lemma overlay_insert_notin t (pn : list nat) bks k x :
  k ∉ pn →
  overlay (<[k := x]> t) (Z.of_nat <$> pn) bks = <[k := x]> (overlay t (Z.of_nat <$> pn) bks).
Proof.
  revert t bks. induction pn as [|k' pn IH]; intros t [|bkt bks] Hk; try done.
  apply not_elem_of_cons in Hk as [Hne Hk].
  rewrite fmap_cons. cbn [overlay]. rewrite Nat2Z.id.
  rewrite list_insert_insert_ne by done. by apply IH.
Qed.

Lemma overlay_lookup t (pn : list nat) bks lv k bkt :
  NoDup pn → length bks = length pn → Forall (λ k, (k < length t)%nat) pn →
  pn !! lv = Some k → bks !! lv = Some bkt →
  overlay t (Z.of_nat <$> pn) bks !! k = Some bkt.
Proof.
  revert t bks lv. induction pn as [|k' pn IH]; intros t [|bkt' bks] lv Hnd Hlen Hr Hk Hb;
    try done.
  apply NoDup_cons in Hnd as [Hnotin Hnd]. apply Forall_cons in Hr as [Hk' Hr].
  rewrite fmap_cons. cbn [overlay]. rewrite Nat2Z.id.
  destruct lv as [|lv]; simpl in Hk, Hb.
  - injection Hk as ->. injection Hb as ->.
    rewrite overlay_insert_notin by done. by apply list_lookup_insert_eq; rewrite overlay_length.
  - eapply IH; try done.
    + simpl in Hlen. lia.
    + eapply Forall_impl; [done|]. intros ? ?. by rewrite length_insert.
Qed.

Lemma overlay_insert t (pn : list nat) bks lv k x :
  NoDup pn → length bks = length pn →
  pn !! lv = Some k →
  overlay t (Z.of_nat <$> pn) (<[lv := x]> bks) = <[k := x]> (overlay t (Z.of_nat <$> pn) bks).
Proof.
  revert t bks lv. induction pn as [|k' pn IH]; intros t [|bkt' bks] lv Hnd Hlen Hk; try done.
  apply NoDup_cons in Hnd as [Hnotin Hnd].
  rewrite fmap_cons. destruct lv as [|lv]; simpl in Hk.
  - injection Hk as ->. cbn [overlay list_insert insert]. rewrite Nat2Z.id.
    rewrite !overlay_insert_notin by done. by rewrite list_insert_insert_eq.
  - cbn [overlay list_insert insert]. rewrite Nat2Z.id. apply IH; try done.
    simpl in Hlen. lia.
Qed.

Lemma same_shape_refl bks : same_shape bks bks.
Proof. unfold same_shape. induction bks; by constructor. Qed.

Lemma same_shape_trans a b c : same_shape a b → same_shape b c → same_shape a c.
Proof.
  unfold same_shape. intros H1. revert c.
  induction H1 as [|x y a b Hxy _ IH]; intros c H2; inversion H2; subst; constructor.
  - congruence.
  - by apply IH.
Qed.

Lemma same_shape_insert bks lv bkt j (B' : Block) :
  bks !! lv = Some bkt → same_shape bks (<[lv := <[j := B']> bkt]> bks).
Proof.
  intros Hlv. unfold same_shape.
  apply Forall2_same_length_lookup_2; [by rewrite length_insert|].
  intros i a b Ha Hb. destruct (decide (lv = i)) as [<-|Hne].
  - rewrite list_lookup_insert_eq in Hb by (by eapply lookup_lt_Some).
    injection Hb as <-. rewrite Hlv in Ha. injection Ha as <-. by rewrite length_insert.
  - rewrite list_lookup_insert_ne in Hb by done. congruence.
Qed.

Section MovesLemmas.
Context {Enc : Encryptor} {EncOK : EncryptorCorrect Enc}.
Variables (c : Config) (L : Z) (pm : gmap Z Z) (mem : gmap Z bytes).

Lemma moves_trans path s1 s2 s3 :
  moves L path s1 s2 → moves L path s2 s3 → moves L path s1 s3.
Proof.
  induction 1; intros; [done| |].
  - eapply moves_perm; eauto.
  - eapply moves_place; eauto.
Qed.

Lemma moves_place_1 path bks st lv k bkt j e n b B' :
  path !! lv = Some k → bks !! lv = Some bkt → bkt !! j = Some e →
  ID e = EmptyBlockID → st !! n = Some b →
  canPlaceAt L (b_leaf b) k = true →
  blockToStorage b = Ok B' →
  moves L path (bks, st) (<[lv := <[j := B']> bkt]> bks, delete n st).
Proof.
  intros ? ? ? ? ? ? HB. unfold blockToStorage in HB.
  destruct (Encrypt _ _ _) as [a| |] eqn:E; try done. injection HB as <-.
  by eapply (moves_place L path bks st lv k bkt j e n b
               (mkBlock (b_id b) (b_leaf b) a)); [..|apply moves_refl].
Qed.

Lemma moves_shape path s s' : moves L path s s' → same_shape s.1 s'.1.
Proof.
  induction 1; simpl in *; [apply same_shape_refl|done|].
  eapply same_shape_trans; [|done]. by apply same_shape_insert.
Qed.

(** Moves on the buckets in memory keep the content invariant of the
    tree they are laid over. *)
Lemma moves_content t (pn : list nat) bks st bks' st' :
  moves L (Z.of_nat <$> pn) (bks, st) (bks', st') →
  NoDup pn → length bks = length pn → Forall (λ k, (k < length t)%nat) pn →
  content_ok c L pm mem (overlay t (Z.of_nat <$> pn) bks) st →
  content_ok c L pm mem (overlay t (Z.of_nat <$> pn) bks') st'.
Proof.
  intros Hm. remember (bks, st) as s eqn:Es. remember (bks', st') as s' eqn:Es'.
  revert bks st Es. induction Hm as [s|bks0 st0 st1 s Hp Hm IH|
    bks0 st0 lv k bkt j e n b B' s Hlv Hb Hj He Hn Hcan Henc HID HLeaf Hm IH];
    intros bks st Es Hnd Hlen Hr Hc; subst.
  - by injection Es as <- <-.
  - injection Es as <- <-. eapply IH; try done. by eapply content_perm.
  - injection Es as <- <-.
    apply list_lookup_fmap_Some in Hlv as (kn & -> & Hlv).
    eapply IH; try done; [by rewrite length_insert|].
    rewrite (overlay_insert _ _ _ lv kn) by done.
    eapply content_place; try done.
    by eapply overlay_lookup.
Qed.
End MovesLemmas.


(** * The eviction loops, on the buckets in memory *)

Section LocalLoops.
Context {Enc : Encryptor} {EncOK : EncryptorCorrect Enc}.

Lemma blockToStorage_Ok b : ∃ B', blockToStorage b = Ok B'.
Proof.
  unfold blockToStorage. destruct (encrypt_total (b_id b) (b_leaf b) (b_data b)) as [x ->].
  eauto.
Qed.

Lemma set_stash_id o : set_stash (stash o) o = o.
Proof. by destruct o. Qed.

Lemma firstPlaceable_Some L k st i :
  firstPlaceable L k st = Some i →
  ∃ b, st !! i = Some b ∧ canPlaceAt L (b_leaf b) k = true.
Proof.
  revert i. induction st as [|b st IH]; intros i; simpl; [done|].
  destruct (canPlaceAt L (b_leaf b) k) eqn:E.
  - intros [= <-]. by exists b.
  - destruct (firstPlaceable L k st) as [i'|]; [|done]. simpl.
    intros [= <-]. by apply IH.
Qed.

Lemma firstPlaceable_None L k st :
  firstPlaceable L k st = None → Forall (λ b, canPlaceAt L (b_leaf b) k = false) st.
Proof.
  induction st as [|b st IH]; simpl; [constructor|].
  destruct (canPlaceAt L (b_leaf b) k) eqn:E; [done|].
  destruct (firstPlaceable L k st); [done|]. intros _. constructor; auto.
Qed.

Lemma firstEmpty_Some bkt j :
  firstEmpty bkt = Some j → ∃ e, bkt !! j = Some e ∧ ID e = EmptyBlockID.
Proof.
  revert j. induction bkt as [|B bkt IH]; intros j; simpl; [done|].
  destruct (ID B =? EmptyBlockID) eqn:E.
  - intros [= <-]. exists B. split; [done|]. by apply Z.eqb_eq.
  - destruct (firstEmpty bkt) as [j'|]; [|done]. simpl. intros [= <-]. by apply IH.
Qed.

(** ** Level by level: the slot loop of one bucket *)

(** Once set, the [modified] flag stays. *)
Lemma evictSlots_flag k slots bucket o r o' :
  foldM (evictSlot k) slots (bucket, true) o = (Ok r, o') → r.2 = true.
Proof.
  revert bucket o. induction slots as [|s slots IH]; intros bucket o; cbn [foldM].
  - unfold ret. by intros [= <- _].
  - unfold bind, evictSlot. cbn [fst].
    destruct (bucket !! s) as [B0|]; [|done].
    destruct (negb (ID B0 =? EmptyBlockID)).
    { unfold ret. apply IH. }
    destruct (firstPlaceable _ _ _); [|apply IH].
    destruct (stash o !! _); [|done].
    destruct (blockToStorage _); try done. apply IH.
Qed.

Lemma blockToStorage_keeps_id b B' : blockToStorage b = Ok B' → ID B' = b_id b.
Proof.
  unfold blockToStorage. destruct (Encrypt _ _ _); try done. by intros [= <-].
Qed.

(** A flag that is set tells of a block in the bucket. *)
Lemma evictSlots_live k slots bucket modified o r o' :
  Forall (λ b, b_id b ≠ EmptyBlockID) (stash o) →
  (modified = true → Exists live bucket) →
  foldM (evictSlot k) slots (bucket, modified) o = (Ok r, o') →
  r.2 = true → Exists live r.1.
Proof.
  revert bucket modified o. induction slots as [|s slots IH];
    intros bucket modified o Hst Hm; cbn [foldM].
  - unfold ret. by intros [= <- _].
  - unfold bind, evictSlot. cbn [fst].
    destruct (bucket !! s) as [B0|] eqn:E0; [|done].
    destruct (negb (ID B0 =? EmptyBlockID)).
    { unfold ret. by apply IH. }
    destruct (firstPlaceable _ _ _) as [i|]; [|by apply IH].
    destruct (stash o !! i) as [b|] eqn:Ei; [|done].
    destruct (blockToStorage b) as [B'| |] eqn:EB; try done.
    apply IH.
    + cbn. by apply Forall_delete.
    + intros _. apply Exists_exists. exists B'. split.
      * eapply list_elem_of_lookup_2. apply list_lookup_insert_eq.
        by eapply lookup_lt_Some.
      * unfold live. rewrite (blockToStorage_keeps_id _ _ EB).
        rewrite Forall_forall in Hst. apply Hst. by eapply list_elem_of_lookup_2.
Qed.

Lemma existsb_live bkt :
  existsb (λ B, negb (ID B =? EmptyBlockID)) bkt = true ↔ Exists live bkt.
Proof.
  rewrite existsb_exists, Exists_exists. split.
  - intros (B & HB & E). exists B. split; [by apply list_elem_of_In|].
    apply negb_true_iff, Z.eqb_neq in E. done.
  - intros (B & HB & E). exists B. split; [by apply list_elem_of_In|].
    by apply negb_true_iff, Z.eqb_neq.
Qed.

Lemma evictSlots_spec k slots bucket modified o :
  Forall (λ s, (s < length bucket)%nat) slots →
  ∃ bucket' modified' st',
    foldM (evictSlot k) slots (bucket, modified) o
      = (Ok (bucket', modified'), set_stash st' o) ∧
    moves (numLeaves o) [k] ([bucket], stash o) ([bucket'], st') ∧
    (modified' = false → bucket' = bucket).
Proof.
  revert bucket modified o.
  induction slots as [|s slots IH]; intros bucket modified o Hs.
  { exists bucket, modified, (stash o). simpl. unfold ret. rewrite set_stash_id.
    split; [done|]. split; [apply moves_refl | done]. }
  apply Forall_cons in Hs as [Hs Hslots].
  destruct (lookup_lt_is_Some_2 bucket s Hs) as [B HB].
  cbn [foldM].
  destruct (ID B =? EmptyBlockID) eqn:EB.
  2:{ (* the slot is occupied *)
    erewrite bind_Ok; [|unfold evictSlot; cbn [fst]; rewrite HB, EB; reflexivity].
    by apply IH. }
  apply Z.eqb_eq in EB as EB'.
  destruct (firstPlaceable (numLeaves o) k (stash o)) as [i|] eqn:EF.
  2:{ (* no stash block fits *)
    erewrite bind_Ok;
      [|unfold evictSlot; cbn [fst]; rewrite HB, EB; cbn [negb]; rewrite EF; reflexivity].
    by apply IH. }
  destruct (firstPlaceable_Some _ _ _ _ EF) as (b & Hb & Hcan).
  destruct (blockToStorage_Ok b) as [B' HB'].
  erewrite bind_Ok;
    [|unfold evictSlot; cbn [fst]; rewrite HB, EB; cbn [negb]; rewrite EF, Hb, HB';
      reflexivity].
  destruct (IH (<[s := B']> bucket) true (set_stash (delete i (stash o)) o))
    as (bucket' & modified' & st' & Hrun & Hmv & Hmod).
  { eapply Forall_impl; [done|]. intros ? ?. by rewrite length_insert. }
  exists bucket', modified', st'. split; [by rewrite Hrun|]. split.
  - eapply moves_trans; [|exact Hmv].
    by apply (moves_place_1 _ [k] [bucket] (stash o) 0%nat k bucket s B i b B').
  - intros ->. apply evictSlots_flag in Hrun. done.
Qed.

(** ** Greedy by depth *)

Lemma placeGreedy_spec L b path bks :
  length bks = length path →
  (placeGreedy L b path bks = Ok None) ∨
  ∃ lv k bkt j e B',
    path !! lv = Some k ∧ bks !! lv = Some bkt ∧ bkt !! j = Some e ∧
    ID e = EmptyBlockID ∧ canPlaceAt L (b_leaf b) k = true ∧
    blockToStorage b = Ok B' ∧
    placeGreedy L b path bks = Ok (Some (<[lv := <[j := B']> bkt]> bks)).
Proof.
  revert bks. induction path as [|k path IH]; intros [|bkt bks] Hlen; try done.
  { by left. }
  cbn [placeGreedy].
  assert (length bks = length path) as Hlen' by (simpl in Hlen; lia).
  assert (
    (match placeGreedy L b path bks with
     | Ok (Some r) => Ok (Some (bkt :: r))
     | other => other
     end = Ok None) ∨
    ∃ lv k0 bkt0 j e B',
      (k :: path) !! lv = Some k0 ∧ (bkt :: bks) !! lv = Some bkt0 ∧ bkt0 !! j = Some e ∧
      ID e = EmptyBlockID ∧ canPlaceAt L (b_leaf b) k0 = true ∧
      blockToStorage b = Ok B' ∧
      match placeGreedy L b path bks with
      | Ok (Some r) => Ok (Some (bkt :: r))
      | other => other
      end = Ok (Some (<[lv := <[j := B']> bkt0]> (bkt :: bks)))) as Hnext.
  { destruct (IH bks Hlen') as [->|(lv & k0 & bkt0 & j & e & B' & ? & ? & ? & ? & ? & ? & ->)].
    - by left.
    - right. by exists (S lv), k0, bkt0, j, e, B'. }
  destruct (canPlaceAt L (b_leaf b) k) eqn:Ecan; cbn [negb]; [|done].
  destruct (firstEmpty bkt) as [j|] eqn:EF; [|done].
  destruct (firstEmpty_Some _ _ EF) as (e & He & HID).
  destruct (blockToStorage_Ok b) as [B' HB']. rewrite HB'.
  right. by exists 0%nat, k, bkt, j, e, B'.
Qed.

Lemma swapRemove_perm (st : list block) i b :
  st !! i = Some b → swapRemove i st ≡ₚ delete i st.
Proof.
  intros Hi. unfold swapRemove.
  destruct (last st) as [x|] eqn:El.
  2:{ apply last_None in El. by subst. }
  apply last_Some in El as [st0 ->].
  pose proof (lookup_lt_Some _ _ _ Hi) as Hlt. rewrite length_app in Hlt. simpl in Hlt.
  rewrite length_app. simpl. replace (length st0 + 1 - 1)%nat with (length st0) by lia.
  assert (i ≤ length st0)%nat as Hle by lia. clear Hi Hlt. revert i Hle.
  induction st0 as [|a st0 IH]; intros i Hle.
  - by replace i with 0%nat by (simpl in Hle; lia).
  - destruct i as [|i]; simpl.
    + rewrite take_app_length. apply Permutation_cons_append.
    + apply Permutation_skip. apply IH. simpl in Hle. lia.
Qed.

Lemma greedyLoop_spec path fuel i bks o :
  length bks = length path →
  ∃ bks' st',
    greedyLoop fuel path i bks o = (Ok bks', set_stash st' o) ∧
    moves (numLeaves o) path (bks, stash o) (bks', st').
Proof.
  revert i bks o. induction fuel as [|fuel IH]; intros i bks o Hlen; cbn [greedyLoop].
  { exists bks, (stash o). unfold ret. rewrite set_stash_id.
    split; [done | apply moves_refl]. }
  destruct (stash o !! i) as [b|] eqn:Hb.
  2:{ exists bks, (stash o). rewrite set_stash_id. split; [done | apply moves_refl]. }
  destruct (placeGreedy_spec (numLeaves o) b path bks Hlen)
    as [->|(lv & k & bkt & j & e & B' & Hlv & Hbk & Hj & He & Hcan & HB' & ->)].
  - by apply IH.
  - destruct (IH i (<[lv := <[j := B']> bkt]> bks) (set_stash (swapRemove i (stash o)) o))
      as (bks' & st' & Hrun & Hmv); [by rewrite length_insert|].
    exists bks', st'. split; [by rewrite Hrun|].
    eapply moves_trans; [by eapply (moves_place_1 _ path bks (stash o) lv k bkt j e i b B')|].
    eapply moves_perm; [|exact Hmv]. symmetry. by eapply swapRemove_perm.
Qed.

(** More rounds than [length stash - i] change nothing: the loop has
    ended by then. *)
Lemma greedyLoop_fuel path fuel fuel' i bks o :
  (length (stash o) - i ≤ fuel)%nat → (fuel ≤ fuel')%nat →
  greedyLoop fuel' path i bks o = greedyLoop fuel path i bks o.
Proof.
  revert fuel' i bks o. induction fuel as [|fuel IH]; intros fuel' i bks o Hf Hle.
  - destruct fuel' as [|fuel']; [done|]. cbn [greedyLoop].
    by rewrite lookup_ge_None_2 by lia.
  - destruct fuel' as [|fuel']; [lia|]. cbn [greedyLoop].
    destruct (stash o !! i) as [b|] eqn:Hb; [|done].
    pose proof (lookup_lt_Some _ _ _ Hb) as Hlt.
    destruct (placeGreedy _ _ _ _) as [[bks'|]| |]; try done.
    + apply IH; [|lia]. cbn [stash set_stash].
      assert (length (swapRemove i (stash o)) = length (stash o) - 1)%nat as ->; [|lia].
      unfold swapRemove. destruct (last (stash o)) eqn:El.
      * rewrite length_take, length_insert. lia.
      * apply last_None in El. rewrite El in Hlt. simpl in Hlt. lia.
    + apply IH; lia.
Qed.
(** ** Constant time *)

Lemma moves_frame L path bks st bks' st' b :
  moves L path (bks, st) (bks', st') → moves L path (bks, b :: st) (bks', b :: st').
Proof.
  intros Hm. remember (bks, st) as s eqn:Es. remember (bks', st') as s' eqn:Es'.
  revert bks st Es. induction Hm as [s|bks0 st0 st1 s Hp Hm IH|
    bks0 st0 lv k bkt j e n b0 B' s Hlv Hb Hj He Hn Hcan Henc HID HLeaf Hm IH];
    intros bks st Es; subst.
  - injection Es as <- <-. apply moves_refl.
  - injection Es as <- <-. eapply moves_perm; [by apply Permutation_skip|]. by apply IH.
  - injection Es as <- <-.
    eapply (moves_place L path bks0 (b :: st0) lv k bkt j e (S n) b0 B'); try done.
    by apply IH.
Qed.

Lemma ctSlots_idle b cp done todo placed :
  (cp = 0 ∨ cp = 1) → (cp = 0 ∨ placed = 1) →
  ctSlots b cp done todo placed = Ok (done ++ todo, placed).
Proof.
  intros Hcp Hidle. revert done. induction todo as [|B todo IH]; intros done.
  - simpl. by rewrite app_nil_r.
  - cbn [ctSlots].
    assert ((Z.land (Z.land cp (ConstantTimeEq (int32 (ID B)) (int32 EmptyBlockID)))
               (Z.lxor 1 placed) =? 1) = false) as ->.
    { unfold ConstantTimeEq.
      destruct (int32 (ID B) =? int32 EmptyBlockID);
        destruct Hcp as [->| ->], Hidle as [?| ->]; try lia; reflexivity. }
    rewrite IH. by rewrite <- app_assoc.
Qed.

Lemma ctSlots_active b done todo :
  Forall (λ B, id_fits (ID B)) todo →
  ctSlots b 1 done todo 0 =
    match firstEmpty todo with
    | Some j =>
        match blockToStorage b with
        | Ok B' => Ok (done ++ <[j := B']> todo, 1)
        | Err e => Err e
        | Panic => Panic
        end
    | None => Ok (done ++ todo, 0)
    end.
Proof.
  intros Hfit. revert done. induction Hfit as [|B todo HB _ IH]; intros done.
  - simpl. by rewrite app_nil_r.
  - cbn [ctSlots firstEmpty]. unfold ConstantTimeEq.
    destruct (ID B =? EmptyBlockID) eqn:E.
    + apply Z.eqb_eq in E. rewrite E, Z.eqb_refl.
      change (Z.land (Z.land 1 1) (Z.lxor 1 0) =? 1) with true. cbv iota.
      destruct (blockToStorage b) as [B'| |]; try done.
      rewrite ctSlots_idle by auto. by rewrite <- app_assoc.
    + apply Z.eqb_neq in E.
      destruct (int32 (ID B) =? int32 EmptyBlockID) eqn:E2.
      { apply Z.eqb_eq in E2. apply int32_empty in E2; [done|]. exact HB. }
      change (Z.land (Z.land 1 0) (Z.lxor 1 0) =? 1) with false. cbv iota.
      rewrite IH. destruct (firstEmpty todo) as [j|]; simpl.
      * destruct (blockToStorage b); try done. by rewrite <- app_assoc.
      * by rewrite <- app_assoc.
Qed.

Lemma ctLevels_idle h L b path bks :
  length bks = length path → ctLevels h L b path bks 1 = Ok (bks, 1).
Proof.
  revert bks. induction path as [|k path IH]; intros [|bkt bks] Hlen; try done.
  cbn [ctLevels]. rewrite ctSlots_idle.
  - rewrite IH by (simpl in Hlen; lia). done.
  - destruct (canPlaceAtConstantTime _ _ _ _); auto.
  - auto.
Qed.

(** On values that fit [int32], the level loop of the constant-time
    eviction places a block exactly as the greedy one does. *)
Lemma ctLevels_greedy d b path bks :
  (d < 32)%nat → 0 ≤ b_leaf b < pow2 d →
  Forall (λ k, 0 ≤ k < 2 ^ 32) path →
  Forall (Forall (λ B, id_fits (ID B))) bks →
  length bks = length path →
  ctLevels (Z.of_nat (S d)) (pow2 d) b path bks 0 =
    match placeGreedy (pow2 d) b path bks with
    | Ok (Some r) => Ok (r, 1)
    | Ok None => Ok (bks, 0)
    | Err e => Err e
    | Panic => Panic
    end.
Proof.
  intros Hd Hl Hpath. revert bks.
  induction Hpath as [|k path Hk _ IH]; intros [|bkt bks] Hfit Hlen; try done.
  apply Forall_cons in Hfit as [Hbkt Hfit].
  assert (length bks = length path) as Hlen' by (simpl in Hlen; lia).
  cbn [ctLevels placeGreedy].
  rewrite canPlaceAtConstantTime_spec by done.
  destruct (canPlaceAt (pow2 d) (b_leaf b) k) eqn:Ecan; cbn [negb].
  - rewrite ctSlots_active by done. simpl.
    destruct (firstEmpty bkt) as [j|].
    + destruct (blockToStorage b) as [B'| |]; try done.
      by rewrite ctLevels_idle.
    + rewrite IH by done.
      by destruct (placeGreedy (pow2 d) b path bks) as [[r|]| |].
  - rewrite ctSlots_idle by auto. simpl. rewrite IH by done.
    by destruct (placeGreedy (pow2 d) b path bks) as [[r|]| |].
Qed.

Lemma blockToStorage_ID b B' :
  blockToStorage b = Ok B' → ID B' = b_id b ∧ Leaf B' = b_leaf b.
Proof.
  unfold blockToStorage. destruct (Encrypt _ _ _); try done. by intros [= <-].
Qed.

Lemma ctStash_spec d path st bks acc :
  (d < 32)%nat →
  Forall (λ k, 0 ≤ k < 2 ^ 32) path →
  Forall (λ b, 0 ≤ b_id b < 2 ^ 32 - 1 ∧ 0 ≤ b_leaf b < pow2 d) st →
  Forall (Forall (λ B, id_fits (ID B))) bks →
  length bks = length path →
  ∃ bks' rest,
    ctStash (Z.of_nat (S d)) (pow2 d) path st bks acc = Ok (bks', acc ++ rest) ∧
    moves (pow2 d) path (bks, st) (bks', rest).
Proof.
  intros Hd Hpath Hst. revert bks acc.
  induction Hst as [|b st [Hid Hleaf] _ IH]; intros bks acc Hfit Hlen.
  { exists bks, []. simpl. rewrite app_nil_r. split; [done | apply moves_refl]. }
  cbn [ctStash]. rewrite ctLevels_greedy by done.
  destruct (placeGreedy_spec (pow2 d) b path bks Hlen)
    as [->|(lv & k & bkt & j & e & B' & Hlv & Hbk & Hj & He & Hcan & HB' & ->)].
  - destruct (IH bks (acc ++ [b]) Hfit Hlen) as (bks' & rest & Hrun & Hmv).
    exists bks', (b :: rest). change (0 =? 0) with true. cbv iota.
    rewrite Hrun, <- app_assoc. split; [done|]. by apply moves_frame.
  - destruct (IH (<[lv := <[j := B']> bkt]> bks) acc) as (bks' & rest & Hrun & Hmv).
    + apply Forall_insert; [done|]. apply Forall_insert.
      * rewrite Forall_lookup in Hfit. by eapply Hfit.
      * apply blockToStorage_ID in HB' as [-> _]. unfold id_fits. lia.
    + by rewrite length_insert.
    + exists bks', rest. change (1 =? 0) with false. cbv iota. split; [done|].
      eapply moves_trans; [|exact Hmv].
      by apply (moves_place_1 _ path bks (b :: st) lv k bkt j e 0%nat b B').
Qed.
End LocalLoops.


(** * The methods of the engine *)

Section Methods.
Context {Enc : Encryptor} {EncOK : EncryptorCorrect Enc}.
Variables (c : Config) (L : Z) (pm : gmap Z Z) (mem : gmap Z bytes).

Local Abbreviation content_ok := (content_ok c L pm mem).
Local Abbreviation slot_ok := (slot_ok c L pm mem).
Local Abbreviation evict_post := (evict_post c L pm mem).

(** ** Reading the path into the stash *)

Lemma drainSlots_spec k bkt o :
  Forall (slot_ok k) bkt →
  drainSlots bkt o = (Ok (kill <$> bkt), set_stash (stash o ++ plain_blocks bkt) o).
Proof.
  intros H. revert o. induction H as [|B bkt HB _ IH]; intros o.
  { simpl. unfold ret. unfold plain_blocks. simpl. rewrite app_nil_r.
    by rewrite set_stash_id. }
  cbn [drainSlots]. unfold plain_blocks, kill. cbn [omap list_omap fmap list_fmap].
  destruct (ID B =? EmptyBlockID) eqn:E.
  - erewrite bind_Ok by apply IH. unfold ret.
    rewrite plainOf_dead by (apply Z.eqb_eq in E; unfold live; tauto). done.
  - assert (live B) as Hl by (by apply Z.eqb_neq in E).
    destruct (plainOf_Some c L pm mem k B HB Hl) as (p & -> & Hd & _).
    rewrite Hd. unfold lift, appendStash, modify. unfold bind at 1 2.
    erewrite bind_Ok by apply IH. unfold ret. cbn [stash set_stash].
    by rewrite <- app_assoc.
Qed.

Lemma all_dead_kill bkt : all_dead (kill <$> bkt).
Proof.
  unfold all_dead. apply Forall_fmap, Forall_forall. intros B _. simpl. unfold kill.
  destruct (ID B =? EmptyBlockID) eqn:E; [by apply Z.eqb_eq|done].
Qed.

Lemma slots_ok_insert o t k bkt bkt' :
  slots_ok o t → t !! k = Some bkt → length bkt' = length bkt →
  slots_ok o (<[k := bkt']> t).
Proof.
  intros H Hk Hlen. apply Forall_insert; [done|]. rewrite Hlen.
  unfold slots_ok in H. rewrite Forall_lookup in H. by eapply H.
Qed.

Lemma slots_ok_upd o t st cs t' : slots_ok (upd o t st cs) t' ↔ slots_ok o t'.
Proof. done. Qed.

Lemma drainBucket_spec k bkt o :
  buckets (storage o) !! k = Some bkt →
  Forall (slot_ok k) bkt → slots_ok o (buckets (storage o)) →
  (bucket <- readBucket (Z.of_nat k) ;;
   bucket' <- drainSlots bucket ;;
   writeBucket (Z.of_nat k) bucket') o
  = (Ok tt, upd o (<[k := kill <$> bkt]> (buckets (storage o)))
              (stash o ++ plain_blocks bkt)
              [CallRead (Z.of_nat k); CallWrite (Z.of_nat k)]).
Proof.
  intros Hk Hs Hsl.
  erewrite bind_Ok by (by apply readBucket_Ok).
  erewrite bind_Ok by (by eapply drainSlots_spec).
  rewrite set_stash_upd. cbn [stash upd].
  erewrite writeBucket_Ok; [| exact Hk | | by rewrite length_fmap].
  - rewrite upd_upd. done.
  - rewrite length_fmap. unfold slots_ok in Hsl. rewrite Forall_lookup in Hsl.
    by eapply Hsl.
Qed.

Lemma readPathIntoStash_spec (pn : list nat) o :
  let t := buckets (storage o) in
  content_ok t (stash o) → slots_ok o t →
  Forall (λ k, (k < length t)%nat) pn →
  ∃ t' bl,
    readPathIntoStash (Z.of_nat <$> pn) o
      = (Ok tt, upd o t' (stash o ++ bl) (drainCalls (Z.of_nat <$> pn))) ∧
    content_ok t' (stash o ++ bl) ∧ slots_ok o t' ∧ length t' = length t ∧
    (∀ k bkt, t !! k = Some bkt → all_dead bkt →
              ∃ bkt', t' !! k = Some bkt' ∧ all_dead bkt') ∧
    (∀ k, k ∈ pn → ∃ bkt', t' !! k = Some bkt' ∧ all_dead bkt').
Proof.
  cbv zeta. revert o. induction pn as [|k pn IH]; intros o Hc Hsl Hr.
  { exists (buckets (storage o)), []. simpl. unfold ret. rewrite app_nil_r, upd_id.
    split; [done|]. split; [done|]. split; [done|]. split; [done|].
    split; [eauto|]. intros k Hk. by apply elem_of_nil in Hk. }
  apply Forall_cons in Hr as [Hk Hr].
  destruct (lookup_lt_is_Some_2 _ _ Hk) as [bkt Hbkt].
  pose proof Hc as (_ & Ht & _). pose proof (Ht k bkt Hbkt) as Hslots.
  set (t1 := <[k := kill <$> bkt]> (buckets (storage o))).
  set (st1 := stash o ++ plain_blocks bkt).
  set (o1 := upd o t1 st1 [CallRead (Z.of_nat k); CallWrite (Z.of_nat k)]).
  destruct (IH o1) as (t' & bl & Hrun & Hc' & Hsl' & Hlen' & Hdead & Hpath).
  { by apply content_drain. }
  { apply slots_ok_upd. eapply slots_ok_insert; [done..|]. by rewrite length_fmap. }
  { cbn. unfold t1. by rewrite length_insert. }
  cbn [o1 upd stash storage buckets] in *.
  exists t', (plain_blocks bkt ++ bl).
  rewrite fmap_cons. unfold readPathIntoStash. cbn [forM_].
  erewrite bind_Ok by (by apply drainBucket_spec).
  fold (readPathIntoStash (Z.of_nat <$> pn)). fold t1 st1 o1. rewrite Hrun.
  unfold o1, st1. rewrite upd_upd, <- app_assoc.
  split; [done|]. rewrite app_assoc. split; [done|]. split; [done|].
  split; [by unfold t1 in Hlen'; rewrite length_insert in Hlen'|]. split.
  - intros k' bkt' Hk' Hd.
    destruct (decide (k = k')) as [<-|Hne].
    + apply (Hdead k (kill <$> bkt)); [|apply all_dead_kill].
      unfold t1. by apply list_lookup_insert_eq.
    + apply (Hdead k' bkt'); [|done]. unfold t1. by rewrite list_lookup_insert_ne.
  - intros k' Hk'. apply elem_of_cons in Hk' as [->|Hk']; [|by apply Hpath].
    apply (Hdead k (kill <$> bkt)); [|apply all_dead_kill].
    unfold t1. by apply list_lookup_insert_eq.
Qed.
(** ** Eviction *)

Lemma checkStash_upd o t st cs :
  checkStash (upd o t st cs)
  = (if StashLimit (cfg o) <? Z.of_nat (length st) then Err ErrStashOverflow else Ok tt,
     upd o t st cs).
Proof. unfold checkStash. cbn [cfg stash upd]. by destruct (_ <? _). Qed.

Lemma slots_ok_lookup o t k bkt :
  slots_ok o t → t !! k = Some bkt → Z.of_nat (length bkt) = bucketSize (storage o).
Proof. unfold slots_ok. rewrite Forall_lookup. eauto. Qed.

Lemma evictBucket_spec k o :
  let t := buckets (storage o) in
  content_ok t (stash o) → slots_ok o t →
  bucketSize (storage o) = BucketSize (cfg o) → numLeaves o = L →
  (k < length t)%nat →
  ∃ bkt' st' (m : bool),
    evictBucket (Z.of_nat k) o
      = (Ok tt, upd o (<[k := bkt']> t) st'
                  (CallRead (Z.of_nat k) :: if m then [CallWrite (Z.of_nat k)] else [])) ∧
    content_ok (<[k := bkt']> t) st' ∧ slots_ok o (<[k := bkt']> t) ∧
    ∀ bkt, t !! k = Some bkt → all_dead bkt →
           m = existsb (λ B, negb (ID B =? EmptyBlockID)) bkt'.
Proof.
  cbv zeta. intros Hc Hsl Hbs HL Hk.
  destruct (lookup_lt_is_Some_2 _ _ Hk) as [bkt Hbkt].
  pose proof (slots_ok_lookup _ _ _ _ Hsl Hbkt) as Hlen.
  unfold evictBucket.
  erewrite bind_Ok by (by apply readBucket_Ok).
  unfold gets at 1. unfold bind at 1. cbn [cfg upd].
  set (o1 := upd o (buckets (storage o)) (stash o) [CallRead (Z.of_nat k)]).
  destruct (evictSlots_spec (Z.of_nat k) (seq 0 (Z.to_nat (BucketSize (cfg o)))) bkt false o1)
    as (bkt' & m & st' & Hrun & Hmv & Hmod).
  { apply Forall_forall. intros s Hs. apply elem_of_seq in Hs. lia. }
  cbn [numLeaves stash o1 upd] in Hmv. rewrite HL in Hmv.
  erewrite bind_Ok by exact Hrun. unfold o1. rewrite set_stash_upd.
  pose proof (moves_shape _ _ _ _ Hmv) as Hsh. cbn [fst] in Hsh.
  apply Forall2_cons_1 in Hsh as [Hsh _].
  assert (content_ok (<[k := bkt']> (buckets (storage o))) st') as Hc'.
  { pose proof (moves_content c L pm mem (buckets (storage o)) [k] [bkt] (stash o)
                  [bkt'] st' Hmv) as Hmc.
    cbn [fmap list_fmap overlay] in Hmc. rewrite Nat2Z.id in Hmc.
    apply Hmc; [apply NoDup_singleton | done | by constructor |].
    by rewrite list_insert_id. }
  assert (slots_ok o (<[k := bkt']> (buckets (storage o)))) as Hsl'.
  { by eapply slots_ok_insert. }
  assert (∀ bkt0, buckets (storage o) !! k = Some bkt0 → all_dead bkt0 →
                  m = existsb (λ B, negb (ID B =? EmptyBlockID)) bkt') as Hm.
  { intros bkt0 Hbkt0 Hdead. rewrite Hbkt in Hbkt0. injection Hbkt0 as <-.
    destruct m.
    - symmetry. apply existsb_live.
      assert (Forall (λ b, b_id b ≠ EmptyBlockID) (stash o1)) as Hst.
      { cbn [stash o1 upd]. destruct Hc as (Hs & _).
        eapply Forall_impl; [exact Hs|]. intros b (Hid & _). unfold EmptyBlockID. lia. }
      assert (false = true → Exists live bkt) as Hf by done.
      exact (evictSlots_live _ _ _ _ _ _ _ Hst Hf Hrun eq_refl).
    - rewrite (Hmod eq_refl). symmetry. apply not_true_is_false.
      rewrite existsb_live, Exists_exists. intros (B & HB & Hl).
      unfold all_dead in Hdead. rewrite Forall_forall in Hdead. by apply Hl, Hdead. }
  exists bkt', st', m. split; [|done].
  cbn [snd fst]. destruct m.
  - erewrite writeBucket_Ok; [| exact Hbkt | cbn; lia | done]. by rewrite upd_upd.
  - rewrite (Hmod eq_refl), list_insert_id by done. done.
Qed.

Lemma evict_spec (pn : list nat) o :
  let t := buckets (storage o) in
  content_ok t (stash o) → slots_ok o t →
  bucketSize (storage o) = BucketSize (cfg o) → numLeaves o = L →
  Forall (λ k, (k < length t)%nat) pn →
  NoDup pn → (∀ k, k ∈ pn → ∃ bkt, t !! k = Some bkt ∧ all_dead bkt) →
  ∃ t',
    evict_post o (levelCalls (Z.of_nat <$> pn) (holds_block t' <$> (Z.of_nat <$> pn)))
      (evict (Z.of_nat <$> pn) o) ∧
    buckets (storage (evict (Z.of_nat <$> pn) o).2) = t'.
Proof.
  cbv zeta. intros Hc Hsl Hbs HL Hr Hnd Hdead.
  assert (∃ t' st',
    forM_ (Z.of_nat <$> pn) evictBucket o
      = (Ok tt, upd o t' st'
                  (levelCalls (Z.of_nat <$> pn) (holds_block t' <$> (Z.of_nat <$> pn)))) ∧
    content_ok t' st' ∧ slots_ok o t' ∧ length t' = length (buckets (storage o)) ∧
    ∀ k, k ∉ pn → t' !! k = buckets (storage o) !! k)
    as (t' & st' & Hrun & Hc' & Hsl' & Hlt & _).
  { clear -EncOK Hc Hsl Hbs HL Hr Hnd Hdead. revert o Hc Hsl Hbs HL Hr Hdead.
    induction pn as [|k pn IH]; intros o Hc Hsl Hbs HL Hr Hdead.
    { exists (buckets (storage o)), (stash o). simpl. unfold ret.
      by rewrite upd_id. }
    apply Forall_cons in Hr as [Hk Hr]. apply NoDup_cons in Hnd as [Hkn Hnd].
    destruct (evictBucket_spec k o) as (bkt' & st1 & m & Hrun1 & Hc1 & Hsl1 & Hm);
      try done.
    set (o1 := upd o (<[k := bkt']> (buckets (storage o))) st1
                 (CallRead (Z.of_nat k) :: if m then [CallWrite (Z.of_nat k)] else [])) in *.
    destruct (IH Hnd o1) as (t' & st' & Hrun & Hc' & Hsl' & Hlt & Hframe); try done.
    { cbn. eapply Forall_impl; [done|]. intros ? ?. by rewrite length_insert. }
    { intros k' Hk'. cbn. rewrite list_lookup_insert_ne by (by intros ->).
      apply Hdead. by apply list_elem_of_further. }
    exists t', st'.
    assert (holds_block t' (Z.of_nat k) = m) as Ehold.
    { destruct (Hdead k (list_elem_of_here _ _)) as (bkt & Hbkt & Hd).
      unfold holds_block. rewrite Nat2Z.id, (Hframe k Hkn). cbn.
      rewrite list_lookup_insert_eq by done. cbn. symmetry. by eapply Hm. }
    rewrite !fmap_cons. cbn [forM_]. erewrite bind_Ok by exact Hrun1.
    rewrite Hrun. unfold o1. rewrite upd_upd. rewrite Ehold.
    split; [done|]. split; [done|]. split; [done|].
    split; [cbn in Hlt; by rewrite length_insert in Hlt|].
    intros k' Hk'. apply not_elem_of_cons in Hk' as [Hne Hk'].
    rewrite (Hframe k' Hk'). cbn. by rewrite list_lookup_insert_ne. }
  exists t'.
  assert (evict (Z.of_nat <$> pn) o
          = (if StashLimit (cfg o) <? Z.of_nat (length st')
             then Err ErrStashOverflow else Ok tt,
             upd o t' st'
               (levelCalls (Z.of_nat <$> pn) (holds_block t' <$> (Z.of_nat <$> pn)))))
    as Hev.
  { unfold evict. erewrite bind_Ok by exact Hrun. by rewrite checkStash_upd. }
  split; [by exists t', st'|]. by rewrite Hev.
Qed.

(** Reading the buckets of the path into memory. *)
Lemma readAll_spec (pn : list nat) o :
  Forall (λ k, (k < length (buckets (storage o)))%nat) pn →
  ∃ bks,
    mapM (Z.of_nat <$> pn) readBucket o
      = (Ok bks, upd o (buckets (storage o)) (stash o) (CallRead <$> (Z.of_nat <$> pn))) ∧
    Forall2 (λ k bkt, buckets (storage o) !! k = Some bkt) pn bks.
Proof.
  revert o. induction pn as [|k pn IH]; intros o Hr.
  { exists []. simpl. unfold ret. by rewrite upd_id. }
  apply Forall_cons in Hr as [Hk Hr].
  destruct (lookup_lt_is_Some_2 _ _ Hk) as [bkt Hbkt].
  destruct (IH (upd o (buckets (storage o)) (stash o) [CallRead (Z.of_nat k)]))
    as (bks & Hrun & Hall); [done|].
  exists (bkt :: bks). rewrite !fmap_cons. cbn [mapM].
  erewrite bind_Ok by (by apply readBucket_Ok).
  erewrite bind_Ok by exact Hrun. unfold ret. rewrite upd_upd.
  split; [done|]. by constructor.
Qed.

(** Writing them back gives the overlay. *)
Lemma writeBack_spec (pn : list nat) bks o :
  NoDup pn → length bks = length pn →
  Forall (λ k, (k < length (buckets (storage o)))%nat) pn →
  slots_ok o (buckets (storage o)) → slots_ok o bks →
  writeBack (Z.of_nat <$> pn) bks o
  = (Ok tt, upd o (overlay (buckets (storage o)) (Z.of_nat <$> pn) bks) (stash o)
              (CallWrite <$> (Z.of_nat <$> pn))).
Proof.
  revert bks o. induction pn as [|k pn IH]; intros [|bkt bks] o Hnd Hlen Hr Hsl Hb;
    try done.
  { simpl. unfold ret. by rewrite upd_id. }
  apply NoDup_cons in Hnd as [Hnotin Hnd]. apply Forall_cons in Hr as [Hk Hr].
  apply Forall_cons in Hb as [Hbkt Hb].
  destruct (lookup_lt_is_Some_2 _ _ Hk) as [old Hold].
  pose proof (slots_ok_lookup _ _ _ _ Hsl Hold) as Hlo.
  rewrite !fmap_cons. cbn [writeBack overlay]. rewrite Nat2Z.id.
  erewrite bind_Ok by (apply (writeBucket_Ok o k bkt old); [done|done|lia]).
  rewrite IH; try done.
  - by rewrite upd_upd.
  - simpl in Hlen. lia.
  - cbn. eapply Forall_impl; [done|]. intros ? ?. by rewrite length_insert.
  - apply slots_ok_upd. cbn. eapply slots_ok_insert; [done..|]. lia.
Qed.

Lemma same_shape_slots o bks bks' :
  same_shape bks bks' → slots_ok o bks → slots_ok o bks'.
Proof.
  unfold slots_ok. induction 1 as [|a b bks bks' Hab _ IH]; [done|].
  intros H. apply Forall_cons in H as [Ha H]. constructor; [lia | by apply IH].
Qed.

Lemma overlay_slots o t (pn : list nat) bks :
  slots_ok o t → slots_ok o bks → slots_ok o (overlay t (Z.of_nat <$> pn) bks).
Proof.
  revert t bks. induction pn as [|k pn IH]; intros t [|bkt bks] Ht Hb; try done.
  apply Forall_cons in Hb as [Hbkt Hb]. rewrite fmap_cons. cbn [overlay].
  apply IH; [|done]. by apply Forall_insert.
Qed.

Lemma read_slots o t (pn : list nat) bks :
  slots_ok o t → Forall2 (λ k bkt, t !! k = Some bkt) pn bks → slots_ok o bks.
Proof.
  intros Ht. induction 1 as [|k bkt pn bks Hk _ IH]; [by apply Forall_nil|].
  apply Forall_cons. split; [|done]. exact (slots_ok_lookup _ _ _ _ Ht Hk).
Qed.

(** The common end of the two evictions that work on buckets in
    memory: moves, write-back, stash check. *)
Lemma batch_finish (pn : list nat) o bks bks' st' :
  let t := buckets (storage o) in
  content_ok t (stash o) → slots_ok o t → numLeaves o = L →
  NoDup pn → Forall (λ k, (k < length t)%nat) pn →
  Forall2 (λ k bkt, t !! k = Some bkt) pn bks →
  moves L (Z.of_nat <$> pn) (bks, stash o) (bks', st') →
  (writeBack (Z.of_nat <$> pn) bks' ;;; checkStash)
    (upd o t st' (CallRead <$> (Z.of_nat <$> pn)))
  = (if StashLimit (cfg o) <? Z.of_nat (length st')
     then Err ErrStashOverflow else Ok tt,
     upd o (overlay t (Z.of_nat <$> pn) bks') st' (batchCalls (Z.of_nat <$> pn))) ∧
  content_ok (overlay t (Z.of_nat <$> pn) bks') st' ∧
  slots_ok o (overlay t (Z.of_nat <$> pn) bks').
Proof.
  cbv zeta. intros Hc Hsl HL Hnd Hr Hread Hmv.
  pose proof (Forall2_length _ _ _ Hread) as Hlen.
  pose proof (moves_shape _ _ _ _ Hmv) as Hsh. cbn [fst] in Hsh.
  pose proof (read_slots _ _ _ _ Hsl Hread) as Hb.
  pose proof (same_shape_slots _ _ _ Hsh Hb) as Hb'.
  pose proof (Forall2_length _ _ _ Hsh) as Hlen'.
  split; [|split].
  - erewrite bind_Ok.
    2:{ apply writeBack_spec; try done; cbn; lia. }
    cbn [storage buckets stash upd]. rewrite upd_upd, checkStash_upd. done.
  - apply (moves_content c L pm mem (buckets (storage o)) pn bks (stash o) bks' st'
             Hmv Hnd); [lia | done |].
    by rewrite overlay_read.
  - by apply overlay_slots.
Qed.

Lemma evictGreedyByDepth_spec (pn : list nat) o :
  let t := buckets (storage o) in
  content_ok t (stash o) → slots_ok o t → numLeaves o = L →
  NoDup pn → Forall (λ k, (k < length t)%nat) pn →
  evict_post o (batchCalls (Z.of_nat <$> pn)) (evictGreedyByDepth (Z.of_nat <$> pn) o).
Proof.
  cbv zeta. intros Hc Hsl HL Hnd Hr.
  destruct (readAll_spec pn o Hr) as (bks & Hread & Hall).
  pose proof (Forall2_length _ _ _ Hall) as Hlen.
  unfold evictGreedyByDepth. erewrite bind_Ok by exact Hread.
  unfold gets at 1. unfold bind at 1. cbn [stash upd].
  set (o1 := upd o (buckets (storage o)) (stash o) (CallRead <$> (Z.of_nat <$> pn))).
  destruct (greedyLoop_spec (Z.of_nat <$> pn) (length (stash o)) 0 bks o1)
    as (bks' & st' & Hrun & Hmv); [by rewrite length_fmap|].
  cbn [numLeaves stash o1 upd] in Hmv. rewrite HL in Hmv.
  erewrite bind_Ok by exact Hrun. unfold o1. rewrite set_stash_upd.
  destruct (batch_finish pn o bks bks' st') as (Hfin & Hc' & Hsl'); try done.
  rewrite Hfin. exists (overlay (buckets (storage o)) (Z.of_nat <$> pn) bks'), st'.
  split; [done|]. split; [done|]. split; [done|]. by rewrite overlay_length.
Qed.
Lemma tree_fits t (pn : list nat) bks :
  tree_ok c L pm mem t → NumBlocks c ≤ 2 ^ 32 - 1 →
  Forall2 (λ k bkt, t !! k = Some bkt) pn bks →
  Forall (Forall (λ B, id_fits (ID B))) bks.
Proof.
  intros Ht HN.
  induction 1 as [|k bkt pn bks Hk _ IH]; constructor; [|done].
  pose proof (Ht k bkt Hk) as Hb. eapply Forall_impl; [exact Hb|].
  intros B HB. unfold id_fits. destruct (decide (live B)) as [Hl|Hl].
  - destruct (HB Hl) as (_ & p & _ & Hg). unfold good in Hg. lia.
  - unfold live in Hl. destruct (decide (ID B = EmptyBlockID)) as [->|]; [|done].
    unfold EmptyBlockID. lia.
Qed.

Lemma evictConstantTime_spec (pn : list nat) o d :
  let t := buckets (storage o) in
  content_ok t (stash o) → slots_ok o t →
  numLeaves o = L → L = pow2 d → height o = Z.of_nat (S d) →
  (d < 32)%nat → NumBlocks c ≤ 2 ^ 32 - 1 →
  NoDup pn → Forall (λ k, (k < length t)%nat) pn →
  Z.of_nat (length t) ≤ 2 ^ 32 →
  evict_post o (batchCalls (Z.of_nat <$> pn)) (evictConstantTime (Z.of_nat <$> pn) o).
Proof.
  cbv zeta. intros Hc Hsl HL HLd Hh Hd HN Hnd Hr Hsize.
  destruct (readAll_spec pn o Hr) as (bks & Hread & Hall).
  pose proof (Forall2_length _ _ _ Hall) as Hlen.
  unfold evictConstantTime. erewrite bind_Ok by exact Hread.
  set (o1 := upd o (buckets (storage o)) (stash o) (CallRead <$> (Z.of_nat <$> pn))).
  destruct (ctStash_spec d (Z.of_nat <$> pn) (stash o) bks []) as (bks' & st' & Hrun & Hmv).
  { done. }
  { apply Forall_fmap, Forall_forall. intros k Hk. simpl.
    rewrite Forall_forall in Hr. apply Hr in Hk. lia. }
  { destruct Hc as (Hs & _). eapply Forall_impl; [exact Hs|].
    intros b Hg. unfold good in Hg. lia. }
  { destruct Hc as (_ & Ht & _). by eapply tree_fits. }
  { by rewrite length_fmap. }
  rewrite <- HLd in Hmv. simpl in Hrun.
  unfold bind at 1. cbn [height numLeaves stash o1 upd]. rewrite Hh, HL, HLd, Hrun.
  unfold modify at 1. unfold bind at 1. cbn [snd fst]. unfold o1. rewrite set_stash_upd.
  destruct (batch_finish pn o bks bks' st') as (Hfin & Hc' & Hsl'); try done.
  rewrite Hfin. exists (overlay (buckets (storage o)) (Z.of_nat <$> pn) bks'), st'.
  split; [done|]. split; [by rewrite <- HLd|]. split; [done|]. by rewrite overlay_length.
Qed.

Section Random.
Variable rand_Reader : nat → Z.

Lemma randomLeaf_spec o :
  0 < numLeaves o →
  randomLeaf rand_Reader o
  = (Ok (rand_Reader (drawn o) `mod` numLeaves o), set_drawn (S (drawn o)) o).
Proof.
  intros H. unfold randomLeaf. destruct (numLeaves o <=? 0) eqn:E; [|done].
  apply Z.leb_le in E. lia.
Qed.

Lemma pathOf_spec o l :
  0 ≤ height o → pathOf l o = (Ok (Path (height o) (numLeaves o) l), o).
Proof.
  intros H. unfold pathOf. destruct (height o <? 0) eqn:E; [|done].
  apply Z.ltb_lt in E. lia.
Qed.

Lemma evict_post_frame o n t st cs cs' res :
  evict_post (upd (set_drawn n o) t st cs) cs' res →
  length t = length (buckets (storage o)) →
  evict_post (set_drawn n o) (cs ++ cs') res.
Proof.
  intros (t' & st' & -> & Hc & Hsl & Hlen) Hlt. exists t', st'.
  rewrite upd_upd. cbn in *. split; [done|]. split; [done|]. split; [done|]. lia.
Qed.

(** The dispatch of [evictWithStrategy]. *)
Lemma evictWithStrategy_spec (pn : list nat) o d :
  let t := buckets (storage o) in
  content_ok t (stash o) → slots_ok o t →
  bucketSize (storage o) = BucketSize (cfg o) →
  numLeaves o = L → L = pow2 d → height o = Z.of_nat (S d) →
  Z.of_nat (length t) = pow2 (S d) - 1 →
  ConstantTime (cfg o) = false →
  NoDup pn → Forall (λ k, (k < length t)%nat) pn →
  (∀ k, k ∈ pn → ∃ bkt, t !! k = Some bkt ∧ all_dead bkt) →
  ∃ n cs,
    evict_post (set_drawn n o) cs (evictWithStrategy rand_Reader (Z.of_nat <$> pn) o) ∧
    eviction_calls o (Z.of_nat <$> pn) cs ∧ (drawn o ≤ n)%nat ∧
    cs = eviction_trace rand_Reader o
           (buckets (storage (evictWithStrategy rand_Reader (Z.of_nat <$> pn) o).2))
           (Z.of_nat <$> pn).
Proof.
  cbv zeta. intros Hc Hsl Hbs HL HLd Hh Hsize Hct Hnd Hr Hdead.
  unfold eviction_trace. rewrite Hct.
  set (fin := buckets (storage (evictWithStrategy rand_Reader (Z.of_nat <$> pn) o).2)).
  set (gs := stash (evictGreedyByDepth (Z.of_nat <$> pn) o).2).
  unfold evictWithStrategy. unfold gets at 1. unfold bind at 1.
  destruct (Strategy (cfg o)) eqn:Es.
  - (* level by level *)
    destruct (evict_spec pn o) as (t' & Hp & Et); try done.
    assert (evictWithStrategy rand_Reader (Z.of_nat <$> pn) o = evict (Z.of_nat <$> pn) o)
      as Ew.
    { unfold evictWithStrategy. unfold gets at 1. unfold bind at 1. by rewrite Es. }
    exists (drawn o), (levelCalls (Z.of_nat <$> pn) (holds_block t' <$> (Z.of_nat <$> pn))).
    replace (set_drawn (drawn o) o) with o by (by destruct o).
    split; [done|]. split; [|split; [done|unfold fin; by rewrite Ew, Et]].
    apply ec_level; try done. by rewrite !length_fmap.
  - (* greedy *)
    exists (drawn o), (batchCalls (Z.of_nat <$> pn)).
    replace (set_drawn (drawn o) o) with o by (by destruct o).
    split; [by apply evictGreedyByDepth_spec | split; [by apply ec_greedy|done]].
  - (* two paths *)
    destruct (evictGreedyByDepth_spec pn o) as (t1 & st1 & Hrun1 & Hc1 & Hsl1 & Hlen1);
      try done.
    assert (gs = st1) as -> by (unfold gs; by rewrite Hrun1).
    destruct (StashLimit (cfg o) <? Z.of_nat (length st1)) eqn:Eov.
    { (* the first round overflows *)
      exists (drawn o), (batchCalls (Z.of_nat <$> pn)).
      replace (set_drawn (drawn o) o) with o by (by destruct o).
      split; [|split; [by apply ec_two_short|split; [done|by rewrite app_nil_r]]].
      erewrite bind_Err by exact Hrun1. exists t1, st1. by rewrite Eov. }
    erewrite bind_Ok by exact Hrun1.
    set (o1 := upd o t1 st1 (batchCalls (Z.of_nat <$> pn))).
    pose proof (pow2_pos d) as Hpos.
    erewrite bind_Ok by (apply randomLeaf_spec; cbn; lia).
    cbn [numLeaves drawn o1 upd]. rewrite HL, HLd.
    set (l2 := rand_Reader (drawn o) `mod` pow2 d).
    assert (0 ≤ l2 < pow2 d) as Hl2 by (apply Z.mod_pos_bound; lia).
    erewrite bind_Ok by (apply pathOf_spec; cbn; lia).
    replace (height (set_drawn (S (drawn o)) o1)) with (Z.of_nat (S d)) by (by rewrite <- Hh).
    replace (numLeaves (set_drawn (S (drawn o)) o1)) with (pow2 d)
      by (by rewrite <- HLd, <- HL).
    rewrite Hh.
    destruct (Path_nat d l2 Hl2) as (pn2 & Hp2 & Hnd2 & Hr2 & _). rewrite Hp2.
    set (o2 := set_drawn (S (drawn o)) o1).
    assert (Forall (λ k, (k < length t1)%nat) pn2) as Hr2'.
    { eapply Forall_impl; [exact Hr2|]. intros k Hk. simpl in Hk. lia. }
    destruct (readPathIntoStash_spec pn2 o2)
      as (t2 & bl & Hrun2 & Hc2 & Hsl2 & Hlen2 & _); try done.
    erewrite bind_Ok by exact Hrun2.
    cbn [o2 o1 stash storage buckets upd set_drawn] in *.
    set (o3 := upd _ t2 (st1 ++ bl) (drainCalls (Z.of_nat <$> pn2))).
    pose proof (evictGreedyByDepth_spec pn2 o3) as Hp3.
    cbn [o3 stash storage buckets numLeaves upd set_drawn] in Hp3.
    specialize (Hp3 Hc2 Hsl2 HL Hnd2).
    exists (S (drawn o)), (batchCalls (Z.of_nat <$> pn)
                           ++ drainCalls (Z.of_nat <$> pn2) ++ batchCalls (Z.of_nat <$> pn2)).
    split.
    + rewrite <- HLd.
      apply (evict_post_frame o (S (drawn o)) t1 st1); [|done].
      apply (evict_post_frame (upd o t1 st1 _) (S (drawn o)) t2 (st1 ++ bl)); [|cbn; lia].
      apply Hp3. eapply Forall_impl; [exact Hr2'|]. intros k Hk. simpl in Hk. lia.
    + split; [|split; [lia|done]]. rewrite <- Hp2, <- HLd, <- HL. rewrite <- Hh.
      apply ec_two; try done. lia.
Qed.
End Random.
End Methods.


(** * The access protocol *)

Lemma zeros_length n : 0 ≤ n → Z.of_nat (length (zeros n)) = n.
Proof. intros. unfold zeros. rewrite length_replicate. lia. Qed.

Lemma go_copy_same dst src : length dst = length src → go_copy dst src = src.
Proof.
  intros H. unfold go_copy. rewrite take_ge by lia. rewrite drop_ge by lia.
  by rewrite app_nil_r.
Qed.

(** ** Finding the block in the stash *)

Section Find.
Variables (B : Z) (id : Z).

Lemma findInStash_notin i0 st :
  id ∉ b_id <$> st → findInStash_loop B i0 st id = (-1, None).
Proof.
  revert i0. induction st as [|b st IH]; intros i0 Hn; [done|].
  rewrite fmap_cons in Hn. apply not_elem_of_cons in Hn as [Hne Hn].
  cbn [findInStash_loop]. destruct (b_id b =? id) eqn:E; [apply Z.eqb_eq in E; done|].
  by apply IH.
Qed.

Lemma findInStash_in i0 st i b :
  NoDup (b_id <$> st) → st !! i = Some b → b_id b = id →
  findInStash_loop B i0 st id
  = (i0 + Z.of_nat i, Some (go_copy (zeros B) (b_data b))).
Proof.
  revert i0 i. induction st as [|b0 st IH]; intros i0 i Hnd Hi Hid; [done|].
  rewrite fmap_cons in Hnd. apply NoDup_cons in Hnd as [Hnotin Hnd].
  cbn [findInStash_loop]. destruct i as [|i]; simpl in Hi.
  - injection Hi as ->. rewrite Hid, Z.eqb_refl. f_equal. lia.
  - destruct (b_id b0 =? id) eqn:E.
    + apply Z.eqb_eq in E. exfalso. apply Hnotin. rewrite E, <- Hid.
      apply list_elem_of_fmap_2. by eapply list_elem_of_lookup_2.
    + rewrite (IH (i0 + 1) i) by done. f_equal. lia.
Qed.

Lemma findCT_notin i0 st fi acc :
  0 ≤ id < 2 ^ 32 - 1 → ct_stash_ok (length acc) st →
  id ∉ b_id <$> st →
  findInStashConstantTime_loop i0 st id fi acc = Ok (fi, acc).
Proof.
  intros Hid Hok. revert i0. induction Hok as [|b st [Hb Hlen] _ IH]; intros i0 Hn; [done|].
  rewrite fmap_cons in Hn. apply not_elem_of_cons in Hn as [Hne Hn].
  cbn [findInStashConstantTime_loop]. unfold ConstantTimeEq.
  destruct (int32 (b_id b) =? int32 id) eqn:E.
  { apply Z.eqb_eq in E. apply int32_inj in E; [done|lia|lia]. }
  unfold ConstantTimeSelect, ConstantTimeCopy. rewrite Hlen, Nat.eqb_refl. simpl.
  by apply IH.
Qed.

Lemma findCT_in i0 st fi acc i b :
  0 ≤ id < 2 ^ 32 - 1 → ct_stash_ok (length acc) st →
  NoDup (b_id <$> st) → st !! i = Some b → b_id b = id →
  findInStashConstantTime_loop i0 st id fi acc = Ok (i0 + Z.of_nat i, b_data b).
Proof.
  intros Hid Hok. revert i0 i fi acc Hok.
  induction st as [|b0 st IH]; intros i0 i fi acc Hok Hnd Hi Hb; [done|].
  apply Forall_cons in Hok as [[Hb0 Hlen] Hok].
  rewrite fmap_cons in Hnd. apply NoDup_cons in Hnd as [Hnotin Hnd].
  cbn [findInStashConstantTime_loop]. unfold ConstantTimeEq.
  unfold ConstantTimeSelect, ConstantTimeCopy. rewrite Hlen, Nat.eqb_refl. cbn [negb].
  destruct i as [|i]; simpl in Hi.
  - injection Hi as ->. rewrite Hb, Z.eqb_refl. change (1 =? 1) with true. cbv iota.
    rewrite findCT_notin; [f_equal; f_equal; lia | done | | by rewrite <- Hb].
    by rewrite Hlen.
  - destruct (int32 (b_id b0) =? int32 id) eqn:E.
    { apply Z.eqb_eq in E. apply int32_inj in E; [|lia|lia].
      exfalso. apply Hnotin. rewrite E, <- Hb.
      apply list_elem_of_fmap_2. by eapply list_elem_of_lookup_2. }
    change (0 =? 1) with false. cbv iota.
    rewrite (IH (i0 + 1) i fi acc) by done. f_equal. f_equal. lia.
Qed.
End Find.

(** ** Serving the block *)

Section Serve.
Context {Enc : Encryptor}.
Variables (c : Config) (L : Z) (pm : gmap Z Z) (mem : gmap Z bytes).
Variables (id l' : Z) (new : bytes).
Hypothesis Hid : 0 ≤ id < NumBlocks c.
Hypothesis Hl' : 0 ≤ l' < L.
Hypothesis Hnew : Z.of_nat (length new) = BlockSize c.

Local Abbreviation pm' := (<[id := l']> pm).
Local Abbreviation mem' := (<[id := new]> mem).

Lemma good_other i l p :
  i ≠ id → good c L pm mem i l p → good c L pm' mem' i l p.
Proof.
  intros Hne (? & ? & ? & ? & ?). unfold good.
  by rewrite !lookup_insert_ne by done.
Qed.

Lemma good_self : good c L pm' mem' id l' new.
Proof. unfold good. by rewrite !lookup_insert_eq. Qed.

Lemma tree_ok_other t :
  tree_ok c L pm mem t → id ∉ tree_ids t → tree_ok c L pm' mem' t.
Proof.
  intros Ht Hn k bkt Hk. pose proof (Ht k bkt Hk) as Hb.
  rewrite Forall_forall in Hb. apply Forall_forall. intros B HB Hl.
  destruct (Hb B HB Hl) as (Hcan & p & Hd & Hg). split; [done|].
  exists p. split; [done|]. apply good_other; [|done].
  intros E. apply Hn. apply tree_ids_elem. by exists k, bkt, B.
Qed.

Lemma stash_ok_other st :
  stash_ok c L pm mem st → id ∉ b_id <$> st → stash_ok c L pm' mem' st.
Proof.
  intros Hs Hn. unfold stash_ok in *. rewrite Forall_forall in Hs.
  apply Forall_forall. intros b Hb. apply good_other; [|by apply Hs].
  intros E. apply Hn. rewrite <- E. by apply list_elem_of_fmap_2.
Qed.

Lemma dom_step t st st' :
  (∀ i, is_Some (pm !! i) → i ∈ all_ids t st) →
  (∀ i, i ∈ all_ids t st → i ∈ all_ids t st') → id ∈ all_ids t st' →
  ∀ i, is_Some (pm' !! i) → i ∈ all_ids t st'.
Proof.
  intros Hdom Hsub Hin i Hi. destruct (decide (i = id)) as [->|Hne]; [done|].
  rewrite lookup_insert_ne in Hi by done. auto.
Qed.

(** The block was not held: a new block joins the stash. *)
Lemma content_serve_new t st :
  content_ok c L pm mem t st → pm !! id = None →
  content_ok c L pm' mem' t (st ++ [mkblock id l' new]).
Proof.
  intros (Hs & Ht & Hnd & Hdom) Hnone.
  assert (id ∉ all_ids t st) as Hnotin.
  { intros Hin. unfold all_ids in Hin. apply elem_of_app in Hin as [Hin|Hin].
    - apply list_elem_of_fmap in Hin as (b & E & Hb).
      unfold stash_ok in Hs. rewrite Forall_forall in Hs.
      destruct (Hs b Hb) as (_ & Hpm & _). rewrite <- E in Hpm. congruence.
    - apply tree_ids_elem in Hin as (k & bkt & B & Hk & HB & Hl & E).
      pose proof (Ht k bkt Hk) as Hb. rewrite Forall_forall in Hb.
      destruct (Hb B HB Hl) as (_ & p & _ & _ & Hpm & _). rewrite E in Hpm. congruence. }
  unfold all_ids in Hnotin. apply not_elem_of_app in Hnotin as [Hn1 Hn2].
  assert (all_ids t (st ++ [mkblock id l' new]) ≡ₚ id :: all_ids t st) as Hp.
  { unfold all_ids. rewrite fmap_app. simpl. rewrite <- app_assoc. simpl.
    symmetry. apply Permutation_middle. }
  split; [|split; [|split]].
  - apply Forall_app_2; [by apply stash_ok_other|]. constructor; [|constructor].
    apply good_self.
  - by apply tree_ok_other.
  - rewrite Hp. apply NoDup_cons. split; [|done].
    unfold all_ids. rewrite elem_of_app. tauto.
  - apply (dom_step t st); [done| |].
    + intros i Hi. rewrite Hp. by right.
    + rewrite Hp. by left.
Qed.

(** The block was in the stash at [i]: it gets the new leaf and, for
    a write, the new payload. *)
Lemma content_serve_found t st i b :
  content_ok c L pm mem t st → st !! i = Some b → b_id b = id →
  content_ok c L pm' mem' t (<[i := mkblock (b_id b) l' new]> st).
Proof.
  intros (Hs & Ht & Hnd & Hdom) Hi Hb.
  assert (all_ids t (<[i := mkblock (b_id b) l' new]> st) = all_ids t st) as Hids.
  { unfold all_ids. f_equal. rewrite list_fmap_insert. simpl.
    apply list_insert_id. by rewrite list_lookup_fmap, Hi. }
  pose proof (delete_Permutation st i b Hi) as Hperm.
  assert (NoDup (b_id b :: (b_id <$> delete i st) ++ tree_ids t)) as Hnd'.
  { unfold all_ids in Hnd. rewrite Hperm in Hnd. by rewrite fmap_cons in Hnd. }
  apply NoDup_cons in Hnd' as [Hnotin _]. rewrite Hb in Hnotin.
  apply not_elem_of_app in Hnotin as [Hn1 Hn2].
  split; [|split; [|split]].
  - unfold stash_ok. rewrite insert_take_drop by (by eapply lookup_lt_Some).
    assert (stash_ok c L pm' mem' (delete i st)) as Hrest.
    { apply stash_ok_other; [by apply Forall_delete | done]. }
    unfold stash_ok in Hrest. rewrite delete_take_drop in Hrest.
    apply Forall_app in Hrest as [H1 H2].
    apply Forall_app_2; [done|]. constructor; [|done]. simpl. rewrite Hb. apply good_self.
  - by apply tree_ok_other.
  - by rewrite Hids.
  - apply (dom_step t st); [done|by rewrite Hids|].
    rewrite Hids. unfold all_ids. apply elem_of_app. left. rewrite <- Hb.
    apply list_elem_of_fmap_2. by eapply list_elem_of_lookup_2.
Qed.
End Serve.

Section Access.
Context {Enc : Encryptor} {EncOK : EncryptorCorrect Enc}.
Variable rand_Reader : nat → Z.

Lemma bind_assoc {A B C} (m : M A) (f : A → M B) (g : B → M C) o :
  bind (bind m f) g o = bind m (λ x, bind (f x) g) o.
Proof. unfold bind. by destruct (m o) as [[a|e|] o']. Qed.

Lemma bind_ext {A B} (m : M A) (f g : A → M B) o :
  (∀ a o', f a o' = g a o') → bind m f o = bind m g o.
Proof. intros H. unfold bind. by destruct (m o) as [[a|e|] o']. Qed.

Lemma bind_ret {A B} (a : A) (f : A → M B) o : bind (ret a) f o = f a o.
Proof. done. Qed.

(** [access] is [serve] followed by the eviction step. *)
Lemma access_split blockID newData o :
  access rand_Reader blockID newData o
  = (r <- serve rand_Reader blockID newData ;; evictStep rand_Reader r) o.
Proof.
  unfold access, serve.
  repeat (rewrite bind_assoc; apply bind_ext; intros ? ?).
  rewrite bind_ret. done.
Qed.
Lemma content_leaf_range c L pm mem t st i l :
  content_ok c L pm mem t st → pm !! i = Some l → 0 ≤ l < L.
Proof.
  intros (Hs & Ht & _ & Hdom) Hi.
  specialize (Hdom i ltac:(by rewrite Hi)). unfold all_ids in Hdom.
  apply elem_of_app in Hdom as [Hin|Hin].
  - apply list_elem_of_fmap in Hin as (b & E & Hb).
    unfold stash_ok in Hs. rewrite Forall_forall in Hs.
    destruct (Hs b Hb) as (_ & Hpm & Hl & _). rewrite <- E in Hpm. congruence.
  - apply tree_ids_elem in Hin as (k & bkt & B & Hk & HB & Hl & E).
    pose proof (Ht k bkt Hk) as Hb. rewrite Forall_forall in Hb.
    destruct (Hb B HB Hl) as (_ & p & _ & _ & Hpm & Hr & _). rewrite E in Hpm. congruence.
Qed.

(** After the path of its leaf was drained, a block the position map
    knows is in the stash. *)
Lemma target_in_stash c L pm mem t st (pn : list nat) i l :
  content_ok c L pm mem t st → pm !! i = Some l →
  (∀ k, canPlaceAt L l (Z.of_nat k) = true ↔ k ∈ pn) →
  (∀ k, k ∈ pn → ∃ bkt, t !! k = Some bkt ∧ all_dead bkt) →
  ∃ n b, st !! n = Some b ∧ b_id b = i.
Proof.
  intros (Hs & Ht & _ & Hdom) Hi Hcan Hdead.
  specialize (Hdom i ltac:(by rewrite Hi)). unfold all_ids in Hdom.
  apply elem_of_app in Hdom as [Hin|Hin].
  - apply list_elem_of_fmap in Hin as (b & E & Hb).
    apply list_elem_of_lookup in Hb as [n Hn]. by exists n, b.
  - exfalso. apply tree_ids_elem in Hin as (k & bkt & B & Hk & HB & Hl & E).
    pose proof (Ht k bkt Hk) as Hb. rewrite Forall_forall in Hb.
    destruct (Hb B HB Hl) as (HcanB & p & _ & _ & Hpm & _).
    rewrite E, Hi in Hpm. assert (Leaf B = l) as EL by congruence.
    rewrite EL in HcanB. apply Hcan in HcanB. destruct (Hdead k HcanB) as (bkt' & Hk' & Hd).
    rewrite Hk in Hk'. injection Hk' as <-.
    unfold all_dead in Hd. rewrite Forall_forall in Hd. by apply Hd in HB.
Qed.

Lemma stash_ct_ok c L pm mem st :
  stash_ok c L pm mem st → NumBlocks c ≤ 2 ^ 32 - 1 → 0 ≤ BlockSize c →
  ct_stash_ok (length (zeros (BlockSize c))) st.
Proof.
  intros Hs HN HB. eapply Forall_impl; [exact Hs|].
  intros b (? & _ & _ & _ & Hlen). pose proof (zeros_length _ HB). split; lia.
Qed.

Lemma serveFound_spec o blockID i b nl newData :
  posMap o !! blockID = Some nl → stash o !! i = Some b →
  serveFound blockID (Z.of_nat i) newData o
  = (Ok (),
     set_stash (<[i := mkblock (b_id b) nl
                        match newData with
                        | Some dd => go_copy (b_data b) dd
                        | None => b_data b
                        end]> (stash o)) o).
Proof.
  intros Hpm Hi. unfold serveFound, posMapGet, gets, bind. rewrite Hpm. cbn [fst snd].
  destruct (Z.of_nat i <? 0) eqn:E0; [apply Z.ltb_lt in E0; lia|].
  by rewrite Nat2Z.id, Hi.
Qed.

Lemma serveNew_spec o blockID nl newData :
  posMap o !! blockID = Some nl →
  serveNew blockID newData o
  = (Ok (zeros (BlockSize (cfg o))),
     set_stash (stash o ++ [mkblock blockID nl
                              match newData with
                              | Some dd => go_copy (zeros (BlockSize (cfg o))) dd
                              | None => zeros (BlockSize (cfg o))
                              end]) o).
Proof.
  intros Hpm. unfold serveNew, posMapGet, appendStash, modify, gets, bind, ret.
  rewrite Hpm. by destruct o.
Qed.

(** Steps 1 to 5. *)
Lemma serve_spec o mem d blockID newData :
  shape_ok o d →
  content_ok (cfg o) (numLeaves o) (posMap o) mem (buckets (storage o)) (stash o) →
  (∀ i, is_Some (mem !! i) → is_Some (posMap o !! i)) →
  ct_fits o →
  0 ≤ blockID < NumBlocks (cfg o) →
  (∀ dd, newData = Some dd → Z.of_nat (length dd) = BlockSize (cfg o)) →
  let l := read_leaf rand_Reader o blockID in
  let l' := fresh_leaf rand_Reader o blockID in
  let pm' := <[blockID := l']> (posMap o) in
  let prev := payload (cfg o) mem blockID in
  let new := default prev newData in
  ∃ (pn : list nat) t1 st2,
    serve rand_Reader blockID newData o
    = (Ok (Z.of_nat <$> pn, ConstantTime (cfg o), Some prev),
       upd (set_posMap pm' (set_drawn (drawn_after o blockID) o)) t1 st2
         (drainCalls (Z.of_nat <$> pn))) ∧
    Z.of_nat <$> pn = Path (height o) (numLeaves o) l ∧
    0 ≤ l < numLeaves o ∧ 0 ≤ l' < numLeaves o ∧
    NoDup pn ∧ Forall (λ k, (k < length (buckets (storage o)))%nat) pn ∧
    content_ok (cfg o) (numLeaves o) pm' (mem_after (cfg o) mem blockID newData) t1 st2 ∧
    slots_ok o t1 ∧ length t1 = length (buckets (storage o)) ∧
    mkblock blockID l' new ∈ st2 ∧
    ∀ k, k ∈ pn → ∃ bkt, t1 !! k = Some bkt ∧ all_dead bkt.
Proof.
  intros Hsh Hc Hmem Hfit Hid Hdata. cbv zeta.
  destruct Hsh as [Hh HL Hbk Hbs Hslots HB].
  pose proof (pow2_pos d) as Hpos.
  assert (slots_ok o (buckets (storage o))) as Hsl by (unfold slots_ok; by rewrite Hbs).
  set (l := read_leaf rand_Reader o blockID).
  set (l' := fresh_leaf rand_Reader o blockID).
  set (n := drawn_after o blockID).
  set (o2 := set_posMap (<[blockID := l']> (posMap o)) (set_drawn n o)).
  (* steps 1 and 2 *)
  assert (0 ≤ l < numLeaves o ∧ 0 ≤ l' < numLeaves o ∧
          ∀ {A} (k : Z → M A),
            (l0 <- posMapGet blockID ;;
             l <- (if l0.2 then ret l0.1 else randomLeaf rand_Reader) ;;
             l' <- randomLeaf rand_Reader ;;
             posMapSet blockID l' ;;; k l) o = k l o2) as (Hl & Hl' & Hstep12).
  { unfold o2, l, l', n, read_leaf, fresh_leaf, drawn_after, posMapGet, posMapSet.
    destruct (posMap o !! blockID) as [lo|] eqn:Epm.
    - split; [by eapply content_leaf_range|]. split; [apply Z.mod_pos_bound; lia|].
      intros A k. unfold gets at 1. unfold bind at 1. rewrite Epm. cbn [snd fst].
      rewrite bind_ret. erewrite bind_Ok by (apply randomLeaf_spec; lia).
      done.
    - split; [apply Z.mod_pos_bound; lia|]. split; [apply Z.mod_pos_bound; lia|].
      intros A k. unfold gets at 1. unfold bind at 1. rewrite Epm. cbn [snd fst].
      erewrite bind_Ok by (apply randomLeaf_spec; lia).
      erewrite bind_Ok by (apply randomLeaf_spec; cbn; lia).
      done. }
  unfold serve. rewrite Hstep12. clear Hstep12.
  (* step 3 *)
  erewrite bind_Ok by (apply pathOf_spec; cbn; lia).
  cbn [height numLeaves o2 set_posMap set_drawn].
  rewrite HL in Hl, Hl'.
  destruct (Path_nat d l Hl) as (pn & Hp & Hnd & Hr & Hcan).
  rewrite Hh, HL, Hp.
  assert (Forall (λ k, (k < length (buckets (storage o)))%nat) pn) as Hr'.
  { eapply Forall_impl; [exact Hr|]. intros k Hk. simpl in Hk. lia. }
  destruct (readPathIntoStash_spec (cfg o) (pow2 d) (posMap o) mem pn o2)
    as (t1 & bl & Hrun & Hc1 & Hsl1 & Hlen1 & _ & Hdead); try done.
  { by rewrite <- HL. }
  erewrite bind_Ok by exact Hrun. cbn [stash o2 set_posMap set_drawn] in *.
  set (st1 := stash o ++ bl) in *.
  set (o3 := upd _ t1 st1 _).
  unfold gets at 1. unfold bind at 1. cbn [cfg o3 upd set_posMap set_drawn].
  pose proof Hc1 as (Hs1 & Ht1 & Hnd1 & Hdom1).
  assert (NoDup (b_id <$> st1)) as Hnds.
  { unfold all_ids in Hnd1. by apply NoDup_app in Hnd1 as (? & _). }
  set (prev := payload (cfg o) mem blockID).
  set (new := default prev newData).
  assert (Z.of_nat (length new) = BlockSize (cfg o) →
          content_ok (cfg o) (pow2 d) (<[blockID := l']> (posMap o))
            (mem_after (cfg o) mem blockID newData) t1
            (st1 ++ [mkblock blockID l' new]) ∨ True) as _ by auto.
  exists pn, t1.
  destruct (posMap o !! blockID) as [lo|] eqn:Epm.
  - (* the block is known: it is in the stash by now *)
    assert (l = lo) as El by (unfold l, read_leaf; by rewrite Epm).
    destruct (target_in_stash _ _ _ _ _ _ pn blockID lo Hc1 Epm) as (i & b & Hi & Hb).
    { by rewrite <- El. }
    { done. }
    assert (good (cfg o) (pow2 d) (posMap o) mem (b_id b) (b_leaf b) (b_data b)) as Hg.
    { unfold stash_ok in Hs1. rewrite Forall_lookup in Hs1. by eapply Hs1. }
    destruct Hg as (_ & _ & _ & Hmb & Hlenb). rewrite Hb in Hmb.
    assert (prev = b_data b) as Eprev by (unfold prev, payload; by rewrite Hmb).
    assert (go_copy (zeros (BlockSize (cfg o))) (b_data b) = b_data b) as Ecopy.
    { apply go_copy_same. pose proof (zeros_length (BlockSize (cfg o)) ltac:(lia)). lia. }
    assert ((if ConstantTime (cfg o)
             then findInStashConstantTime blockID else findInStash blockID) o3
            = (Ok (Z.of_nat i, Some (b_data b)), o3)) as Hfind.
    { destruct (ConstantTime (cfg o)) eqn:Ect.
      - destruct (Hfit Ect) as [HN _].
        unfold findInStashConstantTime. cbn [stash cfg o3 upd set_posMap set_drawn]. change (cfg o2) with (cfg o).
        rewrite (findCT_in blockID 0 st1 (-1) _ i b); try done; [lia|].
        apply (stash_ct_ok (cfg o) (pow2 d) (posMap o) mem); [done|done|lia].
      - unfold findInStash, gets. cbn [stash cfg o3 upd set_posMap set_drawn]. change (cfg o2) with (cfg o).
        rewrite (findInStash_in _ blockID 0 st1 i b) by done. by rewrite Ecopy. }
    erewrite bind_Ok by exact Hfind. cbn [fst snd].
    assert ((Z.of_nat i =? -1) = false) as -> by (apply Z.eqb_neq; lia).
    assert (new = match newData with
                  | Some dd => go_copy (b_data b) dd
                  | None => b_data b
                  end) as Enew.
    { unfold new. destruct newData as [dd|]; simpl; [|done].
      symmetry. apply go_copy_same. specialize (Hdata dd eq_refl). lia. }
    exists (<[i := mkblock (b_id b) l' new]> st1). split.
    { erewrite bind_Ok
        by (erewrite bind_Ok
              by (apply (serveFound_spec o3 blockID i b l'); [apply lookup_insert_eq|exact Hi]);
            reflexivity).
      unfold ret. cbn [stash o3 upd]. unfold o3. rewrite set_stash_upd.
      change (cfg o2) with (cfg o). clearbody new prev. by subst new prev. }
    split; [done|]. split; [lia|]. split; [lia|].
    split; [done|]. split; [done|]. split; [|split; [done|split; [done|]]].
    + unfold mem_after. fold prev new.
      apply content_serve_found; try done.
      unfold new. destruct newData as [dd|]; simpl; [by apply Hdata|].
      rewrite Eprev. done.
    + split; [|exact Hdead]. rewrite Hb. eapply list_elem_of_lookup_2.
      apply list_lookup_insert_eq. by eapply lookup_lt_Some.
  - (* the block is new *)
    assert (mem !! blockID = None) as Hmn.
    { destruct (mem !! blockID) eqn:E; [|done].
      destruct (Hmem blockID ltac:(by rewrite E)) as [? ?]. congruence. }
    assert (prev = zeros (BlockSize (cfg o))) as Eprev
      by (unfold prev, payload; by rewrite Hmn).
    assert (blockID ∉ b_id <$> st1) as Hnotin.
    { intros Hin. apply list_elem_of_fmap in Hin as (b & E & Hbin).
      unfold stash_ok in Hs1. rewrite Forall_forall in Hs1.
      destruct (Hs1 b Hbin) as (_ & Hpm & _). rewrite <- E in Hpm. congruence. }
    assert (∃ r, (if ConstantTime (cfg o)
                  then findInStashConstantTime blockID else findInStash blockID) o3
                 = (Ok (-1, r), o3)) as (r & Hfind).
    { destruct (ConstantTime (cfg o)) eqn:Ect.
      - destruct (Hfit Ect) as [HN _]. eexists.
        unfold findInStashConstantTime. cbn [stash cfg o3 upd set_posMap set_drawn]. change (cfg o2) with (cfg o).
        rewrite (findCT_notin blockID 0 st1 (-1)); try done; [lia|].
        apply (stash_ct_ok (cfg o) (pow2 d) (posMap o) mem); [done|done|lia].
      - eexists. unfold findInStash, gets. cbn [stash cfg o3 upd set_posMap set_drawn]. change (cfg o2) with (cfg o).
        by rewrite (findInStash_notin _ blockID 0 st1). }
    erewrite bind_Ok by exact Hfind. cbn [fst snd].
    change (-1 =? -1) with true. cbv iota.
    assert (new = match newData with
                  | Some dd => go_copy (zeros (BlockSize (cfg o))) dd
                  | None => zeros (BlockSize (cfg o))
                  end) as Enew.
    { unfold new. destruct newData as [dd|]; simpl; [|done].
      symmetry. apply go_copy_same. specialize (Hdata dd eq_refl).
      pose proof (zeros_length (BlockSize (cfg o)) ltac:(lia)). lia. }
    exists (st1 ++ [mkblock blockID l' new]). split.
    { erewrite bind_Ok
        by (erewrite bind_Ok
              by (apply (serveNew_spec o3 blockID l'); apply lookup_insert_eq);
            reflexivity).
      unfold ret. cbn [stash cfg o3 upd]. unfold o3. rewrite set_stash_upd.
      change (cfg o2) with (cfg o). clearbody new prev. by subst new prev. }
    split; [done|]. split; [lia|]. split; [lia|].
    split; [done|]. split; [done|]. split; [|split; [done|split; [done|]]].
    + unfold mem_after. fold prev new.
      apply content_serve_new; try done.
      unfold new. destruct newData as [dd|]; simpl; [by apply Hdata|].
      rewrite Eprev. apply zeros_length. lia.
    + split; [|exact Hdead]. apply elem_of_app. right. by apply list_elem_of_singleton.
Qed.

Lemma bind_Ok_Err_unit {A} (m : M unit) (v : A) (g : bool) o o' :
  m o = (if g then Err ErrStashOverflow else Ok tt, o') →
  (m ;;; ret v) o = (if g then Err ErrStashOverflow else Ok v, o').
Proof. intros H. unfold bind. rewrite H. by destruct g. Qed.

Lemma eviction_calls_ext o o2 path cs :
  cfg o2 = cfg o → height o2 = height o → numLeaves o2 = numLeaves o →
  eviction_calls o path cs → eviction_calls o2 path cs.
Proof.
  intros Ec Eh El H. destruct H.
  - apply ec_level; by rewrite ?Ec.
  - apply ec_greedy; by rewrite ?Ec.
  - apply ec_two_short; by rewrite ?Ec.
  - rewrite <- Eh, <- El. apply ec_two; rewrite ?Ec, ?El; done.
  - apply ec_ct; by rewrite ?Ec.
Qed.

(** The whole of [access]. *)
Lemma access_spec o mem d blockID newData :
  shape_ok o d →
  content_ok (cfg o) (numLeaves o) (posMap o) mem (buckets (storage o)) (stash o) →
  (∀ i, is_Some (mem !! i) → is_Some (posMap o !! i)) →
  ct_fits o →
  0 ≤ blockID < NumBlocks (cfg o) →
  (∀ dd, newData = Some dd → Z.of_nat (length dd) = BlockSize (cfg o)) →
  let l := read_leaf rand_Reader o blockID in
  let l' := fresh_leaf rand_Reader o blockID in
  let pm' := <[blockID := l']> (posMap o) in
  let prev := payload (cfg o) mem blockID in
  let mem' := mem_after (cfg o) mem blockID newData in
  let path := Path (height o) (numLeaves o) l in
  ∃ t' st' n' cs,
    let o' := mkORAM (cfg o) (height o) (numLeaves o)
                (mkStorage t' (bucketSize (storage o)) (blockSize (storage o))
                   (calls (storage o) ++ drainCalls path ++ cs))
                pm' st' n' in
    access rand_Reader blockID newData o
    = (if StashLimit (cfg o) <? Z.of_nat (length st')
       then Err ErrStashOverflow else Ok (Some prev), o') ∧
    shape_ok o' d ∧
    content_ok (cfg o) (numLeaves o) pm' mem' t' st' ∧
    eviction_calls o path cs ∧
    (drawn o < n')%nat ∧
    0 ≤ l < numLeaves o ∧ 0 ≤ l' < numLeaves o ∧
    cs = eviction_trace rand_Reader (serve rand_Reader blockID newData o).2 t' path.
Proof.
  intros Hsh Hc Hmem Hfit Hid Hdata. cbv zeta.
  destruct (serve_spec o mem d blockID newData Hsh Hc Hmem Hfit Hid Hdata)
    as (pn & t1 & st2 & Hserve & Hp & Hl & Hl' & Hnd & Hr & Hc1 & Hsl1 & Hlen1 & _
        & Hdead).
  destruct Hsh as [Hh HL Hbk Hbs Hslots HB].
  rewrite access_split. erewrite bind_Ok by exact Hserve.
  unfold evictStep. cbn [fst snd].
  set (pm' := <[blockID := fresh_leaf rand_Reader o blockID]> (posMap o)) in *.
  set (mem' := mem_after (cfg o) mem blockID newData) in *.
  set (n := drawn_after o blockID) in *.
  set (o1 := upd (set_posMap pm' (set_drawn n o)) t1 st2 (drainCalls (Z.of_nat <$> pn))).
  assert (drawn o < n)%nat as Hn.
  { unfold n, drawn_after. destruct (posMap o !! blockID); lia. }
  assert (Forall (λ k, (k < length t1)%nat) pn) as Hr1 by (by rewrite Hlen1).
  assert (∃ n' cs,
            evict_post (cfg o) (numLeaves o) pm' mem' (set_drawn n' o1) cs
              ((if ConstantTime (cfg o)
                then evictConstantTime (Z.of_nat <$> pn)
                else evictWithStrategy rand_Reader (Z.of_nat <$> pn)) o1) ∧
            eviction_calls o (Z.of_nat <$> pn) cs ∧ (n ≤ n')%nat ∧
            cs = eviction_trace rand_Reader o1
                   (buckets (storage
                      ((if ConstantTime (cfg o)
                        then evictConstantTime (Z.of_nat <$> pn)
                        else evictWithStrategy rand_Reader (Z.of_nat <$> pn)) o1).2))
                   (Z.of_nat <$> pn))
    as (n' & cs & (t' & st' & Hrun & Hc' & Hsl' & Hlen') & Hcalls & Hn' & Htrace).
  { destruct (ConstantTime (cfg o)) eqn:Ect.
    - destruct (Hfit Ect) as [HN Hh32].
      exists n, (batchCalls (Z.of_nat <$> pn)).
      replace (set_drawn n o1) with o1 by done.
      split; [|split; [by apply ec_ct|split; [lia|]]].
      + apply (evictConstantTime_spec (cfg o) (numLeaves o) pm' mem' pn o1 d); try done.
        * lia.
        * cbn [o1 upd storage buckets]. rewrite Hlen1, Hbk.
          assert (pow2 (S d) ≤ 2 ^ 32); [|lia].
          unfold pow2. apply Z.pow_le_mono_r; lia.
      + unfold eviction_trace. change (cfg o1) with (cfg o). by rewrite Ect.
    - destruct (evictWithStrategy_spec (cfg o) (numLeaves o) pm' mem' rand_Reader pn o1 d)
        as (n' & cs & Hpost & Hcalls & Hn' & Htrace); try done.
      { cbn [o1 upd storage buckets]. by rewrite Hlen1. }
      exists n', cs. split; [done|]. split; [|done].
      eapply eviction_calls_ext; [| | |exact Hcalls]; done. }
  rewrite Hrun in Htrace. cbn [snd storage buckets upd set_drawn] in Htrace.
  assert ((serve rand_Reader blockID newData o).2 = o1) as Eserve by (by rewrite Hserve).
  exists t', st', n', cs. rewrite <- Hp.
  erewrite bind_Ok_Err_unit by exact Hrun.
  split.
  { unfold ret. cbn [cfg set_drawn o1 upd set_posMap].
    destruct (StashLimit (cfg o) <? Z.of_nat (length st')); f_equal;
      unfold upd, o1, upd; cbn; by rewrite <- app_assoc. }
  split.
  { split; cbn; try done.
    - rewrite Hlen'. cbn [o1 upd storage buckets set_drawn]. by rewrite Hlen1.
    - eapply Forall_impl; [exact Hsl'|]. intros bkt Hb. cbn in Hb. by rewrite <- Hbs. }
  split; [done|]. split; [done|]. split; [lia|]. split; [done|]. split; [done|].
  by rewrite Eserve.
Qed.
End Access.


(** * Construction and sequences of calls *)

Lemma Validate_Ok c c' :
  Validate c = Ok c' →
  0 < NumBlocks c ∧ 0 < BlockSize c ∧
  NumBlocks c' = NumBlocks c ∧ BlockSize c' = BlockSize c ∧
  BucketSize c' = (if BucketSize c =? 0 then 5 else BucketSize c) ∧
  StashLimit c' = (if StashLimit c =? 0 then 100 else StashLimit c) ∧
  Strategy c' = Strategy c ∧ ConstantTime c' = ConstantTime c ∧
  BucketSize c' ≠ 0.
Proof.
  unfold Validate. destruct (_ || _) eqn:E; [done|].
  apply orb_false_iff in E as [E1 E2]. apply Z.leb_gt in E1, E2.
  intros [= <-]. cbn. repeat split; try done.
  destruct (BucketSize c =? 0) eqn:E; [done|]. by apply Z.eqb_neq in E.
Qed.

Lemma ComputeTreeParams_spec c :
  0 < NumBlocks c → BucketSize c ≠ 0 → fits_int c →
  ∃ h, ComputeTreeParams c = Ok (h, 2 ^ (h - 1), 2 ^ h - 1) ∧
       1 ≤ h ≤ 63 ∧
       ceil_div (NumBlocks c) (BucketSize c) ≤ 2 ^ h - 1 ∧
       ∀ k, 1 ≤ k < h → 2 ^ k - 1 < ceil_div (NumBlocks c) (BucketSize c).
Proof.
  intros HN HZ (HNmax & HZr & Hsum).
  unfold ComputeTreeParams. apply Z.eqb_neq in HZ as HZ'. rewrite HZ'.
  set (N := NumBlocks c) in *. set (Zs := BucketSize c) in *.
  replace (wrap64 (N + Zs) - 1) with (wrap64 (N + Zs) + -1) by lia.
  rewrite wrap64_add_l. replace (N + Zs + -1) with (N + Zs - 1) by lia.
  rewrite (wrap64_id (N + Zs - 1)) by (unfold min_int, max_int in *; lia).
  assert (min_int ≤ Z.quot (N + Zs - 1) Zs ≤ max_int) as Hq.
  { unfold min_int, max_int in *. Z.to_euclidean_division_equations. nia. }
  rewrite (wrap64_id (Z.quot _ _)) by done.
  set (nb := Z.quot (N + Zs - 1) Zs) in *.
  destruct (height_loop_spec 64 1 nb) as (H1 & H2 & H3); [lia|lia|lia|].
  set (h := height_loop 64 1 nb) in *.
  exists h. rewrite mask_value by lia. rewrite shl1_value by lia.
  split; [done|]. split; [lia|].
  destruct (decide (0 < Zs)) as [Hpos|Hneg].
  - destruct (ceil_div_pos N Zs Hpos) as [Hc|Hc]; [|lia].
    fold nb in Hc. rewrite <- Hc. done.
  - destruct (ceil_div_neg N Zs ltac:(lia) HN) as [Hq1 Hc]. fold nb in Hq1.
    assert (h = 1) as ->.
    { destruct (decide (h = 1)); [done|]. specialize (H3 1 ltac:(lia)). lia. }
    split; [lia|]. intros; lia.
Qed.


(** [ComputeTreeParams] on any bucket size but zero: a height between
    1 and 63, and the leaves and buckets of a complete tree of that
    height. *)
Lemma ComputeTreeParams_shape c :
  BucketSize c ≠ 0 →
  ∃ h, 1 ≤ h ≤ 63 ∧ ComputeTreeParams c = Ok (h, 2 ^ (h - 1), 2 ^ h - 1).
Proof.
  intros HZ. unfold ComputeTreeParams. apply Z.eqb_neq in HZ as ->.
  set (nb := wrap64 _).
  destruct (height_loop_spec 64 1 nb) as (H1 & _); [lia|lia|apply wrap64_range|].
  set (h := height_loop 64 1 nb) in *.
  exists h. split; [lia|]. rewrite mask_value by lia. by rewrite shl1_value by lia.
Qed.

Lemma Validate_idem c c' : Validate c = Ok c' → Validate c' = Ok c'.
Proof.
  intros H. unfold Validate in *. destruct (_ || _) eqn:E; [done|].
  injection H as <-. cbn. rewrite E.
  destruct (BucketSize c =? 0) eqn:E1, (StashLimit c =? 0) eqn:E2; cbn; rewrite ?E1, ?E2; done.
Qed.

Lemma tree_ids_dead t : Forall all_dead t → tree_ids t = [].
Proof.
  intros H. unfold tree_ids. induction H as [|bkt t Hb _ IH]; [done|].
  change (mjoin (bkt :: t)) with (bkt ++ mjoin t).
  rewrite bucket_ids_app, IH, app_nil_r. clear IH.
  induction Hb as [|B bkt HB _ IH]; [done|].
  rewrite bucket_ids_cons_dead; [done|]. unfold live. rewrite HB. by intros [].
Qed.

(** What [NewInMemory] builds. *)
Lemma NewInMemoryStorage_cases nb bs blk :
  NewInMemoryStorage nb bs blk
  = if decide (nb < 0 ∨ (0 < nb ∧ bs < 0) ∨ (0 < nb ∧ 0 < bs ∧ blk < 0)) then Panic
    else Ok (mkStorage (replicate (Z.to_nat nb) (replicate (Z.to_nat bs) (emptyBlock blk)))
               bs blk []).
Proof.
  unfold NewInMemoryStorage.
  destruct (Z.ltb_spec nb 0); [by rewrite decide_True by lia|].
  destruct (Z.ltb_spec 0 nb); cbn [andb].
  - destruct (Z.ltb_spec bs 0); [by rewrite decide_True by lia|].
    destruct (Z.ltb_spec 0 bs); cbn [andb].
    + destruct (Z.ltb_spec blk 0); [by rewrite decide_True by lia|].
      by rewrite decide_False by lia.
    + by rewrite decide_False by lia.
  - by rewrite decide_False by lia.
Qed.

Lemma NewInMemory_spec c o :
  NewInMemory c = Ok o →
  ∃ d, Validate c = Ok (cfg o) ∧ shape_ok o d ∧
       posMap o = ∅ ∧ stash o = [] ∧ calls (storage o) = [] ∧ drawn o = O ∧
       Forall all_dead (buckets (storage o)).
Proof.
  unfold NewInMemory. destruct (Validate c) as [c'| |] eqn:EV; try done.
  pose proof (Validate_Ok _ _ EV) as (HN & HB & EN & EB & EZ & _ & _ & _ & HZ).
  destruct (ComputeTreeParams_shape c' HZ) as (h & Hh & E). rewrite E.
  rewrite NewInMemoryStorage_cases.
  destruct (decide _) as [Eneg|Eneg]; [done|].
  assert (2 ≤ 2 ^ h) as Hp1 by (apply (Z.pow_le_mono_r 2 1 h); lia).
  assert (0 ≤ 2 ^ h - 1 ∧ 0 ≤ BucketSize c' ∧ 0 ≤ BlockSize c') as (E1 & E2 & E3) by lia.
  unfold New. rewrite (Validate_idem _ _ EV), E.
  intros [= <-]. cbn.
  destruct (height_depth h) as (d & Eh & EL); [lia|].
  exists d. split; [done|]. split.
  { split; cbn.
    - done.
    - done.
    - rewrite length_replicate. rewrite Z2Nat.id by done.
      rewrite Eh at 1. rewrite pow2_Z by lia. by rewrite Nat2Z.id.
    - done.
    - apply Forall_replicate. rewrite length_replicate. lia.
    - lia. }
  repeat split; try done.
  apply Forall_replicate. unfold all_dead. by apply Forall_replicate.
Qed.

Section Reach.
Context {Enc : Encryptor} {EncOK : EncryptorCorrect Enc}.
Variable rand_Reader : nat → Z.

(** A fresh engine satisfies the invariant, against the empty memory. *)
Lemma NewInMemory_inv c o : NewInMemory c = Ok o → inv o ∅.
Proof.
  intros H. destruct (NewInMemory_spec c o H) as (d & _ & Hsh & Hpm & Hst & _ & _ & Hdead).
  split; [by exists d| |].
  - rewrite Hpm, Hst. split; [by apply Forall_nil|]. split.
    + intros k bkt Hk. rewrite Forall_forall in Hdead.
      apply list_elem_of_lookup_2 in Hk. apply Hdead in Hk.
      eapply Forall_impl; [exact Hk|]. intros B HB Hl. by unfold live in Hl.
    + unfold all_ids. rewrite tree_ids_dead by done. simpl.
      split; [apply NoDup_nil_2|]. intros i [? Hi]. by rewrite lookup_empty in Hi.
  - intros i [? Hi]. by rewrite lookup_empty in Hi.
Qed.

Lemma valid_op_true c a :
  valid_op c a = true ↔
  0 ≤ a.1 < NumBlocks c ∧ ∀ dd, a.2 = Some dd → Z.of_nat (length dd) = BlockSize c.
Proof.
  unfold valid_op. rewrite !andb_true_iff, Z.leb_le, Z.ltb_lt.
  destruct a.2 as [dd|]; [rewrite Z.eqb_eq|].
  - split.
    + intros [[? ?] ?]. split; [lia|]. by intros ? [= <-].
    + intros [[? ?] Hd]. split; [done|]. by apply Hd.
  - split; [intros [[? ?] _]|intros [[? ?] _]]; done.
Qed.

(** [Access] on a call that passes its checks is [access]. *)
Lemma Access_valid o id nd :
  valid_op (cfg o) (id, nd) = true →
  Access rand_Reader id nd o = access rand_Reader id nd o.
Proof.
  intros H. apply valid_op_true in H as [Hid Hd]. cbn in Hid, Hd.
  unfold Access, validID.
  destruct (id <? 0) eqn:E1; [apply Z.ltb_lt in E1; lia|].
  destruct (NumBlocks (cfg o) <=? id) eqn:E2; [apply Z.leb_le in E2; lia|].
  cbn. destruct nd as [dd|]; [|done]. cbn.
  rewrite (Hd dd eq_refl), Z.eqb_refl. done.
Qed.

(** [Access] on a call that fails its checks returns an error and
    leaves the engine as it was. *)
Lemma Access_invalid o id nd :
  valid_op (cfg o) (id, nd) = false →
  Access rand_Reader id nd o
  = (Err (if negb (validID id o) then ErrInvalidBlockID else ErrInvalidDataSize), o).
Proof.
  unfold valid_op, Access, validID. cbn.
  destruct (id <? 0) eqn:E1; [done|].
  destruct (NumBlocks (cfg o) <=? id) eqn:E2; [done|].
  apply Z.ltb_ge in E1. apply Z.leb_gt in E2.
  assert ((0 <=? id) = true) as -> by (apply Z.leb_le; lia).
  assert ((id <? NumBlocks (cfg o)) = true) as -> by (apply Z.ltb_lt; lia).
  cbn. destruct nd as [dd|]; [|done]. cbn. by intros ->.
Qed.

(** One call of [access] on an engine that satisfies the invariant. *)
Lemma Access_spec o mem id nd :
  inv o mem → ct_fits o → valid_op (cfg o) (id, nd) = true →
  let l := read_leaf rand_Reader o id in
  let l' := fresh_leaf rand_Reader o id in
  let path := Path (height o) (numLeaves o) l in
  ∃ t' st' n' cs,
    let o' := mkORAM (cfg o) (height o) (numLeaves o)
                (mkStorage t' (bucketSize (storage o)) (blockSize (storage o))
                   (calls (storage o) ++ drainCalls path ++ cs))
                (<[id := l']> (posMap o)) st' n' in
    Access rand_Reader id nd o
    = (if StashLimit (cfg o) <? Z.of_nat (length st')
       then Err ErrStashOverflow else Ok (Some (payload (cfg o) mem id)), o') ∧
    inv o' (mem_after (cfg o) mem id nd) ∧
    eviction_calls o path cs ∧
    0 ≤ l < numLeaves o ∧ 0 ≤ l' < numLeaves o ∧
    cs = eviction_trace rand_Reader (serve rand_Reader id nd o).2 t' path.
Proof.
  intros [[d Hsh] Hc Hmem] Hfit Hv. cbv zeta.
  rewrite (Access_valid o id nd Hv). apply valid_op_true in Hv as [Hid Hd]. cbn in Hid, Hd.
  destruct (access_spec rand_Reader o mem d id nd Hsh Hc Hmem Hfit Hid Hd)
    as (t' & st' & n' & cs & Hrun & Hsh' & Hc' & Hcalls & _ & Hl & Hl' & Htrace).
  exists t', st', n', cs. cbv zeta. split; [exact Hrun|].
  split; [|done]. split; [by exists d|done|].
  cbn. intros i. unfold mem_after.
  destruct (decide (i = id)) as [->|Hne].
  - rewrite !lookup_insert_eq. intros _. eauto.
  - rewrite !lookup_insert_ne by done. apply Hmem.
Qed.

(** One call of [Access], whatever the call. *)
Lemma step_inv o mem a :
  inv o mem → ct_fits o →
  inv (step rand_Reader o a) (ref_step (cfg o) mem a) ∧
  cfg (step rand_Reader o a) = cfg o ∧
  height (step rand_Reader o a) = height o ∧
  numLeaves (step rand_Reader o a) = numLeaves o.
Proof.
  intros Hinv Hfit. unfold step, ref_step. destruct a as [id nd]. cbn [fst snd].
  destruct (valid_op (cfg o) (id, nd)) eqn:Hv.
  - destruct (Access_spec o mem id nd Hinv Hfit Hv)
      as (t' & st' & n' & cs & Hrun & Hinv' & _). cbv zeta in Hrun.
    rewrite Hrun. cbn [snd]. done.
  - rewrite (Access_invalid o id nd Hv). done.
Qed.

Lemma run_inv_from o mem ops :
  inv o mem → ct_fits o →
  inv (run rand_Reader o ops) (foldl (ref_step (cfg o)) mem ops) ∧
  cfg (run rand_Reader o ops) = cfg o ∧
  height (run rand_Reader o ops) = height o ∧
  numLeaves (run rand_Reader o ops) = numLeaves o.
Proof.
  revert o mem. induction ops as [|a ops IH]; intros o mem Hinv Hfit; [done|].
  destruct (step_inv o mem a Hinv Hfit) as (Hinv' & Ec & Eh & El).
  assert (ct_fits (step rand_Reader o a)) as Hfit'.
  { unfold ct_fits. rewrite Ec, Eh. exact Hfit. }
  destruct (IH _ _ Hinv' Hfit') as (H1 & H2 & H3 & H4).
  unfold run in *. cbn [foldl]. rewrite Ec in H1.
  split; [done|]. split; [congruence|]. split; congruence.
Qed.

(** The invariant holds after every sequence of calls on a fresh
    engine. *)
Lemma run_inv c o0 ops :
  NewInMemory c = Ok o0 → ct_fits o0 →
  let o := run rand_Reader o0 ops in
  inv o (ref_run (cfg o0) ops) ∧ ct_fits o ∧
  cfg o = cfg o0 ∧ height o = height o0 ∧ numLeaves o = numLeaves o0.
Proof.
  intros Hnew Hfit. cbv zeta.
  destruct (run_inv_from o0 ∅ ops (NewInMemory_inv c o0 Hnew) Hfit) as (H1 & H2 & H3 & H4).
  split; [done|]. split; [|done]. unfold ct_fits. rewrite H2, H3. exact Hfit.
Qed.

(** Ids and blocks correspond one to one. *)
Lemma held_ids_all o mem : inv o mem → held_ids o = all_ids (buckets (storage o)) (stash o).
Proof.
  intros [_ (Hs & _) _]. unfold held_ids, all_ids, tree_blocks, stash_blocks.
  f_equal. f_equal. induction Hs as [|b st Hb _ IH]; [done|].
  rewrite filter_cons_True; [by rewrite IH|].
  destruct Hb as (Hid & _). unfold EmptyBlockID. lia.
Qed.

Lemma all_ids_posMap o mem i :
  inv o mem → i ∈ all_ids (buckets (storage o)) (stash o) ↔ is_Some (posMap o !! i).
Proof.
  intros [_ (Hs & Ht & _ & Hdom) _]. split; [|apply Hdom].
  unfold all_ids. rewrite elem_of_app. intros [Hi|Hi].
  - apply list_elem_of_fmap in Hi as (b & -> & Hb).
    unfold stash_ok in Hs. rewrite Forall_forall in Hs.
    destruct (Hs b Hb) as (_ & Hpm & _). by rewrite Hpm.
  - apply tree_ids_elem in Hi as (k & bkt & B & Hk & HB & Hl & <-).
    specialize (Ht k bkt Hk). rewrite Forall_forall in Ht.
    destruct (Ht B HB Hl) as (_ & p & _ & _ & Hpm & _). by rewrite Hpm.
Qed.

Lemma size_posMap o mem :
  inv o mem → size (posMap o) = length (held_ids o).
Proof.
  intros Hinv. rewrite (held_ids_all o mem Hinv).
  pose proof Hinv as [_ (_ & _ & Hnd & _) _].
  rewrite <- (length_map_to_list (posMap o)), <- (length_fmap fst).
  apply Permutation_length, NoDup_Permutation; [apply NoDup_fst_map_to_list|done|].
  intros i. rewrite (all_ids_posMap o mem i Hinv).
  rewrite list_elem_of_fmap. split.
  - intros ([i' l] & -> & H). apply elem_of_map_to_list in H. cbn. by rewrite H.
  - intros [l H]. exists (i, l). split; [done|]. by apply elem_of_map_to_list.
Qed.

(** What one call that passes the checks returns and leaves behind. *)
Lemma Access_result o mem id nd :
  inv o mem → ct_fits o → valid_op (cfg o) (id, nd) = true →
  let r := Access rand_Reader id nd o in
  let path := Path (height o) (numLeaves o) (read_leaf rand_Reader o id) in
  r.1 = (if StashLimit (cfg o) <? Z.of_nat (length (stash r.2))
         then Err ErrStashOverflow else Ok (Some (payload (cfg o) mem id))) ∧
  inv r.2 (mem_after (cfg o) mem id nd) ∧ ct_fits r.2 ∧
  cfg r.2 = cfg o ∧ height r.2 = height o ∧ numLeaves r.2 = numLeaves o ∧
  posMap r.2 = <[id := fresh_leaf rand_Reader o id]> (posMap o) ∧
  0 ≤ read_leaf rand_Reader o id < numLeaves o ∧
  0 ≤ fresh_leaf rand_Reader o id < numLeaves o ∧
  ∃ cs, calls (storage r.2) = calls (storage o) ++ drainCalls path ++ cs ∧
        eviction_calls o path cs ∧
        cs = eviction_trace rand_Reader (serve rand_Reader id nd o).2
               (buckets (storage r.2)) path.
Proof.
  intros Hinv Hfit Hv. cbv zeta.
  destruct (Access_spec o mem id nd Hinv Hfit Hv)
    as (t' & st' & n' & cs & Hrun & Hinv' & Hcalls & Hl & Hl' & Htrace). cbv zeta in Hrun.
  rewrite Hrun. cbn [fst snd stash cfg height numLeaves posMap storage calls buckets].
  repeat (split; [done|]). eauto.
Qed.

(** The ids of the position map are those of the reference memory. *)
Lemma posMap_mem o mem i : inv o mem → is_Some (posMap o !! i) ↔ is_Some (mem !! i).
Proof.
  intros Hinv. split; [|by apply Hinv].
  intros Hi. pose proof Hinv as [_ (Hs & Ht & _ & Hdom) _].
  apply Hdom in Hi. unfold all_ids in Hi. apply elem_of_app in Hi as [Hi|Hi].
  - apply list_elem_of_fmap in Hi as (b & -> & Hb).
    unfold stash_ok in Hs. rewrite Forall_forall in Hs.
    destruct (Hs b Hb) as (_ & _ & _ & Hm & _). by rewrite Hm.
  - apply tree_ids_elem in Hi as (k & bkt & B & Hk & HB & Hl & <-).
    specialize (Ht k bkt Hk). rewrite Forall_forall in Ht.
    destruct (Ht B HB Hl) as (_ & p & _ & _ & _ & _ & Hm & _). by rewrite Hm.
Qed.
End Reach.

(** The reference memory depends on the configuration by [N] and [B]
    only. *)
Lemma ref_step_ext c c' mem a :
  NumBlocks c = NumBlocks c' → BlockSize c = BlockSize c' →
  ref_step c mem a = ref_step c' mem a.
Proof.
  intros EN EB. unfold ref_step, valid_op, mem_after, payload. by rewrite EN, EB.
Qed.

Lemma ref_step_notin c mem a i : a.1 ≠ i → ref_step c mem a !! i = mem !! i.
Proof.
  intros H. unfold ref_step, mem_after. destruct (valid_op c a); [|done].
  by rewrite lookup_insert_ne.
Qed.

Lemma foldl_ref_step_notin c ops mem i :
  (∀ a, a ∈ ops → a.1 ≠ i) → foldl (ref_step c) mem ops !! i = mem !! i.
Proof.
  revert mem. induction ops as [|a ops IH]; intros mem H; [done|].
  cbn [foldl]. rewrite IH.
  - apply ref_step_notin, H, list_elem_of_here.
  - intros b Hb. apply H. by apply list_elem_of_further.
Qed.

(** An id that no call has named holds zeros. *)
Lemma ref_payload_fresh c ops i :
  (∀ a, a ∈ ops → a.1 ≠ i) → ref_run c ops !! i = None ∧ ref_payload c ops i = zeros (BlockSize c).
Proof.
  intros H. unfold ref_payload, payload, ref_run.
  rewrite (foldl_ref_step_notin c ops ∅ i H), lookup_empty. done.
Qed.

(** After a write that passes the checks the id holds the payload
    written; after a read, what it held. *)
Lemma ref_payload_snoc c ops id nd :
  valid_op c (id, nd) = true →
  ref_payload c (ops ++ [(id, nd)]) id = default (ref_payload c ops id) nd.
Proof.
  intros Hv. unfold ref_payload, ref_run. rewrite foldl_app. cbn [foldl].
  unfold ref_step at 1. rewrite Hv. cbn [fst snd]. unfold mem_after, payload at 1.
  by rewrite lookup_insert_eq.
Qed.

Lemma ref_run_snoc c ops a : ref_run c (ops ++ [a]) = ref_step c (ref_run c ops) a.
Proof. unfold ref_run. by rewrite foldl_app. Qed.

Lemma run_snoc {Enc : Encryptor} rand_Reader o ops a :
  run rand_Reader o (ops ++ [a]) = step rand_Reader (run rand_Reader o ops) a.
Proof. unfold run. by rewrite foldl_app. Qed.

(** [Read] and [Write] as calls of [Access]. *)
Lemma Read_Access {Enc : Encryptor} rand_Reader id o :
  Read rand_Reader id o = Access rand_Reader id None o.
Proof. unfold Read, Access. by destruct (negb (validID id o)). Qed.

Lemma Write_Access {Enc : Encryptor} rand_Reader id dd o :
  Write rand_Reader id (Some dd) o = Access rand_Reader id (Some dd) o.
Proof. unfold Write, Access. by destruct (negb (validID id o)). Qed.

(** The configuration of a fresh engine. *)
Lemma NewInMemory_cfg c o :
  NewInMemory c = Ok o →
  NumBlocks (cfg o) = NumBlocks c ∧ BlockSize (cfg o) = BlockSize c ∧
  0 < NumBlocks c ∧ 0 < BlockSize c ∧
  StashLimit (cfg o) = (if StashLimit c =? 0 then 100 else StashLimit c) ∧
  Strategy (cfg o) = Strategy c ∧ ConstantTime (cfg o) = ConstantTime c.
Proof.
  intros H. destruct (NewInMemory_spec c o H) as (d & HV & _).
  apply Validate_Ok in HV as (? & ? & ? & ? & ? & ? & ? & ? & ?). done.
Qed.

Section Agree.
Context {Enc : Encryptor} {EncOK : EncryptorCorrect Enc}.
Variables rand_Reader rand_Reader' : nat → Z.

(** Two engines that hold the same reference memory return the same
    results, up to the overflow of the stash. *)
Lemma results_agree o o' mem ops :
  inv o mem → inv o' mem → ct_fits o → ct_fits o' →
  NumBlocks (cfg o) = NumBlocks (cfg o') → BlockSize (cfg o) = BlockSize (cfg o') →
  Forall2 same_but_overflow (results rand_Reader o ops) (results rand_Reader' o' ops).
Proof.
  revert o o' mem. induction ops as [|[id nd] ops IH];
    intros o o' mem Hinv Hinv' Hfit Hfit' EN EB; [by apply Forall2_nil|].
  cbn [results fst snd]. unfold step. cbn [fst snd].
  assert (valid_op (cfg o') (id, nd) = valid_op (cfg o) (id, nd)) as Ev.
  { unfold valid_op. by rewrite EN, EB. }
  destruct (valid_op (cfg o) (id, nd)) eqn:Hv.
  - destruct (Access_result rand_Reader o mem id nd Hinv Hfit Hv)
      as (Hr & Hinv1 & Hfit1 & Ec1 & _).
    destruct (Access_result rand_Reader' o' mem id nd Hinv' Hfit' Ev)
      as (Hr' & Hinv1' & Hfit1' & Ec1' & _).
    apply Forall2_cons. split.
    + rewrite Hr, Hr'. unfold same_but_overflow, payload. rewrite EB.
      destruct (_ <? _), (_ <? _); eauto.
    + apply (IH _ _ (mem_after (cfg o) mem id nd)); try done.
      * unfold mem_after, payload in *. by rewrite EB.
      * by rewrite Ec1, Ec1'.
      * by rewrite Ec1, Ec1'.
  - rewrite (Access_invalid rand_Reader o id nd Hv), (Access_invalid rand_Reader' o' id nd Ev).
    cbn [fst snd]. apply Forall2_cons. split.
    + left. unfold validID. by rewrite EN.
    + by apply (IH _ _ mem).
Qed.
End Agree.


(** * The claims *)

(** C8, for the configurations on which the ceiling division of
    [ComputeTreeParams] does not overflow: tree geometry.  For every
    configuration that [Validate] accepts (N > 0, B > 0; a zero bucket
    size replaced by 5) and whose sum [N + Z - 1] does not exceed the
    largest [int], [ComputeTreeParams] yields the height [h] that is the smallest
    positive integer with [2^h - 1 >= ceil(N/Z)], together with
    [2^(h-1)] leaves and [2^h - 1] buckets; [Path] of a leaf has [h]
    entries, starts at the leaf's bucket [numLeaves - 1 + leaf], steps
    from a bucket [i] to [(i-1)/2] and ends at the root; and for N = 7,
    Z = 1 the four paths are [3,1,0], [4,1,0], [5,2,0], [6,2,0]. *)
Theorem C8_tree_geometry (c c' : Config) :
  Validate c = Ok c' → fits_int c' →
  ∃ h, ComputeTreeParams c' = Ok (h, 2 ^ (h - 1), 2 ^ h - 1) ∧
       1 ≤ h ∧
       ceil_div (NumBlocks c) (BucketSize c') ≤ 2 ^ h - 1 ∧
       (∀ k, 1 ≤ k < h → 2 ^ k - 1 < ceil_div (NumBlocks c) (BucketSize c')) ∧
       (∀ l, 0 ≤ l < 2 ^ (h - 1) →
          let p := Path h (2 ^ (h - 1)) l in
          Z.of_nat (length p) = h ∧
          (∀ j, (j < length p)%nat →
                p !! j = Some (Nat.iter j parent (2 ^ (h - 1) - 1 + l))) ∧
          last p = Some 0) ∧
       (NumBlocks c = 7 → BucketSize c = 1 →
          h = 3 ∧
          Path h (2 ^ (h - 1)) 0 = [3; 1; 0] ∧ Path h (2 ^ (h - 1)) 1 = [4; 1; 0] ∧
          Path h (2 ^ (h - 1)) 2 = [5; 2; 0] ∧ Path h (2 ^ (h - 1)) 3 = [6; 2; 0]).
Proof.
  intros HV Hfit. apply Validate_Ok in HV as (HN & HB & EN & EB & EZ & _ & _ & _ & HZ).
  destruct (ComputeTreeParams_spec c') as (h & Hc & Hh & Hle & Hmin); [lia|done|done|].
  rewrite EN in Hle, Hmin.
  exists h. split; [done|]. split; [lia|]. split; [done|]. split; [done|]. split.
  - destruct (height_depth h) as (d & Eh & EL); [lia|]. rewrite EL. clear Hc Hle Hmin.
    subst h. intros l Hl p. subst p. rewrite Path_length.
    split; [lia|]. split.
    + intros j Hj. unfold Path. by apply Path_loop_lookup.
    + by apply Path_last.
  - intros E7 E1. rewrite E7 in *.
    assert (BucketSize c' = 1) as EZ1 by (rewrite EZ, E1; done).
    rewrite EZ1 in *.
    assert (ComputeTreeParams c' = Ok (3, 4, 7)) as Hc3.
    { unfold ComputeTreeParams. rewrite EN, EZ1. vm_compute. reflexivity. }
    rewrite Hc3 in Hc. injection Hc as <- _ _.
    repeat split; vm_compute; reflexivity.
Qed.

(** A configuration at which the theorem applies: N = 7, Z = 1. *)
Lemma C8_tree_geometry_witness :
  ∃ h, ComputeTreeParams (mkConfig 7 512 1 100 EvictLevelByLevel false)
       = Ok (h, 2 ^ (h - 1), 2 ^ h - 1) ∧ h = 3.
Proof.
  destruct (C8_tree_geometry (mkConfig 7 512 1 0 EvictLevelByLevel false)
              (mkConfig 7 512 1 100 EvictLevelByLevel false))
    as (h & Hc & _ & _ & _ & _ & H7).
  - vm_compute. reflexivity.
  - unfold fits_int, max_int, min_int. simpl. lia.
  - exists h. split; [exact Hc|]. apply H7; reflexivity.
Defined.

(** Where C8 fails in the code: [ComputeTreeParams] computes the
    ceiling of N / Z as [(N + Z - 1) / Z] in [int], and for
    N = 2^63 - 1 and Z = 2 the sum wraps around to [-2^63]: the
    quotient is negative, the loop does not run, the height is 1 with
    one leaf and one bucket, and [2^1 - 1] is below
    [ceil(N/Z) = 2^62]. *)
Lemma C8_counterexample :
  let c := mkConfig (2 ^ 63 - 1) 1 2 100 EvictLevelByLevel false in
  Validate c = Ok c ∧
  ComputeTreeParams c = Ok (1, 1, 1) ∧
  ¬ (ceil_div (NumBlocks c) (BucketSize c) ≤ 2 ^ 1 - 1).
Proof.
  cbv zeta. split; [vm_compute; reflexivity|]. split; [vm_compute; reflexivity|].
  vm_compute. intros H. apply H. reflexivity.
Qed.

Section Claims.
Context {Enc : Encryptor} {EncOK : EncryptorCorrect Enc}.
Variable rand_Reader : nat → Z.

(** C9: validation errors and their atomicity.  [Access], [Read] and
    [Write] with an id below 0 or not below N (so -1, N and N + k)
    return [ErrInvalidBlockID]; with an id in range, a write whose
    payload has a length other than B (so B - 1, B + 1 and 0) returns
    [ErrInvalidDataSize]; in all these cases the engine returned is the
    engine given: the stash, the position map and the bucket store are
    as they were. *)
Theorem C9_validation_errors (o : PathORAM) (id : Z) :
  (id < 0 ∨ NumBlocks (cfg o) ≤ id →
   ∀ nd, Access rand_Reader id nd o = (Err ErrInvalidBlockID, o) ∧
         Read rand_Reader id o = (Err ErrInvalidBlockID, o) ∧
         Write rand_Reader id nd o = (Err ErrInvalidBlockID, o)) ∧
  (0 ≤ id < NumBlocks (cfg o) →
   (∀ dd, Z.of_nat (length dd) ≠ BlockSize (cfg o) →
          Access rand_Reader id (Some dd) o = (Err ErrInvalidDataSize, o)) ∧
   (∀ nd, len_opt nd ≠ BlockSize (cfg o) →
          Write rand_Reader id nd o = (Err ErrInvalidDataSize, o))).
Proof.
  split.
  - intros Hid nd. unfold Access, Read, Write, validID.
    assert ((id <? 0) || (NumBlocks (cfg o) <=? id) = true) as ->; [|done].
    apply orb_true_iff. rewrite Z.ltb_lt, Z.leb_le. done.
  - intros Hid. unfold Access, Write, validID.
    assert ((id <? 0) || (NumBlocks (cfg o) <=? id) = false) as ->.
    { apply orb_false_iff. rewrite Z.ltb_ge, Z.leb_gt. lia. }
    cbn [negb]. split.
    + intros dd Hd. cbn. apply Z.eqb_neq in Hd. by rewrite Hd.
    + intros nd Hd. apply Z.eqb_neq in Hd. by rewrite Hd.
Qed.

(** C1 (as amended): write then read.  On an engine that [NewInMemory]
    has built and any sequence of calls has used (in constant-time mode:
    with N at most 2^32 - 1 and a height of at most 32), for every id in
    [0, N) and payload [d] of length B, under every strategy:
    [Write id d] returns a payload or [ErrStashOverflow], and the
    [Read id] that follows returns [d], unless the stash it leaves
    behind is longer than the stash limit, in which case it returns
    [ErrStashOverflow]. *)
Theorem C1_write_then_read (c : Config) (o0 : PathORAM) (ops : list op)
    (id : Z) (d : bytes) :
  NewInMemory c = Ok o0 → ct_fits o0 →
  0 ≤ id < NumBlocks c → Z.of_nat (length d) = BlockSize c →
  let o := run rand_Reader o0 ops in
  let w := Write rand_Reader id (Some d) o in
  let r := Read rand_Reader id w.2 in
  (w.1 = Err ErrStashOverflow ∨ ∃ prev, w.1 = Ok (Some prev)) ∧
  r.1 = (if StashLimit (cfg o0) <? Z.of_nat (length (stash r.2))
         then Err ErrStashOverflow else Ok (Some d)).
Proof.
  intros Hnew Hfit0 Hid Hd. cbv zeta.
  destruct (NewInMemory_cfg c o0 Hnew) as (EN & EB & _).
  destruct (run_inv rand_Reader c o0 ops Hnew Hfit0) as (Hinv & Hfit & Ec & _).
  set (o := run rand_Reader o0 ops) in *. set (mem := ref_run (cfg o0) ops) in *.
  assert (valid_op (cfg o) (id, Some d) = true) as Hv.
  { apply valid_op_true. rewrite Ec, EN, EB. split; [done|]. by intros ? [= <-]. }
  rewrite Write_Access.
  destruct (Access_result rand_Reader o mem id (Some d) Hinv Hfit Hv)
    as (Hw & Hinv1 & Hfit1 & Ec1 & _).
  set (w := Access rand_Reader id (Some d) o) in *.
  split.
  { rewrite Hw. destruct (_ <? _); eauto. }
  assert (valid_op (cfg w.2) (id, None) = true) as Hv1.
  { apply valid_op_true. rewrite Ec1, Ec, EN. done. }
  rewrite Read_Access.
  destruct (Access_result rand_Reader w.2 _ id None Hinv1 Hfit1 Hv1) as (Hr & _).
  rewrite Hr, Ec1, Ec. unfold payload, mem_after. by rewrite lookup_insert_eq.
Qed.

(** C2 (as amended): the previous value.  On such an engine a write
    [Access id d] returns the payload the id held when the access
    began: the one a reference array holds for it, which is the payload
    of the last write to the id and all zeros when no call has named
    the id; or it returns [ErrStashOverflow], when the stash it leaves
    behind is longer than the stash limit.  Either way the payload
    written is what the id holds afterwards, so the next write to the
    id returns it (or [ErrStashOverflow]). *)
Theorem C2_previous_value (c : Config) (o0 : PathORAM) (ops : list op)
    (id : Z) (d d' : bytes) :
  NewInMemory c = Ok o0 → ct_fits o0 →
  0 ≤ id < NumBlocks c →
  Z.of_nat (length d) = BlockSize c → Z.of_nat (length d') = BlockSize c →
  let o := run rand_Reader o0 ops in
  let w := Access rand_Reader id (Some d) o in
  let w' := Access rand_Reader id (Some d') w.2 in
  w.1 = (if StashLimit (cfg o0) <? Z.of_nat (length (stash w.2))
         then Err ErrStashOverflow else Ok (Some (ref_payload (cfg o0) ops id))) ∧
  ((∀ a, a ∈ ops → a.1 ≠ id) → ref_payload (cfg o0) ops id = zeros (BlockSize c)) ∧
  ref_payload (cfg o0) (ops ++ [(id, Some d)]) id = d ∧
  w'.1 = (if StashLimit (cfg o0) <? Z.of_nat (length (stash w'.2))
          then Err ErrStashOverflow else Ok (Some d)).
Proof.
  intros Hnew Hfit0 Hid Hd Hd'. cbv zeta.
  destruct (NewInMemory_cfg c o0 Hnew) as (EN & EB & _).
  destruct (run_inv rand_Reader c o0 ops Hnew Hfit0) as (Hinv & Hfit & Ec & _).
  set (o := run rand_Reader o0 ops) in *. set (mem := ref_run (cfg o0) ops) in *.
  assert (∀ x, Z.of_nat (length x) = BlockSize c → valid_op (cfg o0) (id, Some x) = true) as Hv.
  { intros x Hx. apply valid_op_true. rewrite EN, EB. split; [done|]. by intros ? [= <-]. }
  destruct (Access_result rand_Reader o mem id (Some d) Hinv Hfit) as (Hw & Hinv1 & Hfit1 & Ec1 & _).
  { rewrite Ec. by apply Hv. }
  set (w := Access rand_Reader id (Some d) o) in *.
  split; [by rewrite Hw, Ec|]. split.
  { intros Hfresh. rewrite <- EB. by apply ref_payload_fresh. }
  split.
  { rewrite ref_payload_snoc by (by apply Hv). done. }
  destruct (Access_result rand_Reader w.2 _ id (Some d') Hinv1 Hfit1) as (Hw' & _).
  { rewrite Ec1, Ec. by apply Hv. }
  rewrite Hw', Ec1, Ec. unfold payload, mem_after. by rewrite lookup_insert_eq.
Qed.

(** C7 (as amended): the first read.  On such an engine, for an id in
    [0, N) that no call has named, [Read id] returns B zero bytes,
    unless the stash it leaves behind is longer than the stash limit,
    in which case it returns [ErrStashOverflow]; either way the
    position map, which had no entry for the id, has one afterwards,
    and [Size] has grown by one. *)
Theorem C7_fresh_read (c : Config) (o0 : PathORAM) (ops : list op) (id : Z) :
  NewInMemory c = Ok o0 → ct_fits o0 →
  0 ≤ id < NumBlocks c →
  (∀ a, a ∈ ops → a.1 ≠ id) →
  let o := run rand_Reader o0 ops in
  let r := Read rand_Reader id o in
  r.1 = (if StashLimit (cfg o0) <? Z.of_nat (length (stash r.2))
         then Err ErrStashOverflow else Ok (Some (zeros (BlockSize c)))) ∧
  Z.of_nat (length (zeros (BlockSize c))) = BlockSize c ∧
  posMap o !! id = None ∧ is_Some (posMap r.2 !! id) ∧
  Size r.2 = Size o + 1.
Proof.
  intros Hnew Hfit0 Hid Hfresh. cbv zeta.
  destruct (NewInMemory_cfg c o0 Hnew) as (EN & EB & _ & HB & _).
  destruct (run_inv rand_Reader c o0 ops Hnew Hfit0) as (Hinv & Hfit & Ec & _).
  set (o := run rand_Reader o0 ops) in *. set (mem := ref_run (cfg o0) ops) in *.
  destruct (ref_payload_fresh (cfg o0) ops id Hfresh) as [Hnone Hz]. fold mem in Hnone.
  assert (posMap o !! id = None) as Hpm.
  { destruct (posMap o !! id) eqn:E; [|done].
    destruct (proj1 (posMap_mem o mem id Hinv) ltac:(by rewrite E)) as [? ?]. congruence. }
  rewrite Read_Access.
  destruct (Access_result rand_Reader o mem id None Hinv Hfit)
    as (Hr & _ & _ & _ & _ & _ & Hpm' & _).
  { apply valid_op_true. rewrite Ec, EN. done. }
  set (r := Access rand_Reader id None o) in *.
  split.
  { rewrite Hr, Ec. unfold payload. by rewrite Hnone, EB. }
  split; [apply zeros_length; lia|]. split; [done|]. split.
  { rewrite Hpm', lookup_insert_eq. eauto. }
  unfold Size. rewrite Hpm', map_size_insert_None by done. lia.
Qed.

(** C10 (as amended): the effect of an access that reports the
    overflow.  On such an engine, when a call of [Access] that passes
    the checks returns [ErrStashOverflow], its effect has been applied
    all the same: the steps before the eviction have run without error
    and have left the fresh leaf in the position map and, for a write,
    the block with the new payload in the stash; the engine returned
    has the fresh leaf in its position map and, for a write, holds the
    block with the new payload and the fresh leaf, in the stash or, when
    the eviction has placed it, in a bucket of the path of that leaf;
    and the [Read] of the id that follows returns the payload written,
    unless it reports the overflow in its turn. *)
Theorem C10_overflow_keeps_effect (c : Config) (o0 : PathORAM) (ops : list op)
    (id : Z) (nd : option bytes) :
  NewInMemory c = Ok o0 → ct_fits o0 →
  valid_op (cfg o0) (id, nd) = true →
  let o := run rand_Reader o0 ops in
  let w := Access rand_Reader id nd o in
  let l' := fresh_leaf rand_Reader o id in
  w.1 = Err ErrStashOverflow →
  (∃ v o1, serve rand_Reader id nd o = (Ok v, o1) ∧
           w = evictStep rand_Reader v o1 ∧
           posMap o1 !! id = Some l' ∧
           ∀ d, nd = Some d → mkblock id l' d ∈ stash o1) ∧
  posMap w.2 !! id = Some l' ∧
  (∀ d, nd = Some d →
        mkblock id l' d ∈ stash w.2 ∨
        ∃ (k : nat) bkt B,
          buckets (storage w.2) !! k = Some bkt ∧ B ∈ bkt ∧
          ID B = id ∧ Leaf B = l' ∧ Decrypt id l' (Data B) = Ok d ∧
          Z.of_nat k ∈ Path (height o0) (numLeaves o0) l') ∧
  ∀ d, nd = Some d →
       let r := Read rand_Reader id w.2 in
       r.1 = (if StashLimit (cfg o0) <? Z.of_nat (length (stash r.2))
              then Err ErrStashOverflow else Ok (Some d)).
Proof.
  intros Hnew Hfit0 Hv0. cbv zeta. intros _.
  destruct (run_inv rand_Reader c o0 ops Hnew Hfit0) as (Hinv & Hfit & Ec & Eh & EL).
  set (o := run rand_Reader o0 ops) in *. set (mem := ref_run (cfg o0) ops) in *.
  assert (valid_op (cfg o) (id, nd) = true) as Hv by (by rewrite Ec).
  destruct (Access_result rand_Reader o mem id nd Hinv Hfit Hv)
    as (Hw & Hinv1 & Hfit1 & Ec1 & Eh1 & EL1 & Hpm & _).
  split.
  { pose proof Hinv as [[dp Hsh] Hc Hmem].
    pose proof (proj1 (valid_op_true _ _) Hv) as [Hid Hd]. cbn in Hid, Hd.
    destruct (serve_spec rand_Reader o mem dp id nd Hsh Hc Hmem Hfit Hid Hd)
      as (pn & t1 & st2 & Hserve & _ & _ & _ & _ & _ & _ & _ & _ & Hin & _).
    eexists _, _. split; [exact Hserve|]. split.
    { rewrite (Access_valid rand_Reader o id nd Hv), access_split.
      by erewrite bind_Ok by exact Hserve. }
    split; [cbn; by rewrite lookup_insert_eq|].
    intros d ->. exact Hin. }
  split; [by rewrite Hpm, lookup_insert_eq|].
  split.
  { intros d ->. set (w := Access rand_Reader id (Some d) o) in *.
    set (l' := fresh_leaf rand_Reader o id) in *.
    pose proof Hinv1 as [[dp Hsh1] (Hs & Ht & _ & Hdom) _].
    assert (posMap w.2 !! id = Some l') as Hl' by (by rewrite Hpm, lookup_insert_eq).
    assert (mem_after (cfg o) mem id (Some d) !! id = Some d) as Hm
      by (unfold mem_after; by rewrite lookup_insert_eq).
    rewrite Ec1 in Hs, Ht. rewrite EL1 in Hs, Ht.
    assert (id ∈ all_ids (buckets (storage w.2)) (stash w.2)) as Hin
      by (apply Hdom; by rewrite Hl').
    unfold all_ids in Hin. apply elem_of_app in Hin as [Hin|Hin].
    - left. apply list_elem_of_fmap in Hin as (b & Eb & Hb).
      unfold stash_ok in Hs. rewrite Forall_forall in Hs.
      destruct (Hs b Hb) as (_ & Hbp & _ & Hbm & _).
      rewrite <- Eb, Hl' in Hbp. rewrite <- Eb, Hm in Hbm.
      injection Hbp as Hbp. injection Hbm as Hbm.
      destruct b as [bi bl bd]. cbn in *. by subst.
    - right. apply tree_ids_elem in Hin as (k & bkt & B & Hk & HB & Hlive & EB).
      specialize (Ht k bkt Hk). rewrite Forall_forall in Ht.
      destruct (Ht B HB Hlive) as (Hcan & p & Hdec & _ & Hbp & Hlr & Hbm & _).
      rewrite EB, Hl' in Hbp. rewrite EB, Hm in Hbm.
      injection Hbp as Hbp. injection Hbm as Hbm. subst p.
      exists k, bkt, B. split; [done|]. split; [done|]. split; [done|].
      split; [done|]. rewrite EB, <- Hbp in Hdec. split; [done|].
      destruct Hsh1 as [Hh1 HL1 _ _ _ _].
      rewrite <- Hbp in Hcan, Hlr. rewrite <- EL1, HL1 in Hcan, Hlr.
      rewrite canPlaceAt_Path in Hcan by done.
      apply bool_decide_eq_true in Hcan.
      by rewrite <- Eh, <- Eh1, <- EL, <- EL1, Hh1, HL1. }
  intros d ->. set (w := Access rand_Reader id (Some d) o) in *.
  rewrite Read_Access.
  destruct (Access_result rand_Reader w.2 _ id None Hinv1 Hfit1) as (Hr & _).
  { apply valid_op_true. apply valid_op_true in Hv as [Hid _]. rewrite Ec1. done. }
  rewrite Hr, Ec1, Ec. unfold payload, mem_after. by rewrite lookup_insert_eq.
Qed.


(** C5, for the engines on which the [int32] comparisons of the
    constant-time mode are exact: placement.  On an engine that
    [NewInMemory] has built (in constant-time mode: with N at most
    2^32 - 1 and a height of at most 32), after any sequence of calls
    and under every strategy and mode, every slot of a bucket [k] of
    the tree whose id is not the empty marker has a leaf in [0, L) and
    [canPlaceAt leaf k] holds: [k] is on the path of that leaf. *)
Theorem C5_placement (c : Config) (o0 : PathORAM) (ops : list op) :
  NewInMemory c = Ok o0 → ct_fits o0 →
  let o := run rand_Reader o0 ops in
  ∀ (k : nat) (bkt : list Block) (B : Block),
    buckets (storage o) !! k = Some bkt → B ∈ bkt → ID B ≠ EmptyBlockID →
    0 ≤ Leaf B < numLeaves o ∧
    canPlaceAt (numLeaves o) (Leaf B) (Z.of_nat k) = true ∧
    Z.of_nat k ∈ Path (height o) (numLeaves o) (Leaf B).
Proof.
  intros Hnew Hfit0. cbv zeta. intros k bkt B Hk HB Hlive.
  destruct (run_inv rand_Reader c o0 ops Hnew Hfit0) as (Hinv & _).
  set (o := run rand_Reader o0 ops) in *.
  destruct Hinv as [[dp [Hh HL _ _ _ _]] (_ & Ht & _) _].
  specialize (Ht k bkt Hk). rewrite Forall_forall in Ht.
  destruct (Ht B HB Hlive) as (Hcan & p & _ & _ & _ & Hleaf & _).
  split; [done|]. split; [done|].
  rewrite Hh, HL in *. rewrite canPlaceAt_Path in Hcan by done.
  by apply bool_decide_eq_true in Hcan.
Qed.

(** C6, for the same engines: uniqueness and count.  After any
    sequence of calls the number of ids in the position map is the
    number of blocks, in the tree and in the stash, whose id is not the
    empty marker; no id occurs twice among them; and every one of them
    is in [0, N). *)
Theorem C6_unique_count (c : Config) (o0 : PathORAM) (ops : list op) :
  NewInMemory c = Ok o0 → ct_fits o0 →
  let o := run rand_Reader o0 ops in
  Size o = Z.of_nat (length (tree_blocks o) + length (stash_blocks o)) ∧
  NoDup (held_ids o) ∧
  ∀ i, i ∈ held_ids o → 0 ≤ i < NumBlocks c ∧ is_Some (posMap o !! i).
Proof.
  intros Hnew Hfit0. cbv zeta.
  destruct (NewInMemory_cfg c o0 Hnew) as (EN & _).
  destruct (run_inv rand_Reader c o0 ops Hnew Hfit0) as (Hinv & _ & Ec & _).
  set (o := run rand_Reader o0 ops) in *.
  split.
  { unfold Size. rewrite (size_posMap o _ Hinv). unfold held_ids.
    rewrite length_app, !length_fmap. lia. }
  rewrite (held_ids_all o _ Hinv). split; [apply Hinv|].
  intros i Hi. split; [|by apply (all_ids_posMap o _ i Hinv)].
  rewrite <- EN, <- Ec. destruct Hinv as [_ (Hs & Ht & _) _].
  unfold all_ids in Hi. apply elem_of_app in Hi as [Hi|Hi].
  - apply list_elem_of_fmap in Hi as (b & -> & Hb).
    unfold stash_ok in Hs. rewrite Forall_forall in Hs. by destruct (Hs b Hb).
  - apply tree_ids_elem in Hi as (k & bkt & B & Hk & HB & Hl & <-).
    specialize (Ht k bkt Hk). rewrite Forall_forall in Ht.
    by destruct (Ht B HB Hl) as (_ & p & _ & ? & _).
Qed.

Variable rand_Reader' : nat → Z.

(** C4 (as amended): the constant-time mode.  Take a configuration with
    the constant-time mode off and the same configuration with the mode
    on (with N at most 2^32 - 1 and a height of at most 32), and run
    any sequence of calls of [Access] on the two engines [NewInMemory]
    builds, each with a random source of its own (the two may be the
    same).  Call by call the two engines return the same result, the
    same payload or the same error, except that one of them may return
    [ErrStashOverflow] where the other does not. *)
Theorem C4_constant_time_results (c : Config) (o0 o0' : PathORAM) (ops : list op) :
  NewInMemory (set_ConstantTime false c) = Ok o0 →
  NewInMemory (set_ConstantTime true c) = Ok o0' →
  ct_fits o0' →
  Forall2 same_but_overflow
    (results rand_Reader o0 ops) (results rand_Reader' o0' ops).
Proof.
  intros Hnew Hnew' Hfit'.
  destruct (NewInMemory_cfg _ _ Hnew) as (EN & EB & _ & _ & _ & _ & Ect).
  destruct (NewInMemory_cfg _ _ Hnew') as (EN' & EB' & _).
  apply (results_agree rand_Reader rand_Reader' o0 o0' ∅ ops).
  - by eapply NewInMemory_inv.
  - by eapply NewInMemory_inv.
  - unfold ct_fits. rewrite Ect. done.
  - done.
  - by rewrite EN, EN'.
  - by rewrite EB, EB'.
Qed.

End Claims.

(** ** The claims at concrete inputs *)

(** C9 at N = 10, B = 32: the ids -1, 10 and 13, and writes of 31, 33
    and 0 bytes. *)
Lemma C9_validation_errors_witness :
  let o := engine_of (mkConfig 10 32 4 100 EvictLevelByLevel false) in
  let rnd := stream [] in
  let d32 : bytes := replicate 32 xab in
  let d31 : bytes := replicate 31 xab in
  let d33 : bytes := replicate 33 xab in
  let d0 : bytes := [] in
  Access rnd (-1) None o = (Err ErrInvalidBlockID, o) ∧
  Read rnd 10 o = (Err ErrInvalidBlockID, o) ∧
  Write rnd 13 (Some d32) o = (Err ErrInvalidBlockID, o) ∧
  Write rnd 0 (Some d31) o = (Err ErrInvalidDataSize, o) ∧
  Access rnd 0 (Some d33) o = (Err ErrInvalidDataSize, o) ∧
  Write rnd 0 (Some d0) o = (Err ErrInvalidDataSize, o).
Proof.
  cbv zeta.
  pose proof (@C9_validation_errors NoOpEncryptor (stream [])
                (engine_of (mkConfig 10 32 4 100 EvictLevelByLevel false))) as H.
  destruct (H (-1)) as [H1 _]. destruct (H 10) as [H2 _]. destruct (H 13) as [H3 _].
  destruct (H 0) as [_ H4]. clear H.
  destruct (H1 ltac:(left; lia) None) as (H1' & _ & _).
  destruct (H2 ltac:(right; vm_compute; discriminate) None) as (_ & H2' & _).
  destruct (H3 ltac:(right; vm_compute; discriminate) (Some (replicate 32 xab)))
    as (_ & _ & H3').
  destruct (H4 ltac:(vm_compute; split; [discriminate|reflexivity])) as [H5 H6].
  split; [exact H1'|]. split; [exact H2'|]. split; [exact H3'|].
  split; [apply H6; vm_compute; discriminate|].
  split; [apply H5; vm_compute; discriminate|].
  apply H6; vm_compute; discriminate.
Defined.

(** C1 at N = 10, B = 32, Z = 4: a write of 32 bytes 0xAB to id 0,
    then the read of id 0. *)
Lemma C1_write_then_read_witness :
  let c := mkConfig 10 32 4 0 EvictLevelByLevel false in
  let rnd := stream [3; 1; 2] in
  let d : bytes := replicate 32 xab in
  NewInMemory c = Ok (engine_of c) ∧
  (Read rnd 0 (Write rnd 0 (Some d) (engine_of c)).2).1 = Ok (Some d).
Proof.
  cbv zeta. split; [vm_compute; reflexivity|].
  pose proof (@C1_write_then_read NoOpEncryptor NoOp_correct (stream [3; 1; 2])
              (mkConfig 10 32 4 0 EvictLevelByLevel false)
              (engine_of (mkConfig 10 32 4 0 EvictLevelByLevel false))
              [] 0 (replicate 32 xab)) as H.
  cbv zeta in H. unfold run in H. cbn [foldl] in H.
  destruct H as [_ H].
  - vm_compute; reflexivity.
  - intros H. vm_compute in H. discriminate H.
  - vm_compute. split; [discriminate|reflexivity].
  - vm_compute; reflexivity.
  - rewrite H. vm_compute. reflexivity.
Defined.

(** C1 as stated fails at N = 3, B = 1, Z = 1 and a stash limit of 1,
    level by level: after writes to the ids 2 and 0, the write to id 1
    succeeds and the read of id 1 that follows returns
    [ErrStashOverflow]. *)
Lemma C1_counterexample :
  let c := mkConfig 3 1 1 1 EvictLevelByLevel false in
  let rnd := stream [0; 1; 0; 1; 0; 0; 1] in
  let ops : list op := [(2, Some [x04]); (0, Some [x07])] in
  let o := run rnd (engine_of c) ops in
  let d : bytes := [x09] in
  let w := Write rnd 1 (Some d) o in
  NewInMemory c = Ok (engine_of c) ∧
  w.1 = Ok (Some [x00]) ∧
  (Read rnd 1 w.2).1 = Err ErrStashOverflow.
Proof. cbv zeta. repeat split; vm_compute; reflexivity. Qed.

(** C2 at N = 10, B = 16, Z = 4: three writes to id 0 return sixteen
    zeros, then the 0xAA of the first write, then the 0xBB of the
    second. *)
Lemma C2_previous_value_witness :
  let c := mkConfig 10 16 4 0 EvictLevelByLevel false in
  let rnd := stream [1; 0; 2; 3] in
  let da : bytes := replicate 16 xaa in
  let db : bytes := replicate 16 xbb in
  let dc : bytes := replicate 16 xcc in
  let w1 := Access rnd 0 (Some da) (engine_of c) in
  let w2 := Access rnd 0 (Some db) w1.2 in
  let w3 := Access rnd 0 (Some dc) w2.2 in
  NewInMemory c = Ok (engine_of c) ∧
  w1.1 = Ok (Some (replicate 16 x00)) ∧
  w2.1 = Ok (Some da) ∧
  w3.1 = Ok (Some db).
Proof.
  cbv zeta. split; [vm_compute; reflexivity|].
  pose proof (@C2_previous_value NoOpEncryptor NoOp_correct (stream [1; 0; 2; 3])
                (mkConfig 10 16 4 0 EvictLevelByLevel false)
                (engine_of (mkConfig 10 16 4 0 EvictLevelByLevel false))) as H.
  pose proof (H [] 0 (replicate 16 xaa) (replicate 16 xbb)) as Ha.
  pose proof (H [(0, Some (replicate 16 xaa : bytes))] 0 (replicate 16 xbb) (replicate 16 xcc)) as Hb.
  clear H. cbv zeta in Ha, Hb.
  unfold run, step in Ha, Hb. cbn [foldl fst snd] in Ha, Hb.
  destruct Ha as (H1 & _ & _ & H2);
    [vm_compute; reflexivity|intros E; vm_compute in E; discriminate E
    |vm_compute; split; [discriminate|reflexivity]
    |vm_compute; reflexivity|vm_compute; reflexivity|].
  destruct Hb as (_ & _ & _ & H3);
    [vm_compute; reflexivity|intros E; vm_compute in E; discriminate E
    |vm_compute; split; [discriminate|reflexivity]
    |vm_compute; reflexivity|vm_compute; reflexivity|].
  split; [rewrite H1; vm_compute; reflexivity|].
  split; [rewrite H2; vm_compute; reflexivity|].
  rewrite H3; vm_compute; reflexivity.
Defined.

(** C2 as stated fails at N = 3, B = 1, Z = 1 and a stash limit of 1,
    level by level: after writes to the ids 1 and 2, the write to id 0,
    which no call has named, returns [ErrStashOverflow] and no
    payload. *)
Lemma C2_counterexample :
  let c := mkConfig 3 1 1 1 EvictLevelByLevel false in
  let rnd := stream [0; 1; 0; 1; 0; 1; 0] in
  let o := run rnd (engine_of c) [(1, Some [x01]); (2, Some [x01])] in
  NewInMemory c = Ok (engine_of c) ∧
  (Access rnd 0 (Some [x09]) o).1 = Err ErrStashOverflow.
Proof. cbv zeta. split; vm_compute; reflexivity. Qed.

(** C7 at N = 10, B = 32, Z = 4: the first read of id 5 on a fresh
    engine. *)
Lemma C7_fresh_read_witness :
  let c := mkConfig 10 32 4 0 EvictLevelByLevel false in
  let rnd := stream [2; 1] in
  let r := Read rnd 5 (engine_of c) in
  NewInMemory c = Ok (engine_of c) ∧
  r.1 = Ok (Some (replicate 32 x00)) ∧
  posMap (engine_of c) !! 5 = None ∧ is_Some (posMap r.2 !! 5) ∧
  Size (engine_of c) = 0 ∧ Size r.2 = 1.
Proof.
  cbv zeta. split; [vm_compute; reflexivity|].
  pose proof (@C7_fresh_read NoOpEncryptor NoOp_correct (stream [2; 1])
                (mkConfig 10 32 4 0 EvictLevelByLevel false)
                (engine_of (mkConfig 10 32 4 0 EvictLevelByLevel false)) [] 5) as H.
  cbv zeta in H. unfold run in H. cbn [foldl] in H.
  destruct H as (H1 & _ & H2 & H3 & H4).
  - vm_compute; reflexivity.
  - intros E. vm_compute in E. discriminate E.
  - vm_compute. split; [discriminate|reflexivity].
  - intros a Ha. by apply elem_of_nil in Ha.
  - split; [rewrite H1; vm_compute; reflexivity|].
    split; [exact H2|]. split; [exact H3|].
    split; [vm_compute; reflexivity|]. rewrite H4. vm_compute. reflexivity.
Defined.

(** C7 as stated fails at N = 3, B = 1, Z = 1 and a stash limit of 1,
    level by level: after writes to the ids 1 and 2 the first read of
    id 0 returns [ErrStashOverflow]. *)
Lemma C7_counterexample :
  let c := mkConfig 3 1 1 1 EvictLevelByLevel false in
  let rnd := stream [0; 1; 0; 1; 0; 1] in
  let ops : list op := [(1, Some [x01]); (2, Some [x01])] in
  let o := run rnd (engine_of c) ops in
  NewInMemory c = Ok (engine_of c) ∧
  posMap o !! 0 = None ∧
  (Read rnd 0 o).1 = Err ErrStashOverflow.
Proof. cbv zeta. repeat split; vm_compute; reflexivity. Qed.

(** C10 at N = 3, B = 1, Z = 1 and a stash limit of 1: the write to
    id 0 returns [ErrStashOverflow], the position map holds the fresh
    leaf 1, and the read that follows returns the payload written. *)
Lemma C10_overflow_keeps_effect_witness :
  let c := mkConfig 3 1 1 1 EvictLevelByLevel false in
  let rnd := stream [0; 1; 0; 1; 0; 1; 0] in
  let d : bytes := [x09] in
  let ops : list op := [(1, Some [x01]); (2, Some [x01])] in
  let o := run rnd (engine_of c) ops in
  let w := Access rnd 0 (Some d) o in
  NewInMemory c = Ok (engine_of c) ∧
  w.1 = Err ErrStashOverflow ∧
  posMap w.2 !! 0 = Some 1 ∧
  (Read rnd 0 w.2).1 = Ok (Some d).
Proof.
  intros c rnd d ops o w.
  assert (NewInMemory c = Ok (engine_of c)) as Hnew by (vm_compute; reflexivity).
  assert (w.1 = Err ErrStashOverflow) as Hov by (vm_compute; reflexivity).
  split; [exact Hnew|]. split; [exact Hov|].
  pose proof (@C10_overflow_keeps_effect NoOpEncryptor NoOp_correct rnd c (engine_of c)
                ops 0 (Some d) Hnew) as H.
  cbv zeta in H. fold o in H. fold w in H.
  destruct H as (_ & H1 & _ & H2).
  - intros E. vm_compute in E. discriminate E.
  - vm_compute; reflexivity.
  - exact Hov.
  - split.
    + rewrite H1. vm_compute. reflexivity.
    + rewrite (H2 d eq_refl). vm_compute. reflexivity.
Defined.

(** C10 as stated fails: the payload of a write that reports the
    overflow need not be in the stash when [Access] returns.  At N = 4,
    B = 1, Z = 1 and a stash limit of 1, after writes to the ids 1, 2
    and 3, the write to id 0 returns [ErrStashOverflow] with the blocks
    3 and 2 in the stash; the eviction has placed the block of id 0,
    with the payload written, in the leaf bucket 3 of its fresh
    leaf 0. *)
Lemma C10_counterexample :
  let c := mkConfig 4 1 1 1 EvictLevelByLevel false in
  let rnd := stream [0; 2; 0; 2; 0; 3; 0; 0] in
  let d : bytes := [x09] in
  let ops : list op := [(1, Some [x01]); (2, Some [x02]); (3, Some [x03])] in
  let o := run rnd (engine_of c) ops in
  let w := Access rnd 0 (Some d) o in
  NewInMemory c = Ok (engine_of c) ∧
  w.1 = Err ErrStashOverflow ∧
  fresh_leaf rnd o 0 = 0 ∧
  b_id <$> stash w.2 = [3; 2] ∧
  buckets (storage w.2) !! 3%nat = Some [mkBlock 0 0 d].
Proof. cbv zeta. repeat split; vm_compute; reflexivity. Qed.



(** C5 at N = 7, Z = 1, greedy by depth, after three writes. *)
Lemma C5_placement_witness :
  let c := mkConfig 7 1 1 100 EvictGreedyByDepth false in
  let rnd := stream [2; 0; 3; 0; 2; 1] in
  let ops : list op := [(1, Some [x02]); (3, Some [x08]); (0, Some [x04])] in
  let o := run rnd (engine_of c) ops in
  NewInMemory c = Ok (engine_of c) ∧
  ∀ (k : nat) (bkt : list Block) (B : Block),
    buckets (storage o) !! k = Some bkt → B ∈ bkt → ID B ≠ EmptyBlockID →
    0 ≤ Leaf B < numLeaves o ∧
    canPlaceAt (numLeaves o) (Leaf B) (Z.of_nat k) = true ∧
    Z.of_nat k ∈ Path (height o) (numLeaves o) (Leaf B).
Proof.
  intros c rnd ops o.
  assert (NewInMemory c = Ok (engine_of c)) as Hnew by (vm_compute; reflexivity).
  split; [exact Hnew|].
  apply (@C5_placement NoOpEncryptor NoOp_correct rnd c (engine_of c) ops Hnew).
  intros E. vm_compute in E. discriminate E.
Defined.

(** C6 at N = 7, Z = 1, greedy by depth, after three writes: three
    ids, three blocks. *)
Lemma C6_unique_count_witness :
  let c := mkConfig 7 1 1 100 EvictGreedyByDepth false in
  let rnd := stream [2; 0; 3; 0; 2; 1] in
  let ops : list op := [(1, Some [x02]); (3, Some [x08]); (0, Some [x04])] in
  let o := run rnd (engine_of c) ops in
  NewInMemory c = Ok (engine_of c) ∧
  Size o = 3 ∧ (length (tree_blocks o) + length (stash_blocks o))%nat = 3%nat ∧
  NoDup (held_ids o).
Proof.
  intros c rnd ops o.
  assert (NewInMemory c = Ok (engine_of c)) as Hnew by (vm_compute; reflexivity).
  split; [exact Hnew|].
  pose proof (@C6_unique_count NoOpEncryptor NoOp_correct rnd c (engine_of c) ops Hnew) as H.
  cbv zeta in H. fold o in H.
  destruct H as (H1 & H2 & _).
  - intros E. vm_compute in E. discriminate E.
  - split; [rewrite H1; vm_compute; reflexivity|].
    split; [vm_compute; reflexivity|exact H2].
Defined.

(** Where C5 fails in the code: with N = 2^33 and Z = 1 the tree has
    height 34, and the constant-time eviction, which compares bucket
    indices as [int32], takes the leaf bucket 2^33 - 1 of leaf 0 for an
    ancestor of leaf 1: a block of leaf 1 in the stash is placed
    there. *)
Lemma C5_int32_placement :
  let L := 2 ^ 33 in
  let b := mkblock 0 1 [x01] in
  ComputeTreeParams (mkConfig (2 ^ 33) 1 1 100 EvictLevelByLevel true)
  = Ok (34, L, 2 ^ 34 - 1) ∧
  head (Path 34 L 0) = Some (2 ^ 33 - 1) ∧
  canPlaceAt L 1 (2 ^ 33 - 1) = false ∧
  canPlaceAtConstantTime 34 L 1 (2 ^ 33 - 1) = true ∧
  ∃ rest, ctStash 34 L (Path 34 L 0) [b] (replicate 34 [emptyBlock 1]) []
          = Ok ([mkBlock 0 1 [x01]] :: rest, []).
Proof.
  cbv zeta. split; [vm_compute; reflexivity|]. split; [vm_compute; reflexivity|].
  split; [vm_compute; reflexivity|]. split; [vm_compute; reflexivity|].
  eexists. vm_compute. reflexivity.
Qed.

(** Where C6 fails in the code: the constant-time search compares ids
    as [int32], so the ids 0 and 2^32 are the same to it.  With
    N = 2^63 - 1 and Z = 2 (a tree of one bucket), after a write to id 0
    the first read of id 2^32 returns the payload of id 0; the position
    map then has two ids, and the engine one block. *)
Lemma C6_int32_collision :
  let c := mkConfig (2 ^ 63 - 1) 1 2 100 EvictLevelByLevel true in
  let rnd := stream [] in
  let ops : list op := [(0, Some [x01]); (2 ^ 32, None)] in
  let o := run rnd (engine_of c) ops in
  NewInMemory c = Ok (engine_of c) ∧
  results rnd (engine_of c) ops = [Ok (Some [x00]); Ok (Some [x01])] ∧
  Size o = 2 ∧
  (length (tree_blocks o) + length (stash_blocks o))%nat = 1%nat.
Proof. cbv zeta. repeat split; vm_compute; reflexivity. Qed.

(** C4 at N = 10, Z = 4, greedy by depth, with one random source for
    the two engines. *)
Lemma C4_constant_time_results_witness :
  let c := mkConfig 10 1 4 100 EvictGreedyByDepth false in
  let rnd := stream [2; 0; 1; 0; 1; 1; 0] in
  let ops : list op :=
    [(0, Some [x0a]); (1, Some [x0b]); (2, Some [x0c]); (0, None); (1, None); (7, None)] in
  let o0 := engine_of (set_ConstantTime false c) in
  let o0' := engine_of (set_ConstantTime true c) in
  NewInMemory (set_ConstantTime false c) = Ok o0 ∧
  NewInMemory (set_ConstantTime true c) = Ok o0' ∧
  Forall2 same_but_overflow (results rnd o0 ops) (results rnd o0' ops) ∧
  results rnd o0' ops
  = [Ok (Some [x00]); Ok (Some [x00]); Ok (Some [x00]);
     Ok (Some [x0a]); Ok (Some [x0b]); Ok (Some [x00])].
Proof.
  intros c rnd ops o0 o0'.
  assert (NewInMemory (set_ConstantTime false c) = Ok o0) as Hnew by (vm_compute; reflexivity).
  assert (NewInMemory (set_ConstantTime true c) = Ok o0') as Hnew' by (vm_compute; reflexivity).
  split; [exact Hnew|]. split; [exact Hnew'|]. split.
  - apply (@C4_constant_time_results NoOpEncryptor NoOp_correct rnd rnd c o0 o0' ops Hnew Hnew').
    intros _. vm_compute. split; discriminate.
  - vm_compute. reflexivity.
Defined.

(** C4 as stated fails under two-path.  With the same random source,
    N = 4, Z = 1 and a stash limit of 1, the third of three first reads
    returns [ErrStashOverflow] with the mode off and a payload with the
    mode on.  With the leaves of the accesses aligned (N = 7, three
    writes, leaves 2, 0, 3, 0, 2, 1; second paths 1, 3, 3) it is the
    constant-time engine that returns [ErrStashOverflow]. *)
Lemma C4_counterexample :
  let c := mkConfig 4 1 1 1 EvictDeterministicTwoPath false in
  let rnd := stream [0; 3; 0; 1; 2; 1; 0; 3; 0] in
  let ops : list op := [(0, None); (1, None); (2, None)] in
  let c7 := mkConfig 7 1 1 1 EvictDeterministicTwoPath false in
  let ops7 : list op := [(1, Some [x02]); (3, Some [x08]); (0, Some [x04])] in
  NewInMemory (set_ConstantTime false c) = Ok (engine_of (set_ConstantTime false c)) ∧
  NewInMemory (set_ConstantTime true c) = Ok (engine_of (set_ConstantTime true c)) ∧
  results rnd (engine_of (set_ConstantTime false c)) ops
  = [Ok (Some [x00]); Ok (Some [x00]); Err ErrStashOverflow] ∧
  results rnd (engine_of (set_ConstantTime true c)) ops
  = [Ok (Some [x00]); Ok (Some [x00]); Ok (Some [x00])] ∧
  results (stream [2; 0; 1; 3; 0; 3; 2; 1; 3]) (engine_of (set_ConstantTime false c7)) ops7
  = [Ok (Some [x00]); Ok (Some [x00]); Ok (Some [x00])] ∧
  results (stream [2; 0; 3; 0; 2; 1]) (engine_of (set_ConstantTime true c7)) ops7
  = [Ok (Some [x00]); Ok (Some [x00]); Err ErrStashOverflow].
Proof. cbv zeta. repeat split; vm_compute; reflexivity. Qed.



(** * Further properties of the code *)

Section Sequences.
Context {Enc : Encryptor} {EncOK : EncryptorCorrect Enc}.
Variable rand_Reader : nat → Z.

Lemma results_reference_from o mem ops :
  inv o mem → ct_fits o →
  Forall2 (λ r r', r = r' ∨ r = Err ErrStashOverflow)
    (results rand_Reader o ops) (ref_results (cfg o) mem ops).
Proof.
  revert o mem. induction ops as [|[id nd] ops IH]; intros o mem Hinv Hfit;
    [by apply Forall2_nil|].
  cbn [results ref_results fst snd]. unfold step, ref_step. cbn [fst snd].
  destruct (valid_op (cfg o) (id, nd)) eqn:Hv.
  - destruct (Access_result rand_Reader o mem id nd Hinv Hfit Hv)
      as (Hr & Hinv1 & Hfit1 & Ec1 & _).
    apply Forall2_cons. split.
    + rewrite Hr. apply valid_op_true in Hv as [Hid _]. cbn in Hid.
      assert ((id <? 0) || (NumBlocks (cfg o) <=? id) = false) as ->.
      { apply orb_false_iff. rewrite Z.ltb_ge, Z.leb_gt. lia. }
      destruct (_ <? _); eauto.
    + specialize (IH _ _ Hinv1 Hfit1). by rewrite Ec1 in IH.
  - rewrite (Access_invalid rand_Reader o id nd Hv). cbn [fst snd].
    apply Forall2_cons. split.
    + left. unfold validID. by destruct (_ || _).
    + by apply IH.
Qed.

(** The whole run against a plain array.  On an engine that
    [NewInMemory] has built (in constant-time mode: with N at most
    2^32 - 1 and a height of at most 32), every call of a sequence of
    calls of [Access] returns what an array of N payloads would return
    at that point: the same validation error, or the payload last
    written to the id (zeros if none), whatever calls came in between
    and whichever of them reported an overflow; or it returns
    [ErrStashOverflow]. *)
Theorem run_results_reference (c : Config) (o0 : PathORAM) (ops : list op) :
  NewInMemory c = Ok o0 → ct_fits o0 →
  Forall2 (λ r r', r = r' ∨ r = Err ErrStashOverflow)
    (results rand_Reader o0 ops) (ref_results (cfg o0) ∅ ops).
Proof.
  intros Hnew Hfit. apply results_reference_from; [|done].
  by eapply NewInMemory_inv.
Qed.

(** The stash bound.  On such an engine, a call of [Access] that
    returns without error leaves at most [StashLimit] blocks in the
    stash, and it returns [ErrStashOverflow] exactly when it has passed
    the checks and leaves more than that. *)
Theorem stash_within_limit (c : Config) (o0 : PathORAM) (ops : list op)
    (id : Z) (nd : option bytes) :
  NewInMemory c = Ok o0 → ct_fits o0 →
  let r := Access rand_Reader id nd (run rand_Reader o0 ops) in
  (∀ v, r.1 = Ok v → StashSize r.2 ≤ StashLimit (cfg o0)) ∧
  (r.1 = Err ErrStashOverflow ↔
   valid_op (cfg o0) (id, nd) = true ∧ StashLimit (cfg o0) < StashSize r.2).
Proof.
  intros Hnew Hfit0. cbv zeta.
  destruct (run_inv rand_Reader c o0 ops Hnew Hfit0) as (Hinv & Hfit & Ec & _).
  set (o := run rand_Reader o0 ops) in *. rewrite <- Ec. unfold StashSize.
  destruct (valid_op (cfg o) (id, nd)) eqn:Hv.
  - destruct (Access_result rand_Reader o _ id nd Hinv Hfit Hv) as (Hr & _ & _ & Ec1 & _).
    rewrite Hr. destruct (_ <? _) eqn:E.
    + apply Z.ltb_lt in E. split; [done|]. split; [done|]. intros _. done.
    + apply Z.ltb_ge in E. split; [intros; lia|]. split; [done|]. intros [_ ?]. lia.
  - rewrite (Access_invalid rand_Reader o id nd Hv). cbn [fst snd].
    split; [done|]. split; [|by intros [? _]].
    intros H. destruct (negb _); discriminate H.
Qed.

Lemma NoDup_bounded_length (l : list Z) (n : Z) :
  NoDup l → (∀ x, x ∈ l → 0 ≤ x < n) → Z.of_nat (length l) ≤ Z.max 0 n.
Proof.
  intros Hnd Hr.
  assert (l ⊆+ seqZ 0 n) as Hsub.
  { apply NoDup_submseteq; [done|]. intros x Hx. apply elem_of_seqZ. specialize (Hr x Hx). lia. }
  apply submseteq_length in Hsub. rewrite length_seqZ in Hsub. lia.
Qed.

(** [Size] and [Capacity].  On such an engine [Size], the number of ids
    of the position map, stays between 0 and [Capacity], which is N;
    a call of [Access] that passes the checks adds one to it when the
    id had no entry and leaves it as it is otherwise, whatever the
    call returns; a call that fails the checks leaves it as it is. *)
Theorem Size_counts_first_accesses (c : Config) (o0 : PathORAM) (ops : list op)
    (a : op) :
  NewInMemory c = Ok o0 → ct_fits o0 →
  let o := run rand_Reader o0 ops in
  let o' := step rand_Reader o a in
  0 ≤ Size o ≤ Capacity o ∧ Capacity o = NumBlocks c ∧
  Size o' = (if valid_op (cfg o0) a
             then match posMap o !! a.1 with
                  | Some _ => Size o
                  | None => Size o + 1
                  end
             else Size o).
Proof.
  intros Hnew Hfit0. cbv zeta.
  destruct (NewInMemory_cfg c o0 Hnew) as (EN & _ & HN & _).
  destruct (run_inv rand_Reader c o0 ops Hnew Hfit0) as (Hinv & Hfit & Ec & _).
  set (o := run rand_Reader o0 ops) in *.
  split; [|split].
  - unfold Size, Capacity. split; [lia|]. rewrite (size_posMap o _ Hinv).
    pose proof (NoDup_bounded_length (held_ids o) (NumBlocks (cfg o))) as H.
    rewrite Z.max_r in H by (rewrite Ec, EN; lia). apply H.
    + rewrite (held_ids_all o _ Hinv). apply Hinv.
    + intros i Hi. rewrite (held_ids_all o _ Hinv) in Hi.
      destruct Hinv as [_ (Hs & Ht & _) _].
      unfold all_ids in Hi. apply elem_of_app in Hi as [Hi|Hi].
      * apply list_elem_of_fmap in Hi as (b & -> & Hb).
        unfold stash_ok in Hs. rewrite Forall_forall in Hs. by destruct (Hs b Hb).
      * apply tree_ids_elem in Hi as (k & bkt & B & Hk & HB & Hl & <-).
        specialize (Ht k bkt Hk). rewrite Forall_forall in Ht.
        by destruct (Ht B HB Hl) as (_ & p & _ & ? & _).
  - unfold Capacity. by rewrite Ec.
  - rewrite <- Ec. unfold step. destruct a as [id nd]. cbn [fst snd].
    destruct (valid_op (cfg o) (id, nd)) eqn:Hv.
    + destruct (Access_result rand_Reader o _ id nd Hinv Hfit Hv)
        as (_ & _ & _ & _ & _ & _ & Hpm & _).
      unfold Size. rewrite Hpm. destruct (posMap o !! id) eqn:E.
      * rewrite map_size_insert_Some; [done|]. by rewrite E.
      * rewrite map_size_insert_None by done. lia.
    + by rewrite (Access_invalid rand_Reader o id nd Hv).
Qed.

(** The shape of the tree.  On such an engine no sequence of calls
    changes the configuration, the height or the number of leaves; the
    store keeps its [2^height - 1] buckets, each of exactly
    [BucketSize] slots; and the number of leaves is [2^(height-1)]. *)
Theorem tree_shape_kept (c : Config) (o0 : PathORAM) (ops : list op) :
  NewInMemory c = Ok o0 → ct_fits o0 →
  let o := run rand_Reader o0 ops in
  cfg o = cfg o0 ∧ height o = height o0 ∧ numLeaves o = numLeaves o0 ∧
  1 ≤ height o ∧ numLeaves o = 2 ^ (height o - 1) ∧
  NumBuckets (storage o) = 2 ^ height o - 1 ∧
  bucketSize (storage o) = BucketSize (cfg o0) ∧
  Forall (λ bkt, Z.of_nat (length bkt) = BucketSize (cfg o0)) (buckets (storage o)).
Proof.
  intros Hnew Hfit0. cbv zeta.
  destruct (run_inv rand_Reader c o0 ops Hnew Hfit0) as (Hinv & _ & Ec & Eh & EL).
  set (o := run rand_Reader o0 ops) in *.
  destruct Hinv as [[d [Hh HL Hbk Hbs Hslots _]] _ _].
  split; [done|]. split; [done|]. split; [done|].
  split; [lia|]. split.
  { rewrite HL, Hh. unfold pow2. f_equal. lia. }
  split; [by rewrite Hh|]. rewrite <- Ec. done.
Qed.

(** What the engine holds.  On such an engine, after any sequence of
    calls: every block of the stash carries the leaf the position map
    has for its id and the payload last written to that id, of B bytes;
    every held slot of the tree carries the leaf of the position map
    and decrypts, under its id and leaf, to that payload; and every id
    of the position map is the id of a block of the stash or of the
    tree. *)
Theorem blocks_as_recorded (c : Config) (o0 : PathORAM) (ops : list op) :
  NewInMemory c = Ok o0 → ct_fits o0 →
  let o := run rand_Reader o0 ops in
  (∀ b, b ∈ stash o →
        0 ≤ b_id b < NumBlocks c ∧ posMap o !! b_id b = Some (b_leaf b) ∧
        b_data b = ref_payload (cfg o0) ops (b_id b) ∧
        Z.of_nat (length (b_data b)) = BlockSize c) ∧
  (∀ (k : nat) bkt B, buckets (storage o) !! k = Some bkt → B ∈ bkt →
        ID B ≠ EmptyBlockID →
        0 ≤ ID B < NumBlocks c ∧ posMap o !! ID B = Some (Leaf B) ∧
        Decrypt (ID B) (Leaf B) (Data B) = Ok (ref_payload (cfg o0) ops (ID B)) ∧
        Z.of_nat (length (ref_payload (cfg o0) ops (ID B))) = BlockSize c) ∧
  (∀ i, is_Some (posMap o !! i) → i ∈ held_ids o).
Proof.
  intros Hnew Hfit0. cbv zeta.
  destruct (NewInMemory_cfg c o0 Hnew) as (EN & EB & _).
  destruct (run_inv rand_Reader c o0 ops Hnew Hfit0) as (Hinv & _ & Ec & _).
  set (o := run rand_Reader o0 ops) in *.
  pose proof Hinv as [_ (Hs & Ht & _ & Hdom) _]. rewrite Ec in Hs, Ht.
  rewrite <- EN, <- EB. split; [|split].
  - intros b Hb. unfold stash_ok in Hs. rewrite Forall_forall in Hs.
    destruct (Hs b Hb) as (Hid & Hpm & _ & Hm & Hlen).
    unfold ref_payload, payload. by rewrite Hm.
  - intros k bkt B Hk HB Hl. specialize (Ht k bkt Hk). rewrite Forall_forall in Ht.
    destruct (Ht B HB Hl) as (_ & p & Hdec & Hid & Hpm & _ & Hm & Hlen).
    unfold ref_payload, payload. by rewrite Hm.
  - intros i Hi. rewrite (held_ids_all o _ Hinv). by apply Hdom.
Qed.

(** The calls of greedy-by-depth and of the constant-time mode.  On
    such an engine, in constant-time mode or under greedy-by-depth, a
    call of [Access] that passes the checks sends to the store exactly
    these calls, whatever the id, the payload and the content of the
    tree and of the stash: a read and a write of every bucket of the
    path of the leaf read, leaf first; then the reads of all of them,
    then the writes of all of them.  That is four calls for each of the
    [height] buckets of the path. *)
Theorem calls_fixed_by_path (c : Config) (o0 : PathORAM) (ops : list op)
    (id : Z) (nd : option bytes) :
  NewInMemory c = Ok o0 → ct_fits o0 →
  valid_op (cfg o0) (id, nd) = true →
  ConstantTime c = true ∨ Strategy c = EvictGreedyByDepth →
  let o := run rand_Reader o0 ops in
  let path := Path (height o0) (numLeaves o0) (read_leaf rand_Reader o id) in
  calls (storage (Access rand_Reader id nd o).2)
  = calls (storage o) ++ drainCalls path ++ batchCalls path ∧
  Z.of_nat (length (drainCalls path ++ batchCalls path)) = 4 * height o0.
Proof.
  intros Hnew Hfit0 Hv0 Hmode. cbv zeta.
  destruct (NewInMemory_cfg c o0 Hnew) as (_ & _ & _ & _ & _ & Es & Ect).
  destruct (run_inv rand_Reader c o0 ops Hnew Hfit0) as (Hinv & Hfit & Ec & Eh & EL).
  set (o := run rand_Reader o0 ops) in *.
  assert (valid_op (cfg o) (id, nd) = true) as Hv by (by rewrite Ec).
  destruct (Access_result rand_Reader o _ id nd Hinv Hfit Hv)
    as (_ & _ & _ & _ & _ & _ & _ & Hl & _ & cs & Hcalls & Hev & _).
  rewrite Eh, EL in Hcalls, Hev.
  set (path := Path (height o0) (numLeaves o0) (read_leaf rand_Reader o id)) in *.
  assert (cs = batchCalls path) as ->.
  { assert (ConstantTime (cfg o0) = false → Strategy (cfg o0) ≠ EvictGreedyByDepth → False)
      as Hno.
    { intros H1 H2. rewrite Ect in H1. rewrite Es in H2.
      destruct Hmode as [H|H]; congruence. }
    destruct Hev as [ms Hct Hst _|Hct Hst|Hct Hst|l2 Hct Hst _|Hct]; try done.
    - exfalso. rewrite Ec in Hct, Hst. apply Hno; [done|]. by rewrite Hst.
    - exfalso. rewrite Ec in Hct, Hst. apply Hno; [done|]. by rewrite Hst. }
  split; [done|].
  assert (Z.of_nat (length path) = height o0) as Hlen.
  { pose proof Hinv as [[dp [Hh HL _ _ _ _]] _ _].
    unfold path. rewrite Path_length. rewrite <- Eh, Hh. lia. }
  rewrite length_app. unfold batchCalls. rewrite length_app, !length_fmap.
  assert (length (drainCalls path) = (2 * length path)%nat) as ->; [|lia].
  unfold drainCalls. clear. induction path as [|k p IH]; [done|].
  cbn. rewrite IH. lia.
Qed.

End Sequences.

(** ** Geometry *)

(** [canPlaceAt] and [Path].  In a tree of [2^d] leaves, for a leaf in
    range: [canPlaceAt leaf b] holds exactly for the buckets [b] of
    [Path leaf]; it holds for the root, for no negative index, and,
    among the leaf buckets, for the one of the leaf itself only. *)
Theorem canPlaceAt_on_path (d : nat) (l : Z) :
  0 ≤ l < pow2 d →
  (∀ i, canPlaceAt (pow2 d) l i = true ↔ i ∈ Path (Z.of_nat (S d)) (pow2 d) l) ∧
  canPlaceAt (pow2 d) l 0 = true ∧
  (∀ i, i < 0 → canPlaceAt (pow2 d) l i = false) ∧
  (∀ l', 0 ≤ l' < pow2 d →
         (canPlaceAt (pow2 d) l (pow2 d - 1 + l') = true ↔ l' = l)).
Proof.
  intros Hl.
  assert (∀ i, canPlaceAt (pow2 d) l i = true ↔ i ∈ Path (Z.of_nat (S d)) (pow2 d) l) as Hiff.
  { intros i. rewrite canPlaceAt_Path by done. apply bool_decide_eq_true. }
  split; [done|]. split; [|split].
  - apply Hiff. pose proof (Path_last d l Hl) as H.
    apply last_Some in H as [p ->]. apply elem_of_app. right. apply list_elem_of_here.
  - intros i Hi. destruct (canPlaceAt (pow2 d) l i) eqn:E; [|done].
    apply Hiff in E. apply Path_range in E; [lia|done].
  - intros l' Hl'. rewrite Hiff. unfold Path. rewrite Nat2Z.id.
    pose proof (leaf_bucket_depth d l Hl) as Hd.
    set (b := pow2 d - 1 + l) in *. split; [|intros ->; apply list_elem_of_here].
    destruct d as [|d].
    + rewrite pow2_0 in *. lia.
    + change (Path_loop (S (S d)) b) with (b :: Path_loop (S d) (parent b)).
      intros H. apply elem_of_cons in H as [H|H]; [unfold b in H; lia|].
      pose proof (parent_depth _ _ Hd) as Hp.
      apply (Path_loop_bound _ _ _ Hp) in H. unfold at_depth in Hp. lia.
Qed.

(** The constant-time ancestry test.  In a tree of height at most 32,
    for a leaf in range and a bucket index in [0, 2^32),
    [canPlaceAtConstantTime] gives the answer of [canPlaceAt]. *)
Theorem canPlaceAtConstantTime_agrees (h l i : Z) :
  1 ≤ h ≤ 32 → 0 ≤ l < 2 ^ (h - 1) → 0 ≤ i < 2 ^ 32 →
  canPlaceAtConstantTime h (2 ^ (h - 1)) l i = canPlaceAt (2 ^ (h - 1)) l i.
Proof.
  intros Hh Hl Hi. destruct (height_depth h) as (d & -> & EL); [lia|].
  rewrite EL in *. apply canPlaceAtConstantTime_spec; [lia|done|done].
Qed.

(** ** The constant-time search *)

(** [findInStashConstantTime] and [findInStash].  On a stash whose ids
    are distinct and in [0, 2^32 - 1) and whose payloads have B bytes,
    and for an id in that range, the two searches return the same
    index: that of the block with the id, or -1 when there is none.
    For a block found they return the same copy of its payload; on a
    miss [findInStash] returns no buffer and the constant-time search
    a buffer of B zeros. *)
Theorem findInStashConstantTime_agrees {Enc : Encryptor} (o : PathORAM) (blockID : Z) :
  NoDup (b_id <$> stash o) →
  Forall (λ b, 0 ≤ b_id b < 2 ^ 32 - 1 ∧
               Z.of_nat (length (b_data b)) = BlockSize (cfg o)) (stash o) →
  0 ≤ blockID < 2 ^ 32 - 1 → 0 ≤ BlockSize (cfg o) →
  ∃ i r,
    findInStash blockID o = (Ok (i, r), o) ∧
    findInStashConstantTime blockID o
    = (Ok (i, Some (default (zeros (BlockSize (cfg o))) r)), o) ∧
    match r with
    | None => i = -1 ∧ blockID ∉ b_id <$> stash o
    | Some data =>
        0 ≤ i ∧ ∃ b, stash o !! Z.to_nat i = Some b ∧ b_id b = blockID ∧ b_data b = data
    end.
Proof.
  intros Hnd Hst Hid HB.
  pose proof (zeros_length _ HB) as Hz.
  assert (ct_stash_ok (length (zeros (BlockSize (cfg o)))) (stash o)) as Hct.
  { eapply Forall_impl; [exact Hst|]. intros b [? ?]. split; [done|]. lia. }
  unfold findInStash, findInStashConstantTime, gets.
  destruct (decide (blockID ∈ b_id <$> stash o)) as [Hin|Hnotin].
  - apply list_elem_of_fmap in Hin as (b & Eb & Hb).
    apply list_elem_of_lookup in Hb as [i Hi].
    rewrite Forall_forall in Hst.
    destruct (Hst b (list_elem_of_lookup_2 _ _ _ Hi)) as [_ Hlen].
    exists (Z.of_nat i), (Some (b_data b)).
    rewrite (findInStash_in _ blockID 0 (stash o) i b) by done.
    rewrite (findCT_in blockID 0 (stash o) (-1) _ i b) by done.
    rewrite go_copy_same by lia. rewrite Z.add_0_l. cbn [default].
    split; [done|]. split; [done|]. split; [lia|].
    exists b. by rewrite Nat2Z.id.
  - exists (-1), None.
    rewrite (findInStash_notin _ blockID 0 (stash o)) by done.
    rewrite (findCT_notin blockID 0 (stash o) (-1)) by done.
    done.
Qed.

(** ** Configuration and construction *)

(** [Validate].  It returns [ErrInvalidConfig] exactly when N or B is
    not positive.  Otherwise it returns the configuration with a zero
    [BucketSize] replaced by 5 and a zero [StashLimit] by 100, and
    nothing else changed: negative values of the two stay as they are.
    Validating the result again changes nothing. *)
Theorem Validate_outcome (c : Config) :
  (NumBlocks c ≤ 0 ∨ BlockSize c ≤ 0 ↔ Validate c = Err ErrInvalidConfig) ∧
  (0 < NumBlocks c ∧ 0 < BlockSize c ↔
   Validate c
   = Ok (mkConfig (NumBlocks c) (BlockSize c)
           (if BucketSize c =? 0 then 5 else BucketSize c)
           (if StashLimit c =? 0 then 100 else StashLimit c)
           (Strategy c) (ConstantTime c))) ∧
  (∀ c', Validate c = Ok c' → Validate c' = Ok c' ∧ BucketSize c' ≠ 0 ∧ StashLimit c' ≠ 0).
Proof.
  split; [|split].
  - unfold Validate. destruct (_ || _) eqn:E.
    + apply orb_true_iff in E. rewrite !Z.leb_le in E. done.
    + apply orb_false_iff in E. rewrite !Z.leb_gt in E. split; [lia|done].
  - unfold Validate. destruct (_ || _) eqn:E.
    + apply orb_true_iff in E. rewrite !Z.leb_le in E. split; [lia|done].
    + apply orb_false_iff in E. rewrite !Z.leb_gt in E. done.
  - intros c' H. split; [by eapply Validate_idem|].
    apply Validate_Ok in H as (_ & _ & _ & _ & _ & HS & _ & _ & HZ).
    split; [done|]. rewrite HS. destruct (StashLimit c =? 0) eqn:E; [done|].
    by apply Z.eqb_neq in E.
Qed.

(** [ComputeTreeParams].  With a bucket size of zero (a configuration
    that [Validate] has not seen) the division panics.  With any other
    bucket size it returns a height [h] between 1 and 63 with
    [2^(h-1)] leaves and [2^h - 1] buckets, also when [N + Z - 1] wraps
    around; with a negative bucket size and a positive N that is a tree
    of one bucket. *)
Theorem ComputeTreeParams_outcome (c : Config) :
  (BucketSize c = 0 → ComputeTreeParams c = Panic) ∧
  (BucketSize c ≠ 0 →
   ∃ h, 1 ≤ h ≤ 63 ∧ ComputeTreeParams c = Ok (h, 2 ^ (h - 1), 2 ^ h - 1)) ∧
  (min_int ≤ BucketSize c < 0 → 0 < NumBlocks c ≤ max_int →
   ComputeTreeParams c = Ok (1, 1, 1)).
Proof.
  split; [|split].
  - intros E. unfold ComputeTreeParams. by rewrite E.
  - apply ComputeTreeParams_shape.
  - intros HZ HN.
    destruct (ComputeTreeParams_spec c) as (h & Hc & Hh & _ & Hmin); [lia|lia| |].
    { unfold fits_int, min_int, max_int in *. lia. }
    destruct (ceil_div_neg (NumBlocks c) (BucketSize c)) as [_ Hle]; [lia|lia|].
    assert (h = 1) as ->; [|done].
    destruct (decide (h = 1)) as [|Hne]; [done|]. specialize (Hmin 1 ltac:(lia)). lia.
Qed.

(** [NewInMemory].  It returns [ErrInvalidConfig] when N or B is not
    positive; for a positive N and B it panics on a negative
    [BucketSize] (a slice of negative length) and otherwise returns an
    engine with the validated configuration, an empty position map and
    stash, and a store of [2^height - 1] buckets of [BucketSize] empty
    slots, each with B zero bytes. *)
Theorem NewInMemory_outcome (c : Config) :
  (NumBlocks c ≤ 0 ∨ BlockSize c ≤ 0 → NewInMemory c = Err ErrInvalidConfig) ∧
  (0 < NumBlocks c → 0 < BlockSize c → BucketSize c < 0 → NewInMemory c = Panic) ∧
  (0 < NumBlocks c → 0 < BlockSize c → 0 ≤ BucketSize c →
   ∃ o, NewInMemory c = Ok o ∧ Validate c = Ok (cfg o) ∧
        posMap o = ∅ ∧ stash o = [] ∧ Size o = 0 ∧ StashSize o = 0 ∧
        1 ≤ height o ≤ 63 ∧ numLeaves o = 2 ^ (height o - 1) ∧
        NumBuckets (storage o) = 2 ^ height o - 1 ∧
        bucketSize (storage o) = BucketSize (cfg o) ∧
        blockSize (storage o) = BlockSize c ∧
        Forall (λ bkt, bkt = replicate (Z.to_nat (BucketSize (cfg o)))
                               (emptyBlock (BlockSize c)))
          (buckets (storage o))).
Proof.
  split; [|split].
  - intros H. apply (proj1 (Validate_outcome c)) in H. unfold NewInMemory. by rewrite H.
  - intros HN HB HZ. unfold NewInMemory.
    rewrite (proj1 (proj1 (proj2 (Validate_outcome c))) (conj HN HB)).
    destruct (Z.eqb_spec (BucketSize c) 0) as [|_]; [lia|].
    set (c' := mkConfig _ _ _ _ _ _).
    destruct (ComputeTreeParams_shape c') as (h & Hh & ->); [cbn; lia|].
    rewrite NewInMemoryStorage_cases. cbn [BucketSize c'].
    assert (2 ≤ 2 ^ h) by (apply (Z.pow_le_mono_r 2 1 h); lia).
    by rewrite decide_True by lia.
  - intros HN HB HZ. unfold NewInMemory.
    pose proof (proj1 (proj1 (proj2 (Validate_outcome c))) (conj HN HB)) as HV.
    rewrite HV. set (c' := mkConfig _ _ _ _ _ _) in *.
    assert (0 < BucketSize c') as HZ'.
    { cbn. destruct (Z.eqb_spec (BucketSize c) 0); lia. }
    destruct (ComputeTreeParams_shape c') as (h & Hh & E); [lia|]. rewrite E.
    rewrite NewInMemoryStorage_cases.
    rewrite decide_False.
    2:{ cbn [BlockSize c'].
        assert (1 ≤ 2 ^ h) by (apply (Z.pow_le_mono_r 2 0 h); lia). lia. }
    unfold New. rewrite (Validate_idem _ _ HV), E.
    eexists. split; [reflexivity|]. cbn -[c'].
    split; [done|]. split; [done|]. split; [done|].
    split; [done|]. split; [done|]. split; [done|]. split; [done|].
    split. { unfold NumBuckets. cbn. rewrite length_replicate. lia. }
    split; [done|]. split; [done|]. by apply Forall_replicate.
Qed.

(** ** The bucket store (storage.go) *)

(** Bad calls.  [ReadBucket] and [WriteBucket] return
    [ErrInvalidConfig] for an index below 0 or not below the number of
    buckets, and [WriteBucket] also for a number of blocks other than
    the bucket size; in these cases, and after every [ReadBucket], the
    stored buckets are as they were. *)
Theorem storage_bad_calls (s : InMemoryStorage) (idx : Z) (blocks : list Block) :
  buckets (ReadBucket s idx).2 = buckets s ∧
  (idx < 0 ∨ NumBuckets s ≤ idx →
   (ReadBucket s idx).1 = Err ErrInvalidConfig ∧
   (WriteBucket s idx blocks).1 = Err ErrInvalidConfig ∧
   buckets (WriteBucket s idx blocks).2 = buckets s) ∧
  (Z.of_nat (length blocks) ≠ bucketSize s →
   (WriteBucket s idx blocks).1 = Err ErrInvalidConfig ∧
   buckets (WriteBucket s idx blocks).2 = buckets s).
Proof.
  unfold ReadBucket, WriteBucket, NumBuckets. split; [|split].
  - destruct (_ || _); [done|]. by destruct (buckets s !! Z.to_nat idx).
  - intros H.
    assert ((idx <? 0) || (Z.of_nat (length (buckets s)) <=? idx) = true) as ->; [|done].
    apply orb_true_iff. rewrite Z.ltb_lt, Z.leb_le. done.
  - intros H. destruct (_ || _); [done|].
    apply Z.eqb_neq in H. by rewrite H.
Qed.

(** Write, then read.  On a store whose buckets all have [bucketSize]
    slots (as [NewInMemoryStorage] builds it, and as it stays), a
    [WriteBucket] of [bucketSize] blocks at an index in range succeeds;
    the [ReadBucket] of that index then returns the blocks written, the
    [ReadBucket] of any other index what it returned before; and the
    number of buckets and of slots is unchanged. *)
Theorem storage_write_then_read (s : InMemoryStorage) (idx : Z) (blocks : list Block) :
  Forall (λ bkt, Z.of_nat (length bkt) = bucketSize s) (buckets s) →
  0 ≤ idx < NumBuckets s → Z.of_nat (length blocks) = bucketSize s →
  let s' := (WriteBucket s idx blocks).2 in
  (WriteBucket s idx blocks).1 = Ok tt ∧
  (ReadBucket s' idx).1 = Ok blocks ∧
  (∀ j, j ≠ idx → (ReadBucket s' j).1 = (ReadBucket s j).1) ∧
  NumBuckets s' = NumBuckets s ∧ bucketSize s' = bucketSize s ∧
  blockSize s' = blockSize s ∧
  Forall (λ bkt, Z.of_nat (length bkt) = bucketSize s') (buckets s').
Proof.
  intros Hall Hidx Hlen. cbv zeta. unfold NumBuckets in *.
  destruct (lookup_lt_is_Some_2 (buckets s) (Z.to_nat idx) ltac:(lia)) as [old Hold].
  assert (Z.of_nat (length old) = bucketSize s) as Hlo.
  { rewrite Forall_forall in Hall. apply Hall. by eapply list_elem_of_lookup_2. }
  assert (WriteBucket s idx blocks
          = (Ok tt, set_buckets (<[Z.to_nat idx := blocks]> (buckets s))
                      (log_call (CallWrite idx) s))) as HW.
  { unfold WriteBucket.
    assert ((idx <? 0) || (Z.of_nat (length (buckets s)) <=? idx) = false) as ->.
    { apply orb_false_iff. rewrite Z.ltb_ge, Z.leb_gt. lia. }
    rewrite Hlen, Z.eqb_refl. cbn [negb]. rewrite Hold.
    destruct (length old <? length blocks)%nat eqn:E; [apply Nat.ltb_lt in E; lia|].
    rewrite drop_ge by lia. by rewrite app_nil_r. }
  rewrite HW. cbn [fst snd]. split; [done|].
  assert (∀ j, (ReadBucket (set_buckets (<[Z.to_nat idx := blocks]> (buckets s))
                             (log_call (CallWrite idx) s)) j).1
               = if (j <? 0) || (Z.of_nat (length (buckets s)) <=? j)
                 then Err ErrInvalidConfig
                 else match <[Z.to_nat idx := blocks]> (buckets s) !! Z.to_nat j with
                      | Some b => Ok b
                      | None => Panic
                      end) as HR.
  { intros j. unfold ReadBucket. cbn. rewrite length_insert.
    destruct (_ || _); [done|].
    by destruct (<[Z.to_nat idx := blocks]> (buckets s) !! Z.to_nat j). }
  split; [|split].
  - rewrite HR.
    assert ((idx <? 0) || (Z.of_nat (length (buckets s)) <=? idx) = false) as ->.
    { apply orb_false_iff. rewrite Z.ltb_ge, Z.leb_gt. lia. }
    rewrite list_lookup_insert_eq by lia. done.
  - intros j Hj. rewrite HR. unfold ReadBucket.
    destruct ((j <? 0) || (Z.of_nat (length (buckets s)) <=? j)) eqn:E; [done|].
    apply orb_false_iff in E as [E1 E2]. apply Z.ltb_ge in E1.
    rewrite list_lookup_insert_ne by lia. by destruct (buckets s !! Z.to_nat j).
  - cbn. rewrite length_insert. repeat (split; [done|]).
    apply Forall_insert; done.
Qed.

(** A new store.  [NewInMemoryStorage] panics exactly when a [make]
    with a negative length is reached: on a negative number of
    buckets; on a negative bucket size when there is a bucket to make;
    on a negative block size when there is a slot to fill.  In every
    other case, also with a negative size that is never used, it
    returns a store with the three sizes as given and an empty log;
    the store has the number of buckets asked, and [ReadBucket]
    returns, for every index in range, [bucketSize] empty slots (id
    -1, leaf -1) of [blockSize] zero bytes, or no slot when the bucket
    size is not positive.  (Memory is not bounded in the model.) *)
Theorem storage_new (numBuckets bucketSz blockSz : Z) :
  (numBuckets < 0 ∨ (0 < numBuckets ∧ bucketSz < 0)
   ∨ (0 < numBuckets ∧ 0 < bucketSz ∧ blockSz < 0)
   ↔ NewInMemoryStorage numBuckets bucketSz blockSz = Panic) ∧
  (NewInMemoryStorage numBuckets bucketSz blockSz ≠ Panic →
   ∃ s, NewInMemoryStorage numBuckets bucketSz blockSz = Ok s ∧
        NumBuckets s = numBuckets ∧ bucketSize s = bucketSz ∧ blockSize s = blockSz ∧
        calls s = [] ∧
        ∀ idx, 0 ≤ idx < numBuckets →
          (ReadBucket s idx).1
          = Ok (replicate (Z.to_nat bucketSz)
                  (mkBlock EmptyBlockID (-1) (replicate (Z.to_nat blockSz) x00)))).
Proof.
  rewrite NewInMemoryStorage_cases.
  destruct (decide _) as [H|H]; split; try done.
  - intros _. eexists. split; [reflexivity|]. unfold NumBuckets. cbn.
    rewrite length_replicate. split; [lia|]. repeat (split; [done|]).
    intros idx Hidx. unfold ReadBucket. cbn. rewrite length_replicate.
    assert ((idx <? 0) || (Z.of_nat (Z.to_nat numBuckets) <=? idx) = false) as ->.
    { apply orb_false_iff. rewrite Z.ltb_ge, Z.leb_gt. lia. }
    rewrite lookup_replicate_2 by lia. done.
Qed.

(** Three calls with a negative size that return a store: no bucket
    and a bucket size of -1; no bucket and a block size of -1; two
    buckets without a slot and a block size of -1. *)
Lemma storage_new_witness :
  (∃ s, NewInMemoryStorage 0 (-1) 1 = Ok s ∧ NumBuckets s = 0 ∧ bucketSize s = -1) ∧
  (∃ s, NewInMemoryStorage 0 5 (-1) = Ok s ∧ NumBuckets s = 0 ∧ blockSize s = -1) ∧
  (∃ s, NewInMemoryStorage 2 0 (-1) = Ok s ∧ NumBuckets s = 2 ∧
        (ReadBucket s 1).1 = Ok []) ∧
  NewInMemoryStorage 2 (-1) 1 = Panic ∧
  NewInMemoryStorage 2 1 (-1) = Panic.
Proof.
  split; [|split; [|split; [|split]]].
  - destruct (proj2 (storage_new 0 (-1) 1)) as (s & E & Hn & Hb & _).
    + vm_compute. intros E. discriminate E.
    + exists s. split; [exact E|]. split; [exact Hn|exact Hb].
  - destruct (proj2 (storage_new 0 5 (-1))) as (s & E & Hn & _ & Hb & _).
    + vm_compute. intros E. discriminate E.
    + exists s. split; [exact E|]. split; [exact Hn|exact Hb].
  - destruct (proj2 (storage_new 2 0 (-1))) as (s & E & Hn & _ & _ & _ & Hr).
    + vm_compute. intros E. discriminate E.
    + exists s. split; [exact E|]. split; [exact Hn|]. apply (Hr 1). lia.
  - apply (proj1 (storage_new 2 (-1) 1)). right. left. lia.
  - apply (proj1 (storage_new 2 1 (-1))). right. right. lia.
Defined.

(** ** Errors of the store in the middle of an access *)

Section StoreErrors.
Context {Enc : Encryptor}.
Variable rand_Reader : nat → Z.

(** An engine over a store that is too small, as [New] accepts it
    (it does not compare the store with the tree): when the leaf bucket
    of the path to read is not in the store, a call of [Access] that
    passes the checks returns the [ErrInvalidConfig] of [ReadBucket],
    after this one call to the store, with the stash and the buckets
    as they were but with the position map already changed: the id now
    has the fresh leaf. *)
Theorem access_store_error_after_remap (o : PathORAM) (id : Z) (nd : option bytes) :
  valid_op (cfg o) (id, nd) = true →
  0 < numLeaves o → 1 ≤ height o →
  let l := read_leaf rand_Reader o id in
  let l' := fresh_leaf rand_Reader o id in
  NumBuckets (storage o) ≤ numLeaves o - 1 + l →
  ∃ o', Access rand_Reader id nd o = (Err ErrInvalidConfig, o') ∧
        posMap o' = <[id := l']> (posMap o) ∧
        stash o' = stash o ∧ buckets (storage o') = buckets (storage o) ∧
        calls (storage o') = calls (storage o) ++ [CallRead (numLeaves o - 1 + l)].
Proof.
  intros Hv HL Hh. cbv zeta. intros Hsmall.
  rewrite (Access_valid rand_Reader o id nd Hv), access_split.
  set (l := read_leaf rand_Reader o id) in *.
  set (l' := fresh_leaf rand_Reader o id).
  set (n := drawn_after o id).
  set (o2 := set_posMap (<[id := l']> (posMap o)) (set_drawn n o)).
  assert (∀ {A} (k : Z → M A),
            (l0 <- posMapGet id ;;
             l <- (if l0.2 then ret l0.1 else randomLeaf rand_Reader) ;;
             l' <- randomLeaf rand_Reader ;;
             posMapSet id l' ;;; k l) o = k l o2) as Hstep12.
  { unfold o2, l, l', n, read_leaf, fresh_leaf, drawn_after, posMapGet, posMapSet.
    destruct (posMap o !! id) as [lo|] eqn:Epm.
    - intros A k. unfold gets at 1. unfold bind at 1. rewrite Epm. cbn [snd fst].
      rewrite bind_ret. erewrite bind_Ok by (apply randomLeaf_spec; lia).
      done.
    - intros A k. unfold gets at 1. unfold bind at 1. rewrite Epm. cbn [snd fst].
      erewrite bind_Ok by (apply randomLeaf_spec; lia).
      erewrite bind_Ok by (apply randomLeaf_spec; cbn; lia).
      done. }
  set (b0 := numLeaves o - 1 + l) in *.
  assert (∃ rest, Path (height o) (numLeaves o) l = b0 :: rest) as [rest Hpath].
  { unfold Path. destruct (Z.to_nat (height o)) as [|k] eqn:E; [lia|].
    by exists (Path_loop k (parent b0)). }
  exists (set_storage (log_call (CallRead b0) (storage o)) o2).
  split; [|done].
  apply bind_Err. unfold serve. rewrite Hstep12.
  erewrite bind_Ok by (apply pathOf_spec; cbn; lia).
  cbn [height numLeaves o2 set_posMap set_drawn]. rewrite Hpath.
  apply bind_Err. unfold readPathIntoStash. cbn [forM_].
  apply bind_Err. apply bind_Err.
  unfold readBucket, ReadBucket. cbn [storage o2 set_posMap set_drawn].
  unfold NumBuckets in Hsmall.
  assert ((b0 <? 0) || (Z.of_nat (length (buckets (storage o))) <=? b0) = true) as ->; [|done].
  apply orb_true_iff. right. apply Z.leb_le. lia.
Qed.
End StoreErrors.

(** ** The position map (posmap.go) *)

(** [Get], [Set] and [Size] of the position map of an engine: after
    [Set id leaf], [Get id] returns the leaf and [true], and [Get] of
    any other id what it returned before; [Get] of an id never set
    returns 0 and [false]; and [Set] adds one to [Size] exactly when
    the id was not there. *)
Theorem posMap_get_set (o : PathORAM) (id id' leaf : Z) :
  let o' := (posMapSet id leaf o).2 in
  (posMapGet id o').1 = Ok (leaf, true) ∧
  (id' ≠ id → (posMapGet id' o').1 = (posMapGet id' o).1) ∧
  (posMap o !! id = None → (posMapGet id o).1 = Ok (0, false) ∧ Size o' = Size o + 1) ∧
  (is_Some (posMap o !! id) →
   (∃ l0, (posMapGet id o).1 = Ok (l0, true)) ∧ Size o' = Size o).
Proof.
  cbv zeta. unfold posMapGet, posMapSet, gets, modify, Size. cbn.
  split; [by rewrite lookup_insert_eq|]. split.
  { intros H. by rewrite lookup_insert_ne. }
  split.
  - intros H. rewrite H. split; [done|]. rewrite map_size_insert_None by done. lia.
  - intros [l0 H]. rewrite H. split; [by exists l0|].
    by rewrite map_size_insert_Some.
Qed.

(** ** The AES-GCM encryptor (encryptor.go) *)

Lemma Z_of_byte_of_Z z : Z_of_byte (byte_of_Z z) = z `mod` 256.
Proof.
  unfold Z_of_byte, byte_of_Z.
  pose proof (Z.mod_pos_bound z 256 ltac:(lia)) as Hr.
  destruct (Byte.of_N (Z.to_N (z `mod` 256))) as [b|] eqn:E.
  - apply Byte.to_of_N in E. cbn. rewrite E. lia.
  - apply Byte.of_N_None_iff in E. lia.
Qed.

(** The number a list of bytes stands for, the lowest byte first. *)
Lemma le_bytes_value (n : nat) (y : Z) :
  0 ≤ y < 2 ^ (8 * Z.of_nat n) →
  foldr (λ b acc, Z_of_byte b + 256 * acc) 0
    ((λ k : nat, byte_of_Z (Z.shiftr y (8 * Z.of_nat k))) <$> seq 0 n) = y.
Proof.
  revert y. induction n as [|n IH]; intros y Hy.
  { cbn. change (2 ^ (8 * 0)) with 1 in Hy. lia. }
  cbn [seq fmap list_fmap foldr]. rewrite Z_of_byte_of_Z.
  change (8 * Z.of_nat 0) with 0. rewrite Z.shiftr_0_r.
  rewrite <- fmap_S_seq, <- list_fmap_compose.
  assert (0 ≤ y `div` 256 < 2 ^ (8 * Z.of_nat n)) as Hy'.
  { replace (8 * Z.of_nat (S n)) with (8 + 8 * Z.of_nat n) in Hy by lia.
    rewrite Z.pow_add_r in Hy by lia. change (2 ^ 8) with 256 in Hy.
    split; [apply Z.div_pos; lia|]. apply Z.div_lt_upper_bound; lia. }
  specialize (IH (y `div` 256) Hy').
  erewrite list_fmap_ext; [rewrite IH|].
  - pose proof (Z.div_mod y 256 ltac:(lia)). lia.
  - intros _ k _. cbn. f_equal.
    change 256 with (2 ^ 8). rewrite <- Z.shiftr_div_pow2 by lia.
    rewrite Z.shiftr_shiftr by lia. f_equal. lia.
Qed.

Lemma le64_inj x y : le64 x = le64 y → x `mod` 2 ^ 64 = y `mod` 2 ^ 64.
Proof.
  intros H. unfold le64 in H.
  rewrite <- (le_bytes_value 8 (x `mod` 2 ^ 64)) by (apply Z.mod_pos_bound; lia).
  rewrite <- (le_bytes_value 8 (y `mod` 2 ^ 64)) by (apply Z.mod_pos_bound; lia).
  by rewrite H.
Qed.

Lemma makeAAD_eq (blockID leaf blockID' leaf' : Z) :
  min_int ≤ blockID ≤ max_int → min_int ≤ leaf ≤ max_int →
  min_int ≤ blockID' ≤ max_int → min_int ≤ leaf' ≤ max_int →
  makeAAD blockID leaf = makeAAD blockID' leaf' → blockID = blockID' ∧ leaf = leaf'.
Proof.
  intros H1 H2 H3 H4.
  unfold makeAAD. intros H. apply app_inj_1 in H as [Ha Hb]; [|done].
  apply le64_inj in Ha, Hb. unfold min_int, max_int in *.
  split; Z.to_euclidean_division_equations; lia.
Qed.

(** [makeAAD] keeps ids and leaves apart: it gives sixteen bytes, and
    for ids and leaves that are [int] values, two pairs of an id and a
    leaf give the same bytes only when they are the same pair. *)
Theorem makeAAD_injective (blockID leaf blockID' leaf' : Z) :
  min_int ≤ blockID ≤ max_int → min_int ≤ leaf ≤ max_int →
  min_int ≤ blockID' ≤ max_int → min_int ≤ leaf' ≤ max_int →
  length (makeAAD blockID leaf) = 16%nat ∧
  (makeAAD blockID leaf = makeAAD blockID' leaf' ↔ blockID = blockID' ∧ leaf = leaf').
Proof.
  intros H1 H2 H3 H4. split; [done|]. split; [by apply makeAAD_eq|by intros [-> ->]].
Qed.

Section AESGCMProperties.
Variable aead_Seal : bytes → bytes → bytes → bytes.
Variable aead_Open : bytes → bytes → bytes → option bytes.
Variable aead_Overhead : Z.

(** What the encryptor needs of the cipher: the tag has [Overhead]
    bytes, [Open] undoes [Seal] under the same nonce and additional
    data, and refuses other additional data of sixteen bytes. *)
Hypothesis Overhead_nonneg : 0 ≤ aead_Overhead.
Hypothesis Seal_length : ∀ n p a,
  Z.of_nat (length (aead_Seal n p a)) = Z.of_nat (length p) + aead_Overhead.
Hypothesis Open_Seal : ∀ n p a, aead_Open n (aead_Seal n p a) a = Some p.
Hypothesis Open_other : ∀ n p a a',
  length a = 16%nat → length a' = 16%nat → a ≠ a' →
  aead_Open n (aead_Seal n p a) a' = None.

(** Encrypt, then decrypt.  [Encrypt] fails with
    [ErrEncryptionFailed] when the random source fails.  With a nonce
    of twelve bytes it returns the nonce followed by the sealed
    plaintext, [Overhead] bytes longer than the plaintext; and
    [Decrypt] under the same id and leaf gives the plaintext back. *)
Theorem AESGCM_round_trip (nonce : bytes) (blockID leaf : Z) (plaintext : bytes) :
  length nonce = 12%nat →
  AESGCM_Encrypt aead_Seal None blockID leaf plaintext = Err ErrEncryptionFailed ∧
  ∃ ct, AESGCM_Encrypt aead_Seal (Some nonce) blockID leaf plaintext = Ok ct ∧
        take 12 ct = nonce ∧
        Z.of_nat (length ct) = Z.of_nat (length plaintext) + AESGCM_Overhead aead_Overhead ∧
        AESGCM_Decrypt aead_Open aead_Overhead blockID leaf ct = Ok plaintext.
Proof.
  intros Hn. split; [done|]. eexists. split; [reflexivity|].
  pose proof (Seal_length nonce plaintext (makeAAD blockID leaf)) as Hl.
  split; [by rewrite take_app_length'|]. split.
  { rewrite length_app. unfold AESGCM_Overhead, aesNonceSize. lia. }
  unfold AESGCM_Decrypt, aesNonceSize.
  destruct (_ <? _) eqn:E.
  { apply Z.ltb_lt in E. rewrite length_app in E. lia. }
  destruct (_ <? 12) eqn:E'.
  { apply Z.ltb_lt in E'. rewrite length_app in E'. lia. }
  change (Z.to_nat 12) with 12%nat.
  rewrite take_app_length', drop_app_length' by done. by rewrite Open_Seal.
Qed.

(** The ciphertext is bound to the id and the leaf.  [Decrypt] under
    another id or another leaf than those of [Encrypt] returns
    [ErrDecryptionFailed]; so does [Decrypt] of fewer bytes than a
    nonce and a tag. *)
Theorem AESGCM_bound_to_id_and_leaf (nonce : bytes) (blockID leaf blockID' leaf' : Z)
    (plaintext ct : bytes) :
  length nonce = 12%nat →
  min_int ≤ blockID ≤ max_int → min_int ≤ leaf ≤ max_int →
  min_int ≤ blockID' ≤ max_int → min_int ≤ leaf' ≤ max_int →
  AESGCM_Encrypt aead_Seal (Some nonce) blockID leaf plaintext = Ok ct →
  (blockID ≠ blockID' ∨ leaf ≠ leaf' →
   AESGCM_Decrypt aead_Open aead_Overhead blockID' leaf' ct = Err ErrDecryptionFailed) ∧
  (∀ short, Z.of_nat (length short) < 12 + aead_Overhead →
            AESGCM_Decrypt aead_Open aead_Overhead blockID' leaf' short
            = Err ErrDecryptionFailed).
Proof.
  intros Hn H1 H2 H3 H4 [= <-]. split.
  - intros Hne. unfold AESGCM_Decrypt, aesNonceSize.
    destruct (_ <? _); [done|].
    destruct (_ <? 12) eqn:E'.
    { apply Z.ltb_lt in E'. rewrite length_app in E'. lia. }
    change (Z.to_nat 12) with 12%nat.
    rewrite take_app_length', drop_app_length' by done.
    rewrite Open_other; [done|done|done|].
    intros E. apply makeAAD_eq in E; [|done..]. lia.
  - intros short Hs. unfold AESGCM_Decrypt, aesNonceSize.
    apply Z.ltb_lt in Hs. by rewrite Hs.
Qed.
End AESGCMProperties.

(** * Instances *)

(** The run of three writes and three reads at N = 10, B = 1, Z = 4. *)
Lemma run_results_reference_witness :
  let c := mkConfig 10 1 4 100 EvictLevelByLevel false in
  let rnd := stream [2; 0; 1; 0; 1; 1; 0] in
  let ops : list op :=
    [(0, Some [x0a]); (1, Some [x0b]); (0, Some [x0c]); (0, None); (1, None); (10, None)] in
  NewInMemory c = Ok (engine_of c) ∧
  ref_results (cfg (engine_of c)) ∅ ops
  = [Ok (Some [x00]); Ok (Some [x00]); Ok (Some [x0a]);
     Ok (Some [x0c]); Ok (Some [x0b]); Err ErrInvalidBlockID] ∧
  Forall2 (λ r r', r = r' ∨ r = Err ErrStashOverflow)
    (results rnd (engine_of c) ops) (ref_results (cfg (engine_of c)) ∅ ops).
Proof.
  intros c rnd ops.
  assert (NewInMemory c = Ok (engine_of c)) as Hnew by (vm_compute; reflexivity).
  split; [exact Hnew|]. split; [vm_compute; reflexivity|].
  apply (@run_results_reference NoOpEncryptor NoOp_correct rnd c (engine_of c) ops Hnew).
  intros E. vm_compute in E. discriminate E.
Defined.

(** The stash after a write at N = 3, Z = 1 and a stash limit of 1. *)
Lemma stash_within_limit_witness :
  let c := mkConfig 3 1 1 1 EvictLevelByLevel false in
  let rnd := stream [0; 1; 0; 1; 0; 1; 0] in
  let ops : list op := [(1, Some [x01])] in
  let d : bytes := [x01] in
  let r := Access rnd 2 (Some d) (run rnd (engine_of c) ops) in
  NewInMemory c = Ok (engine_of c) ∧
  r.1 = Ok (Some [x00]) ∧ StashSize r.2 ≤ 1.
Proof.
  intros c rnd ops d r.
  assert (NewInMemory c = Ok (engine_of c)) as Hnew by (vm_compute; reflexivity).
  assert (r.1 = Ok (Some [x00])) as Hr by (vm_compute; reflexivity).
  split; [exact Hnew|]. split; [exact Hr|].
  pose proof (@stash_within_limit NoOpEncryptor NoOp_correct rnd c (engine_of c) ops
                2 (Some d) Hnew) as H.
  cbv zeta in H. fold r in H.
  destruct H as [H _].
  - intros E. vm_compute in E. discriminate E.
  - exact (H _ Hr).
Defined.

(** [Size] at N = 10: the first access of id 3 after accesses of 0 and 1. *)
Lemma Size_counts_first_accesses_witness :
  let c := mkConfig 10 1 4 100 EvictLevelByLevel false in
  let rnd := stream [2; 0; 1; 0; 1; 1; 0] in
  let ops : list op := [(0, Some [x0a]); (1, None); (0, None)] in
  let a : op := (3, None) in
  let o := run rnd (engine_of c) ops in
  NewInMemory c = Ok (engine_of c) ∧
  Size o = 2 ∧ Capacity o = 10 ∧ Size (step rnd o a) = 3.
Proof.
  intros c rnd ops a o.
  assert (NewInMemory c = Ok (engine_of c)) as Hnew by (vm_compute; reflexivity).
  split; [exact Hnew|].
  pose proof (@Size_counts_first_accesses NoOpEncryptor NoOp_correct rnd c (engine_of c)
                ops a Hnew) as H.
  cbv zeta in H. fold o in H.
  destruct H as (_ & H2 & H3).
  - intros E. vm_compute in E. discriminate E.
  - split; [vm_compute; reflexivity|]. split; [exact H2|].
    rewrite H3. vm_compute. reflexivity.
Defined.

(** The tree at N = 7, Z = 1 after three writes: height 3, 7 buckets. *)
Lemma tree_shape_kept_witness :
  let c := mkConfig 7 1 1 100 EvictGreedyByDepth false in
  let rnd := stream [2; 0; 3; 0; 2; 1] in
  let ops : list op := [(1, Some [x02]); (3, Some [x08]); (0, Some [x04])] in
  let o := run rnd (engine_of c) ops in
  NewInMemory c = Ok (engine_of c) ∧
  height o = 3 ∧ numLeaves o = 4 ∧ NumBuckets (storage o) = 7 ∧
  Forall (λ bkt, Z.of_nat (length bkt) = 1) (buckets (storage o)).
Proof.
  intros c rnd ops o.
  assert (NewInMemory c = Ok (engine_of c)) as Hnew by (vm_compute; reflexivity).
  split; [exact Hnew|].
  pose proof (@tree_shape_kept NoOpEncryptor NoOp_correct rnd c (engine_of c) ops Hnew) as H.
  cbv zeta in H. fold o in H.
  destruct H as (_ & Hh & HL & _ & _ & Hn & _ & Hall).
  - intros E. vm_compute in E. discriminate E.
  - split; [rewrite Hh; vm_compute; reflexivity|].
    split; [rewrite HL; vm_compute; reflexivity|].
    split; [rewrite Hn, Hh; vm_compute; reflexivity|exact Hall].
Defined.

(** The blocks at N = 7, Z = 1 after three writes. *)
Lemma blocks_as_recorded_witness :
  let c := mkConfig 7 1 1 100 EvictGreedyByDepth false in
  let rnd := stream [2; 0; 3; 0; 2; 1] in
  let ops : list op := [(1, Some [x02]); (3, Some [x08]); (0, Some [x04])] in
  let o := run rnd (engine_of c) ops in
  NewInMemory c = Ok (engine_of c) ∧
  ref_payload (cfg (engine_of c)) ops 3 = [x08] ∧
  ∀ i, is_Some (posMap o !! i) → i ∈ held_ids o.
Proof.
  intros c rnd ops o.
  assert (NewInMemory c = Ok (engine_of c)) as Hnew by (vm_compute; reflexivity).
  split; [exact Hnew|]. split; [vm_compute; reflexivity|].
  pose proof (@blocks_as_recorded NoOpEncryptor NoOp_correct rnd c (engine_of c) ops Hnew) as H.
  cbv zeta in H. fold o in H.
  destruct H as (_ & _ & H).
  - intros E. vm_compute in E. discriminate E.
  - exact H.
Defined.

(** The calls of a write at N = 7, Z = 1 under greedy-by-depth. *)
Lemma calls_fixed_by_path_witness :
  let c := mkConfig 7 1 1 100 EvictGreedyByDepth false in
  let rnd := stream [0; 1] in
  let d : bytes := [x01] in
  let ops : list op := [] in
  let o := run rnd (engine_of c) ops in
  NewInMemory c = Ok (engine_of c) ∧
  calls (storage (Access rnd 0 (Some d) o).2)
  = [CallRead 3; CallWrite 3; CallRead 1; CallWrite 1; CallRead 0; CallWrite 0;
     CallRead 3; CallRead 1; CallRead 0; CallWrite 3; CallWrite 1; CallWrite 0].
Proof.
  intros c rnd d ops o.
  assert (NewInMemory c = Ok (engine_of c)) as Hnew by (vm_compute; reflexivity).
  split; [exact Hnew|].
  pose proof (@calls_fixed_by_path NoOpEncryptor NoOp_correct rnd c (engine_of c) ops
                0 (Some d) Hnew) as H.
  cbv zeta in H. fold o in H.
  destruct H as [H _].
  - intros E. vm_compute in E. discriminate E.
  - vm_compute; reflexivity.
  - right. reflexivity.
  - rewrite H. vm_compute. reflexivity.
Defined.

(** [canPlaceAt] in the tree of four leaves, for leaf 2: the buckets
    5, 2 and 0 of its path. *)
Lemma canPlaceAt_on_path_witness :
  Path 3 4 2 = [5; 2; 0] ∧
  canPlaceAt 4 2 5 = true ∧ canPlaceAt 4 2 0 = true ∧
  canPlaceAt 4 2 (-1) = false ∧ (canPlaceAt 4 2 (4 - 1 + 3) = true ↔ 3 = 2).
Proof.
  destruct (canPlaceAt_on_path 2 2) as (H1 & H2 & H3 & H4);
    [vm_compute; split; [discriminate|reflexivity]|].
  split; [vm_compute; reflexivity|].
  split; [apply H1; vm_compute; apply list_elem_of_here|].
  split; [exact H2|]. split; [apply H3; lia|].
  apply (H4 3). vm_compute. split; [discriminate|reflexivity].
Defined.

(** The two ancestry tests in a tree of height 3. *)
Lemma canPlaceAtConstantTime_agrees_witness :
  canPlaceAtConstantTime 3 4 2 5 = canPlaceAt 4 2 5 ∧
  canPlaceAtConstantTime 3 4 2 6 = canPlaceAt 4 2 6.
Proof.
  split.
  - apply (canPlaceAtConstantTime_agrees 3 2 5); vm_compute; split; discriminate || reflexivity.
  - apply (canPlaceAtConstantTime_agrees 3 2 6); vm_compute; split; discriminate || reflexivity.
Defined.

(** The two searches on a stash of two blocks. *)
Lemma findInStashConstantTime_agrees_witness :
  let c := mkConfig 10 1 4 100 EvictLevelByLevel false in
  let o := set_stash [mkblock 4 0 [x0a]; mkblock 7 1 [x0b]] (engine_of c) in
  findInStash 7 o = (Ok (1, Some [x0b]), o) ∧
  findInStashConstantTime 7 o = (Ok (1, Some [x0b]), o) ∧
  findInStash 5 o = (Ok (-1, None), o) ∧
  findInStashConstantTime 5 o = (Ok (-1, Some [x00]), o).
Proof.
  intros c o.
  assert (NoDup (b_id <$> stash o)) as Hnd.
  { change (NoDup [4; 7]). apply NoDup_cons. split; [|apply NoDup_singleton].
    intros H. apply list_elem_of_singleton in H. discriminate H. }
  assert (Forall (λ b, 0 ≤ b_id b < 2 ^ 32 - 1 ∧
                       Z.of_nat (length (b_data b)) = BlockSize (cfg o)) (stash o)) as Hst.
  { apply Forall_cons. split; [vm_compute; repeat split; discriminate || reflexivity|].
    apply Forall_cons. split; [vm_compute; repeat split; discriminate || reflexivity|].
    apply Forall_nil_2. }
  assert (0 ≤ BlockSize (cfg o)) as HB by (vm_compute; discriminate).
  destruct (@findInStashConstantTime_agrees NoOpEncryptor o 7 Hnd Hst) as (i & r & H1 & H2 & _);
    [vm_compute; split; [discriminate|reflexivity]|exact HB|].
  destruct (@findInStashConstantTime_agrees NoOpEncryptor o 5 Hnd Hst) as (i' & r' & H3 & H4 & _);
    [vm_compute; split; [discriminate|reflexivity]|exact HB|].
  assert (findInStash 7 o = (Ok (1, Some [x0b]), o)) as E1 by (vm_compute; reflexivity).
  assert (findInStash 5 o = (Ok (-1, None), o)) as E2 by (vm_compute; reflexivity).
  rewrite E1 in H1. apply (f_equal fst) in H1. cbn [fst] in H1. injection H1 as <- <-.
  rewrite E2 in H3. apply (f_equal fst) in H3. cbn [fst] in H3. injection H3 as <- <-.
  split; [exact E1|]. split; [exact H2|]. split; [exact E2|exact H4].
Defined.

(** A store of three buckets of two slots: a write to bucket 1. *)
Lemma storage_write_then_read_witness :
  let s := mkStorage (replicate 3 (replicate 2 (emptyBlock 1))) 2 1 [] in
  let blocks := [mkBlock 4 0 [x0a]; mkBlock (-1) (-1) [x00]] in
  let s' := (WriteBucket s 1 blocks).2 in
  (WriteBucket s 1 blocks).1 = Ok tt ∧
  (ReadBucket s' 1).1 = Ok blocks ∧
  (ReadBucket s' 2).1 = Ok (replicate 2 (emptyBlock 1)) ∧
  NumBuckets s' = 3.
Proof.
  intros s blocks s'.
  pose proof (storage_write_then_read s 1 blocks) as H. cbv zeta in H. fold s' in H.
  destruct H as (H1 & H2 & H3 & H4 & _).
  - vm_compute. repeat constructor.
  - vm_compute. split; [discriminate|reflexivity].
  - vm_compute. reflexivity.
  - split; [exact H1|]. split; [exact H2|].
    split; [rewrite H3 by discriminate; vm_compute; reflexivity|].
    rewrite H4. vm_compute. reflexivity.
Defined.

(** An engine of height 3 over a store of three buckets only. *)
Lemma access_store_error_after_remap_witness :
  let c := mkConfig 7 1 1 100 EvictLevelByLevel false in
  let s := mkStorage (replicate 3 (replicate 1 (emptyBlock 1))) 1 1 [] in
  let o := mkORAM c 3 4 s ∅ [] O in
  let rnd := stream [2; 1] in
  let d : bytes := [x05] in
  New c s ∅ = Ok o ∧
  ∃ o', Access rnd 0 (Some d) o = (Err ErrInvalidConfig, o') ∧
        posMap o' !! 0 = Some 1 ∧ stash o' = [] ∧
        calls (storage o') = [CallRead 5].
Proof.
  intros c s o rnd d. split; [vm_compute; reflexivity|].
  pose proof (@access_store_error_after_remap NoOpEncryptor rnd o 0 (Some d)) as H.
  cbv zeta in H.
  destruct H as (o' & H1 & H2 & H3 & _ & H5).
  - vm_compute. reflexivity.
  - vm_compute. reflexivity.
  - vm_compute. discriminate.
  - vm_compute. discriminate.
  - exists o'. split; [exact H1|].
    split; [rewrite H2; vm_compute; reflexivity|].
    split; [rewrite H3; reflexivity|]. rewrite H5. vm_compute. reflexivity.
Defined.

(** [makeAAD] of the id 1 and the leaf 258. *)
Lemma makeAAD_injective_witness :
  makeAAD 1 258
  = [x01; x00; x00; x00; x00; x00; x00; x00; x02; x01; x00; x00; x00; x00; x00; x00] ∧
  (makeAAD 1 258 = makeAAD 258 1 ↔ 1 = 258 ∧ 258 = 1).
Proof.
  split; [vm_compute; reflexivity|].
  apply (makeAAD_injective 1 258 258 1); vm_compute; split; discriminate.
Defined.

(** The stand-in cipher meets the assumptions made of the AEAD. *)
Lemma toy_tag_length a : length (toy_tag a) = 16%nat.
Proof.
  unfold toy_tag. rewrite length_take, length_app, length_replicate. lia.
Qed.

Lemma toy_tag_16 a : length a = 16%nat → toy_tag a = a.
Proof. intros H. unfold toy_tag. by rewrite take_app_length'. Qed.

Lemma toy_Seal_length n p a :
  Z.of_nat (length (toy_Seal n p a)) = Z.of_nat (length p) + 16.
Proof. unfold toy_Seal. rewrite length_app, toy_tag_length. lia. Qed.

Lemma toy_Open_split n p a a' :
  toy_Open n (toy_Seal n p a) a' = if decide (toy_tag a = toy_tag a') then Some p else None.
Proof.
  unfold toy_Open, toy_Seal. rewrite length_app, toy_tag_length.
  replace (length p + 16 - 16)%nat with (length p) by lia.
  rewrite drop_app_length, take_app_length.
  destruct (decide (toy_tag a = toy_tag a')) as [E|E].
  - rewrite decide_True; [done|]. split; [lia|done].
  - rewrite decide_False; [done|]. intros [_ ?]. done.
Qed.

Lemma toy_Open_Seal n p a : toy_Open n (toy_Seal n p a) a = Some p.
Proof. rewrite toy_Open_split. by rewrite decide_True. Qed.

Lemma toy_Open_other n p a a' :
  length a = 16%nat → length a' = 16%nat → a ≠ a' →
  toy_Open n (toy_Seal n p a) a' = None.
Proof.
  intros H1 H2 Hne. rewrite toy_Open_split. rewrite !toy_tag_16 by done.
  by rewrite decide_False.
Qed.

(** The encryptor over the stand-in cipher: two bytes under id 1 and
    leaf 2, with the nonce 1..12. *)
Lemma AESGCM_round_trip_witness :
  let nonce : bytes := [x01; x02; x03; x04; x05; x06; x07; x08; x09; x0a; x0b; x0c] in
  let p : bytes := [xca; xfe] in
  ∃ ct, AESGCM_Encrypt toy_Seal (Some nonce) 1 2 p = Ok ct ∧
        Z.of_nat (length ct) = 2 + 28 ∧
        AESGCM_Decrypt toy_Open 16 1 2 ct = Ok p.
Proof.
  intros nonce p.
  destruct (AESGCM_round_trip toy_Seal toy_Open 16
              toy_Seal_length toy_Open_Seal nonce 1 2 p eq_refl)
    as (_ & ct & H1 & _ & H2 & H3).
  exists ct. split; [exact H1|]. split; [exact H2|exact H3].
Defined.

(** A ciphertext made under id 1 and leaf 2, opened under leaf 3, and
    a ciphertext cut to 27 bytes. *)
Lemma AESGCM_bound_to_id_and_leaf_witness :
  let nonce : bytes := [x01; x02; x03; x04; x05; x06; x07; x08; x09; x0a; x0b; x0c] in
  let p : bytes := [xca; xfe] in
  let ct := nonce ++ toy_Seal nonce p (makeAAD 1 2) in
  AESGCM_Encrypt toy_Seal (Some nonce) 1 2 p = Ok ct ∧
  AESGCM_Decrypt toy_Open 16 1 3 ct = Err ErrDecryptionFailed ∧
  AESGCM_Decrypt toy_Open 16 1 3 (take 27 ct) = Err ErrDecryptionFailed.
Proof.
  intros nonce p ct.
  assert (AESGCM_Encrypt toy_Seal (Some nonce) 1 2 p = Ok ct) as HE by reflexivity.
  split; [exact HE|].
  destruct (AESGCM_bound_to_id_and_leaf toy_Seal toy_Open 16 toy_Open_other
              nonce 1 2 1 3 p ct eq_refl) as [H1 H2];
    [vm_compute; split; discriminate..|exact HE|].
  split; [apply H1; right; discriminate|].
  apply H2. vm_compute. reflexivity.
Defined.


(** * The engine with the tree in memory (pathoram.go) *)

Section LegacyEngine.
Import Legacy.

Lemma legacy_bind_Ok {A B} (m : M A) (k : A → M B) o a o' :
  m o = (Ok a, o') → bind m k o = k a o'.
Proof. intros H. unfold bind. by rewrite H. Qed.

Lemma legacy_upd_self o : upd o (stash o) (tree o) = o.
Proof. by destruct o. Qed.

Lemma legacy_upd_upd o st t st' t' : upd (upd o st t) st' t' = upd o st' t'.
Proof. done. Qed.

Lemma legacy_keeps_refl o : keeps o o.
Proof.
  split; [exists (stash o), (tree o); by rewrite legacy_upd_self|]. done.
Qed.

Lemma legacy_keeps_trans o1 o2 o3 : keeps o1 o2 → keeps o2 o3 → keeps o1 o3.
Proof.
  intros ((st & t & ->) & Hl & Hs & Hc) ((st' & t' & ->) & Hl' & Hs' & Hc').
  split; [by exists st', t'|]. split; [by rewrite Hl'|].
  split; [intros n H; by apply Hs', Hs|].
  intros c pm mem H. apply (Hc' c pm mem). by apply Hc.
Qed.

(** ** The blocks of the tree *)

Lemma legacy_tree_blocks_insert t k bkt :
  t !! k = Some bkt →
  ∃ pre post, tree_blocks t = pre ++ filter held bkt ++ post ∧
              ∀ bkt', tree_blocks (<[k := bkt']> t) = pre ++ filter held bkt' ++ post.
Proof.
  intros Hk. destruct (join_insert t k bkt Hk) as (pre & post & E & E').
  exists (filter held pre), (filter held post). unfold tree_blocks. split.
  - by rewrite E, !filter_app.
  - intros bkt'. by rewrite E', !filter_app.
Qed.

Lemma legacy_tree_blocks_elem t b :
  b ∈ tree_blocks t ↔ ∃ k bkt, t !! k = Some bkt ∧ b ∈ bkt ∧ held b.
Proof.
  unfold tree_blocks. rewrite list_elem_of_filter, list_elem_of_join. split.
  - intros (Hh & bkt & Hb & Hbkt). apply list_elem_of_lookup in Hbkt as [k Hk]. eauto.
  - intros (k & bkt & Hk & Hb & Hh). split; [done|]. exists bkt. split; [done|].
    by eapply list_elem_of_lookup_2.
Qed.

Lemma legacy_filter_held_kill bkt : filter held (kill <$> bkt) = [].
Proof.
  induction bkt as [|b bkt IH]; [done|]. rewrite fmap_cons.
  rewrite filter_cons_False; [done|]. unfold held, kill. cbn. lia.
Qed.

Lemma legacy_kill_dead b : ¬ held b → kill b = b.
Proof.
  unfold held, kill. intros H. destruct b as [i l dd]. cbn in *.
  f_equal. destruct (decide (i = -1)); [done|]. by exfalso.
Qed.

Lemma legacy_filter_held_fill bkt j s b :
  bkt !! j = Some s → ¬ held s → held b →
  ∃ pre post, filter held bkt = pre ++ post ∧
              filter held (<[j := b]> bkt) = pre ++ b :: post.
Proof.
  intros Hj Hs Hb. exists (filter held (take j bkt)), (filter held (drop (S j) bkt)).
  split.
  - rewrite <- (take_drop_middle bkt j s Hj) at 1.
    rewrite filter_app, filter_cons_False by done. done.
  - rewrite insert_take_drop by (by eapply lookup_lt_Some).
    rewrite filter_app, filter_cons_True by done. done.
Qed.

(** ** The content invariant under the steps of an access *)

Section ContentSteps.
Variables (c : Config) (h L : Z) (pm : gmap Z Z) (mem : gmap Z bytes).

Lemma legacy_good_held b : good c L pm mem b → held b.
Proof. intros (Hid & _). unfold held. lia. Qed.

Lemma legacy_content_perm st t st' t' :
  st' ++ tree_blocks t' ≡ₚ st ++ tree_blocks t →
  on_path h L t' →
  content_ok c h L pm mem st t → content_ok c h L pm mem st' t'.
Proof.
  intros HP Hpath (Hg & _ & Hnd & Hdom).
  split; [by rewrite HP|]. split; [done|].
  split; [by rewrite HP|]. intros i Hi. rewrite HP. by apply Hdom.
Qed.

(** Step 3 on one bucket. *)
Lemma legacy_content_drain st t k bkt :
  t !! k = Some bkt →
  content_ok c h L pm mem st t →
  content_ok c h L pm mem (st ++ filter held bkt) (<[k := kill <$> bkt]> t).
Proof.
  intros Hk Hc. destruct (legacy_tree_blocks_insert t k bkt Hk) as (pre & post & E & E').
  apply (legacy_content_perm st t); [| |done].
  - rewrite E, E', legacy_filter_held_kill. cbn [app].
    rewrite <- !app_assoc. f_equiv.
    by rewrite !app_assoc, (Permutation_app_comm (filter held bkt) pre).
  - destruct Hc as (_ & Hpath & _). intros k' bkt' b Hk' Hb Hh.
    destruct (decide (k' = k)) as [->|Hne].
    + rewrite list_lookup_insert_eq in Hk' by (by eapply lookup_lt_Some).
      injection Hk' as <-. apply list_elem_of_fmap in Hb as (b0 & -> & _).
      exfalso. revert Hh. unfold held, kill. cbn. lia.
    + rewrite list_lookup_insert_ne in Hk' by done. by eapply Hpath.
Qed.

(** A block of the stash goes to an empty slot of a bucket of its path. *)
Lemma legacy_content_place st t i b k bkt j s :
  st !! i = Some b → t !! k = Some bkt → bkt !! j = Some s → ¬ held s →
  Z.of_nat k ∈ Path h L (b_leaf b) →
  content_ok c h L pm mem st t →
  content_ok c h L pm mem (delete i st) (<[k := <[j := b]> bkt]> t).
Proof.
  intros Hi Hk Hj Hs Hp Hc.
  assert (held b) as Hb.
  { destruct Hc as (Hg & _). rewrite Forall_forall in Hg. apply legacy_good_held, Hg.
    apply elem_of_app. left. by eapply list_elem_of_lookup_2. }
  destruct (legacy_tree_blocks_insert t k bkt Hk) as (pre & post & E & E').
  destruct (legacy_filter_held_fill bkt j s b Hj Hs Hb) as (p1 & p2 & F & F').
  apply (legacy_content_perm st t); [| |done].
  - rewrite E, E', F, F'. rewrite (delete_Permutation st i b Hi) at 2.
    cbn [app]. rewrite <- !app_assoc. cbn [app].
    rewrite <- !Permutation_middle. done.
  - destruct Hc as (_ & Hpath & _). intros k' bkt' b' Hk' Hb' Hh.
    destruct (decide (k' = k)) as [->|Hne].
    + rewrite list_lookup_insert_eq in Hk' by (by eapply lookup_lt_Some).
      injection Hk' as <-. apply list_elem_of_lookup in Hb' as [j' Hj'].
      destruct (decide (j' = j)) as [->|Hnej].
      * rewrite list_lookup_insert_eq in Hj' by (by eapply lookup_lt_Some).
        by injection Hj' as <-.
      * rewrite list_lookup_insert_ne in Hj' by done.
        eapply Hpath; [done| |done]. by eapply list_elem_of_lookup_2.
    + rewrite list_lookup_insert_ne in Hk' by done. by eapply Hpath.
Qed.

(** Step 5 for a block found in the stash. *)
Lemma legacy_content_found st t i b l' new :
  content_ok c h L pm mem st t → st !! i = Some b → 0 ≤ l' < L →
  Z.of_nat (length new) = BlockSize c →
  content_ok c h L (<[b_id b := l']> pm) (<[b_id b := new]> mem)
    (<[i := mkblock (b_id b) l' new]> st) t.
Proof.
  intros (Hg & Hpath & Hnd & Hdom) Hi Hl' Hnew.
  assert (i < length st)%nat as Hlt by (by eapply lookup_lt_Some).
  unfold content_ok. rewrite <- insert_app_l by done.
  set (H := st ++ tree_blocks t) in *.
  assert (H !! i = Some b) as HHi by (unfold H; by rewrite lookup_app_l).
  assert (b_id <$> <[i := mkblock (b_id b) l' new]> H = b_id <$> H) as Eids.
  { rewrite list_fmap_insert. cbn. apply list_insert_id. by rewrite list_lookup_fmap, HHi. }
  split; [|split; [done|split]].
  - apply Forall_lookup. intros j x Hj.
    destruct (decide (j = i)) as [->|Hne].
    + rewrite list_lookup_insert_eq in Hj by (by eapply lookup_lt_Some).
      injection Hj as <-. rewrite Forall_lookup in Hg.
      destruct (Hg i b HHi) as (Hid & _). unfold good. cbn.
      rewrite !lookup_insert_eq. done.
    + rewrite list_lookup_insert_ne in Hj by done.
      rewrite Forall_lookup in Hg. destruct (Hg j x Hj) as (Hid & Hp & Hl & Hm & Hlen).
      assert (b_id x ≠ b_id b) as Hx.
      { intros E. apply Hne. eapply (NoDup_lookup _ j i (b_id x) Hnd).
        - by rewrite list_lookup_fmap, Hj.
        - by rewrite list_lookup_fmap, HHi, E. }
      unfold good. by rewrite !lookup_insert_ne.
  - by rewrite Eids.
  - intros x Hx. rewrite Eids. destruct (decide (x = b_id b)) as [->|Hne].
    + apply list_elem_of_fmap. exists b. split; [done|]. by eapply list_elem_of_lookup_2.
    + rewrite lookup_insert_ne in Hx by done. by apply Hdom.
Qed.

(** Step 5 for an id that is not held. *)
Lemma legacy_content_new st t id l' new :
  content_ok c h L pm mem st t → pm !! id = None →
  0 ≤ id < NumBlocks c → 0 ≤ l' < L → Z.of_nat (length new) = BlockSize c →
  content_ok c h L (<[id := l']> pm) (<[id := new]> mem)
    (st ++ [mkblock id l' new]) t.
Proof.
  intros (Hg & Hpath & Hnd & Hdom) Hnone Hid Hl' Hnew.
  assert ((st ++ [mkblock id l' new]) ++ tree_blocks t
          ≡ₚ mkblock id l' new :: (st ++ tree_blocks t)) as HP.
  { rewrite <- app_assoc. cbn [app]. by rewrite <- Permutation_middle. }
  assert (id ∉ b_id <$> (st ++ tree_blocks t)) as Hnotin.
  { intros Hin. apply list_elem_of_fmap in Hin as (x & -> & Hx).
    rewrite Forall_forall in Hg. destruct (Hg x Hx) as (_ & Hp & _). congruence. }
  split; [|split; [done|split]].
  - rewrite HP. apply Forall_cons. split.
    + unfold good. cbn. by rewrite !lookup_insert_eq.
    + eapply Forall_impl; [exact Hg|]. intros x (Hx & Hp & Hl & Hm & Hlen).
      assert (b_id x ≠ id) as Hne by congruence.
      unfold good. by rewrite !lookup_insert_ne.
  - rewrite HP, fmap_cons. cbn. by apply NoDup_cons.
  - intros x Hx. rewrite HP, fmap_cons. cbn.
    destruct (decide (x = id)) as [->|Hne]; [apply list_elem_of_here|].
    apply list_elem_of_further. rewrite lookup_insert_ne in Hx by done. by apply Hdom.
Qed.
End ContentSteps.

(** ** Step 3: the path is read into the stash *)

Lemma legacy_drainSlots_spec bkt o :
  drainSlots bkt o = (Ok (kill <$> bkt), upd o (stash o ++ filter held bkt) (tree o)).
Proof.
  revert o. induction bkt as [|b bkt IH]; intros o.
  - cbn. unfold ret. rewrite app_nil_r. by rewrite legacy_upd_self.
  - cbn [drainSlots]. destruct (b_id b =? -1) eqn:E; cbn [negb].
    + apply Z.eqb_eq in E.
      rewrite (legacy_bind_Ok _ _ _ _ _ (IH o)). unfold ret.
      rewrite fmap_cons, legacy_kill_dead by (unfold held; lia).
      rewrite filter_cons_False by (unfold held; lia). done.
    + apply Z.eqb_neq in E. unfold modify at 1.
      rewrite (legacy_bind_Ok _ _ o tt (set_stash (stash o ++ [b]) o)) by done.
      rewrite (legacy_bind_Ok _ _ _ _ _ (IH _)). unfold ret.
      rewrite fmap_cons, filter_cons_True by done.
      cbn. unfold upd. cbn. by rewrite <- app_assoc.
Qed.

Lemma legacy_treeAt_spec o (k : nat) bkt :
  tree o !! k = Some bkt → treeAt (Z.of_nat k) o = (Ok bkt, o).
Proof.
  intros Hk. unfold treeAt. apply lookup_lt_Some in Hk as Hlt.
  destruct (_ || _) eqn:E.
  { apply orb_true_iff in E as [E|E]; [apply Z.ltb_lt in E|apply Z.leb_le in E]; lia. }
  by rewrite Nat2Z.id, Hk.
Qed.

Lemma legacy_drainBucket_spec o (k : nat) bkt :
  tree o !! k = Some bkt →
  drainBucket (Z.of_nat k) o
  = (Ok tt, upd o (stash o ++ filter held bkt) (<[k := kill <$> bkt]> (tree o))).
Proof.
  intros Hk. unfold drainBucket.
  rewrite (legacy_bind_Ok _ _ _ _ _ (legacy_treeAt_spec o k bkt Hk)).
  rewrite (legacy_bind_Ok _ _ _ _ _ (legacy_drainSlots_spec bkt o)).
  unfold modify. by rewrite Nat2Z.id.
Qed.

Lemma legacy_keeps_drain o (k : nat) bkt :
  tree o !! k = Some bkt →
  keeps o (upd o (stash o ++ filter held bkt) (<[k := kill <$> bkt]> (tree o))).
Proof.
  intros Hk. split; [by eexists _, _|]. cbn.
  split; [by rewrite length_insert|]. split.
  - intros n Hn. apply Forall_insert; [done|]. rewrite length_fmap.
    rewrite Forall_lookup in Hn. by apply (Hn k).
  - intros c pm mem Hc. by apply legacy_content_drain.
Qed.

Lemma legacy_drainPath_spec (pn : list nat) o :
  Forall (λ k, (k < length (tree o))%nat) pn →
  ∃ o', forM_ (Z.of_nat <$> pn) drainBucket o = (Ok tt, o') ∧ keeps o o' ∧
        ∀ k, k ∈ pn ∨ emptied (tree o) k → emptied (tree o') k.
Proof.
  revert o. induction pn as [|k pn IH]; intros o Hpn.
  - exists o. split; [done|]. split; [apply legacy_keeps_refl|].
    intros k [Hk|Hk]; [by apply elem_of_nil in Hk|done].
  - apply Forall_cons in Hpn as [Hk Hpn].
    destruct (lookup_lt_is_Some_2 _ _ Hk) as [bkt Hbkt].
    set (o1 := upd o (stash o ++ filter held bkt) (<[k := kill <$> bkt]> (tree o))).
    destruct (IH o1) as (o' & Hrun & Hkeep & Hem).
    { cbn. by rewrite length_insert. }
    exists o'. rewrite fmap_cons. cbn [forM_].
    rewrite (legacy_bind_Ok _ _ _ _ _ (legacy_drainBucket_spec o k bkt Hbkt)).
    split; [done|]. split; [eapply legacy_keeps_trans; [by apply legacy_keeps_drain|done]|].
    intros k' Hk'. apply Hem.
    destruct (decide (k' = k)) as [->|Hne].
    + right. intros bkt'. cbn. rewrite list_lookup_insert_eq by done.
      intros [= <-]. apply Forall_fmap, Forall_true. intros b. unfold held, kill. cbn. lia.
    + destruct Hk' as [Hk'|Hk'].
      * apply elem_of_cons in Hk' as [->|Hk']; [done|by left].
      * right. intros bkt'. cbn. rewrite list_lookup_insert_ne by done. apply Hk'.
Qed.

(** ** Step 6: the eviction *)

Lemma legacy_firstPlaceable_spec k st o :
  0 ≤ height o →
  ∃ r, firstPlaceable k st o = (Ok r, o) ∧
       ∀ i, r = Some i →
            ∃ b, st !! i = Some b ∧ k ∈ Path (height o) (numLeaves o) (b_leaf b).
Proof.
  intros Hh. induction st as [|b st (r & IH & Hr)].
  - exists None. split; [done|]. by intros i [=].
  - cbn [firstPlaceable]. unfold canPlaceAt, pathOf at 1.
    assert ((height o <? 0) = false) as Eh by (apply Z.ltb_ge; lia).
    unfold bind at 1 2. rewrite Eh. unfold ret at 1.
    destruct (existsb _ _) eqn:E.
    + exists (Some O). split; [done|]. intros i [= <-]. exists b. split; [done|].
      apply existsb_exists in E as (x & Hx & Ex). apply Z.eqb_eq in Ex. subst x.
      by apply list_elem_of_In.
    + exists (S <$> r). rewrite (legacy_bind_Ok _ _ _ _ _ IH). split; [done|].
      intros i Hi. destruct r as [i0|]; [|done]. injection Hi as <-.
      destruct (Hr i0 eq_refl) as (b0 & H1 & H2). by exists b0.
Qed.

Lemma legacy_ready_keeps o o' : ready o → keeps o o' → ready o'.
Proof.
  intros (Hh & Hs) ((st & t & ->) & _ & Hsl & _). split; [done|]. cbn in *.
  by apply Hsl.
Qed.

Lemma legacy_evictSlot_spec o (k j : nat) :
  ready o → (k < length (tree o))%nat → Z.of_nat j < BucketSize (cfg o) →
  ∃ o', evictSlot (Z.of_nat k) j o = (Ok tt, o') ∧ keeps o o'.
Proof.
  intros (Hh & Hs) Hk Hj.
  destruct (lookup_lt_is_Some_2 _ _ Hk) as [bkt Hbkt].
  assert (j < length bkt)%nat as Hjl.
  { rewrite Forall_lookup in Hs. specialize (Hs k bkt Hbkt). cbn in Hs. lia. }
  destruct (lookup_lt_is_Some_2 _ _ Hjl) as [s Hsl].
  unfold evictSlot. rewrite (legacy_bind_Ok _ _ _ _ _ (legacy_treeAt_spec o k bkt Hbkt)).
  rewrite Hsl. destruct (b_id s =? -1) eqn:E; cbn [negb].
  2:{ exists o. split; [done|apply legacy_keeps_refl]. }
  apply Z.eqb_eq in E.
  rewrite (legacy_bind_Ok _ _ o (stash o) o) by done.
  destruct (legacy_firstPlaceable_spec (Z.of_nat k) (stash o) o Hh) as (r & Hr & Hrs).
  rewrite (legacy_bind_Ok _ _ _ _ _ Hr).
  destruct r as [i|]; [|exists o; split; [done|apply legacy_keeps_refl]].
  destruct (Hrs i eq_refl) as (b & Hi & Hp). rewrite Hi. unfold modify.
  eexists. split; [reflexivity|]. rewrite Nat2Z.id.
  split; [by eexists _, _|]. cbn. split; [by rewrite length_insert|]. split.
  - intros n Hn. apply Forall_insert; [done|]. rewrite length_insert.
    rewrite Forall_lookup in Hn. by apply (Hn k).
  - intros c pm mem Hc. eapply legacy_content_place; try done. unfold held. lia.
Qed.

Lemma legacy_forM_keeps {A} (f : A → M unit) (P : PathORAM → Prop) (l : list A) o :
  (∀ o o', P o → keeps o o' → P o') →
  (∀ x o, x ∈ l → P o → ∃ o', f x o = (Ok tt, o') ∧ keeps o o') →
  P o → ∃ o', forM_ l f o = (Ok tt, o') ∧ keeps o o'.
Proof.
  intros HP. revert o. induction l as [|x l IH]; intros o Hf Ho.
  - exists o. split; [done|apply legacy_keeps_refl].
  - destruct (Hf x o) as (o1 & E1 & K1); [apply list_elem_of_here|done|].
    destruct (IH o1) as (o2 & E2 & K2).
    { intros y o' Hy. apply Hf. by apply list_elem_of_further. }
    { by eapply HP. }
    exists o2. cbn [forM_]. rewrite (legacy_bind_Ok _ _ _ _ _ E1).
    split; [done|by eapply legacy_keeps_trans].
Qed.

Lemma legacy_keeps_length o o' : keeps o o' → length (tree o') = length (tree o).
Proof. by intros (_ & H & _). Qed.

Lemma legacy_keeps_cfg o o' : keeps o o' → cfg o' = cfg o.
Proof. by intros ((st & t & ->) & _). Qed.

Lemma legacy_evictLevel_spec o (k : nat) :
  ready o → (k < length (tree o))%nat →
  ∃ o', evictLevel (Z.of_nat k) o = (Ok tt, o') ∧ keeps o o'.
Proof.
  intros Hr Hk. destruct (lookup_lt_is_Some_2 _ _ Hk) as [bkt Hbkt].
  unfold evictLevel. rewrite (legacy_bind_Ok _ _ _ _ _ (legacy_treeAt_spec o k bkt Hbkt)).
  rewrite (legacy_bind_Ok _ _ o (BucketSize (cfg o)) o) by done.
  apply (legacy_forM_keeps _ (λ o', ready o' ∧ length (tree o') = length (tree o)
                              ∧ cfg o' = cfg o)).
  - intros o1 o2 (H1 & H2 & H3) K. split; [by eapply legacy_ready_keeps|].
    split; [by rewrite (legacy_keeps_length _ _ K)|by rewrite (legacy_keeps_cfg _ _ K)].
  - intros j o1 Hj (H1 & H2 & H3). apply elem_of_seq in Hj.
    apply legacy_evictSlot_spec; [done|lia|]. rewrite H3. lia.
  - done.
Qed.

Lemma legacy_evict_spec o (pn : list nat) :
  ready o → Forall (λ k, (k < length (tree o))%nat) pn →
  ∃ o', evict (Z.of_nat <$> pn) o
        = (if StashLimit (cfg o) <? Z.of_nat (length (stash o'))
           then Err ErrStashOverflow else Ok tt, o') ∧
        keeps o o'.
Proof.
  intros Hr Hpn.
  destruct (legacy_forM_keeps evictLevel
              (λ o', ready o' ∧ length (tree o') = length (tree o)) (Z.of_nat <$> pn) o)
    as (o' & E & K).
  - intros o1 o2 (H1 & H2) K. split; [by eapply legacy_ready_keeps|].
    by rewrite (legacy_keeps_length _ _ K).
  - intros x o1 Hx (H1 & H2). apply list_elem_of_fmap in Hx as (k & -> & Hk).
    apply legacy_evictLevel_spec; [done|]. rewrite H2. rewrite Forall_forall in Hpn. by apply Hpn.
  - done.
  - exists o'. unfold evict. rewrite (legacy_bind_Ok _ _ _ _ _ E).
    rewrite (legacy_keeps_cfg _ _ K). split; [|done]. by destruct (_ <? _).
Qed.

(** ** Steps 3 to 6 *)

Lemma legacy_go_copy_length dst src : length (go_copy dst src) = length dst.
Proof.
  unfold go_copy. rewrite length_app, length_take, length_drop. lia.
Qed.

Lemma legacy_copy_new_length dst nd : length (copy_new dst nd) = length dst.
Proof. destruct nd; [apply legacy_go_copy_length|done]. Qed.

Lemma legacy_shape_keeps o o' d : shape_ok o d → keeps o o' → shape_ok o' d.
Proof.
  intros [Hh HL Hlen Hs HB] ((st & t & ->) & Hl & Hsl & _). cbn in *.
  split; cbn; [done|done|by rewrite Hl|by apply Hsl|done].
Qed.

Lemma legacy_serveAndEvict_spec o pm mem d id nd l l' :
  shape_ok o d →
  content_ok (cfg o) (height o) (numLeaves o) pm mem (stash o) (tree o) →
  posMap o = <[id := l']> pm →
  (∀ i, is_Some (mem !! i) → is_Some (pm !! i)) →
  0 ≤ id < NumBlocks (cfg o) → 0 ≤ l < numLeaves o → 0 ≤ l' < numLeaves o →
  (∀ l0, pm !! id = Some l0 → l0 = l) →
  let new := copy_new (payload (cfg o) mem id) nd in
  ∃ o', serveAndEvict id nd l o
        = (if StashLimit (cfg o) <? Z.of_nat (length (stash o'))
           then Err ErrStashOverflow else Ok (Some new), o') ∧
        (∃ st t, o' = upd o st t) ∧ shape_ok o' d ∧
        content_ok (cfg o) (height o) (numLeaves o) (posMap o) (<[id := new]> mem)
          (stash o') (tree o').
Proof.
  intros Hsh Hc Hpm Hmem Hid Hl Hl' Hold. cbv zeta.
  pose proof Hsh as [Hh HL Hlen Hslots HB].
  rewrite HL in Hl, Hl'.
  destruct (Path_nat d l Hl) as (pn & Epath & _ & Hpn & _).
  assert (Forall (λ k, (k < length (tree o))%nat) pn) as Hpn'.
  { eapply Forall_impl; [exact Hpn|]. cbn. intros k Hk. lia. }
  unfold serveAndEvict.
  assert (pathOf l o = (Ok (Z.of_nat <$> pn), o)) as E1.
  { unfold pathOf. rewrite Hh, HL, Epath.
    by destruct (Z.of_nat (S d) <? 0) eqn:E; [apply Z.ltb_lt in E; lia|]. }
  rewrite (legacy_bind_Ok _ _ _ _ _ E1).
  destruct (legacy_drainPath_spec pn o Hpn') as (o2 & E2 & K2 & Hem).
  rewrite (legacy_bind_Ok _ _ _ _ _ E2).
  pose proof (legacy_shape_keeps _ _ _ Hsh K2) as Hsh2.
  pose proof K2 as ((st2 & t2 & Eo2) & _ & _ & Hc2).
  specialize (Hc2 _ _ _ Hc).
  assert (cfg o2 = cfg o ∧ height o2 = height o ∧ numLeaves o2 = numLeaves o
          ∧ posMap o2 = posMap o) as (Ec & Eh & EL & Ep) by (by rewrite Eo2).
  rewrite (legacy_bind_Ok _ _ o2 (BlockSize (cfg o2)) o2) by done.
  rewrite (legacy_bind_Ok _ _ o2 (stash o2) o2) by done.
  rewrite (legacy_bind_Ok _ _ o2 (default 0 (posMap o2 !! id)) o2) by done.
  rewrite Ep, Hpm, lookup_insert_eq. cbn [default]. rewrite Ec.
  assert ((BlockSize (cfg o) <? 0) = false) as -> by (apply Z.ltb_ge; lia).
  set (B := BlockSize (cfg o)) in *.
  (* the stash and the result after step 5 *)
  assert (∃ st3 : list block,
    (if (findInStash_loop B 0 (stash o2) id).1 =? -1
     then bind (modify (λ o0, set_stash
                                (stash o0 ++ [mkblock id l' (copy_new (zeros B) nd)]) o0))
            (λ _, ret (Some (copy_new (zeros B) nd)))
     else match stash o2 !! Z.to_nat (findInStash_loop B 0 (stash o2) id).1 with
          | Some b =>
              bind (modify (set_stash
                              (<[Z.to_nat (findInStash_loop B 0 (stash o2) id).1 :=
                                   mkblock (b_id b) l' (copy_new (b_data b) nd)]>
                                 (stash o2))))
                (λ _, ret ((λ r, copy_new r nd) <$> (findInStash_loop B 0 (stash o2) id).2))
          | None => panic
          end) o2
    = (Ok (Some (copy_new (payload (cfg o) mem id) nd)), upd o2 st3 (tree o2)) ∧
    content_ok (cfg o) (height o) (numLeaves o) (<[id := l']> pm)
      (<[id := copy_new (payload (cfg o) mem id) nd]> mem) st3 (tree o2))
    as (st3 & E3 & Hc3).
  { pose proof Hc2 as (Hg & Hpath & Hnd & Hdom).
    destruct (pm !! id) as [l0|] eqn:Epm.
    - (* the block is held, and by now in the stash *)
      specialize (Hold l0 eq_refl). subst l0.
      assert (id ∈ b_id <$> stash o2 ++ tree_blocks (tree o2)) as Hin
        by (apply Hdom; by rewrite Epm).
      apply list_elem_of_fmap in Hin as (b & Eb & Hb).
      rewrite Forall_forall in Hg. destruct (Hg b Hb) as (_ & Hbp & _ & Hbm & Hbl).
      rewrite <- Eb in Hbp, Hbm. rewrite Epm in Hbp. injection Hbp as Hbp.
      apply elem_of_app in Hb as [Hb|Hb].
      2:{ exfalso. apply legacy_tree_blocks_elem in Hb as (k & bkt & Hk & Hbb & Hh').
          pose proof (Hpath k bkt b Hk Hbb Hh') as Hon.
          rewrite <- Hbp, Hh, HL, Epath in Hon.
          apply list_elem_of_fmap in Hon as (k' & Ek & Hk').
          apply Nat2Z.inj in Ek. subst k'.
          specialize (Hem k (or_introl Hk') bkt Hk).
          rewrite Forall_forall in Hem. by apply (Hem b). }
      apply list_elem_of_lookup in Hb as [i Hi].
      rewrite fmap_app in Hnd. apply NoDup_app in Hnd as (Hnd & _).
      rewrite (findInStash_in B id 0 (stash o2) i b Hnd Hi) by done.
      cbn [fst snd]. rewrite Z.add_0_l.
      destruct (Z.of_nat i =? -1) eqn:E; [apply Z.eqb_eq in E; lia|].
      rewrite Nat2Z.id, Hi. unfold modify, ret, bind. cbn [fmap option_fmap option_map].
      exists (<[i := mkblock (b_id b) l' (copy_new (b_data b) nd)]> (stash o2)).
      assert (go_copy (zeros B) (b_data b) = b_data b) as ->.
      { apply go_copy_same. unfold zeros. rewrite length_replicate. lia. }
      assert (payload (cfg o) mem id = b_data b) as Epay
        by (unfold payload; by rewrite Hbm).
      rewrite Epay. split; [by destruct o2|].
      rewrite Eb.
      apply (legacy_content_found (cfg o) (height o) (numLeaves o) pm mem (stash o2) (tree o2)
               i b l' (copy_new (b_data b) nd)).
      + done.
      + done.
      + by rewrite HL.
      + rewrite legacy_copy_new_length. done.
    - (* the id is not held *)
      assert (id ∉ b_id <$> stash o2 ++ tree_blocks (tree o2)) as Hnotin.
      { intros Hin. apply list_elem_of_fmap in Hin as (b & Eb & Hb).
        rewrite Forall_forall in Hg. destruct (Hg b Hb) as (_ & Hbp & _). congruence. }
      assert (id ∉ b_id <$> stash o2) as Hnotin'.
      { intros Hin. apply Hnotin. rewrite fmap_app. apply elem_of_app. by left. }
      rewrite (findInStash_notin B id 0 (stash o2) Hnotin'). cbn [fst snd].
      rewrite Z.eqb_refl. unfold modify, ret, bind.
      exists (stash o2 ++ [mkblock id l' (copy_new (zeros B) nd)]).
      assert (payload (cfg o) mem id = zeros B) as Epay.
      { unfold payload. destruct (mem !! id) eqn:Em; [|done].
        destruct (Hmem id) as [? ?]; [by rewrite Em|congruence]. }
      rewrite Epay. split; [by destruct o2|].
      apply legacy_content_new; [done|done|done|by rewrite HL|].
      rewrite legacy_copy_new_length. unfold zeros. rewrite length_replicate. unfold B. lia. }
  rewrite (legacy_bind_Ok _ _ _ _ _ E3).
  set (o3 := upd o2 st3 (tree o2)) in *.
  assert (ready o3) as Hr3.
  { split.
    - change (height o3) with (height o2). rewrite Eh, Hh. lia.
    - change (tree o3) with (tree o2). change (cfg o3) with (cfg o2). by destruct Hsh2. }
  assert (Forall (λ k, (k < length (tree o3))%nat) pn) as Hpn3.
  { change (tree o3) with (tree o2). by rewrite (legacy_keeps_length _ _ K2). }
  destruct (legacy_evict_spec o3 pn Hr3 Hpn3) as (o' & E4 & K4).
  exists o'. unfold bind at 1. rewrite E4.
  change (cfg o3) with (cfg o2). rewrite Ec.
  split; [by destruct (StashLimit (cfg o) <? _)|].
  pose proof K4 as ((st4 & t4 & Eo4) & _ & _ & Hc4).
  split; [exists st4, t4; rewrite Eo4; unfold o3; by rewrite Eo2|].
  split.
  { eapply legacy_shape_keeps; [|exact K4]. destruct Hsh2 as [? ? ? ? ?].
    split; cbn; done. }
  change (height o3) with (height o2) in Hc4.
  change (numLeaves o3) with (numLeaves o2) in Hc4.
  rewrite Eh, EL in Hc4. apply Hc4. exact Hc3.
Qed.

(** ** The access and the public methods *)

Section Random.
Variable rand_Reader : nat → Z.

Lemma legacy_access_spec o mem id nd :
  inv o mem → 0 ≤ id < NumBlocks (cfg o) →
  let new := copy_new (payload (cfg o) mem id) nd in
  ∃ o', access rand_Reader id nd o
        = (if StashLimit (cfg o) <? Z.of_nat (length (stash o'))
           then Err ErrStashOverflow else Ok (Some new), o') ∧
        inv o' (<[id := new]> mem) ∧
        cfg o' = cfg o ∧ height o' = height o ∧ numLeaves o' = numLeaves o ∧
        posMap o' = <[id := fresh_leaf rand_Reader o id]> (posMap o).
Proof.
  intros [[d Hsh] Hc Hmem] Hid. cbv zeta.
  pose proof Hsh as [Hh HL Hlen Hslots HB].
  pose proof (pow2_pos d) as Hpos.
  set (l := read_leaf rand_Reader o id).
  set (l' := fresh_leaf rand_Reader o id).
  set (n := match posMap o !! id with
            | Some _ => S (drawn o)
            | None => S (S (drawn o))
            end).
  set (o1 := mkORAM (cfg o) (height o) (numLeaves o) (<[id := l']> (posMap o))
               (stash o) (tree o) n).
  assert ((numLeaves o <=? 0) = false) as EL0 by (apply Z.leb_gt; lia).
  assert (access rand_Reader id nd o = serveAndEvict id nd l o1) as ->.
  { unfold access, bind, gets, randomLeaf, modify, ret, o1, l, l', n,
      read_leaf, fresh_leaf.
    destruct (posMap o !! id); cbn; rewrite EL0; cbn; try rewrite EL0; done. }
  assert (0 ≤ l < numLeaves o ∧ 0 ≤ l' < numLeaves o) as [Hl Hl'].
  { unfold l, l', read_leaf, fresh_leaf.
    destruct Hc as (Hg & _ & _ & Hdom).
    destruct (posMap o !! id) as [l0|] eqn:Epm.
    - split; [|apply Z.mod_pos_bound; lia].
      assert (id ∈ b_id <$> stash o ++ tree_blocks (tree o)) as Hin
        by (apply Hdom; by rewrite Epm).
      apply list_elem_of_fmap in Hin as (b & Eb & Hb).
      rewrite Forall_forall in Hg. destruct (Hg b Hb) as (_ & Hbp & Hbl & _).
      rewrite <- Eb, Epm in Hbp. by injection Hbp as ->.
    - split; apply Z.mod_pos_bound; lia. }
  destruct (legacy_serveAndEvict_spec o1 (posMap o) mem d id nd l l')
    as (o' & E & (st & t & Eo') & Hsh' & Hc'); try done.
  { intros l0 Hl0. unfold l, read_leaf. by rewrite Hl0. }
  exists o'. split; [exact E|]. split; [|by rewrite Eo'].
  split; [by exists d| |].
  - rewrite Eo' in Hc' |- *. exact Hc'.
  - intros i Hi. rewrite Eo'. cbn. apply lookup_insert_is_Some.
    apply lookup_insert_is_Some in Hi as [Hi|[_ Hi]]; [by left|].
    destruct (decide (id = i)); [by left|]. right. split; [done|by apply Hmem].
Qed.

Lemma legacy_Access_rejected o a :
  accepted (cfg o) a = false →
  Access rand_Reader a.1.1 a.1.2 a.2 o
  = (if (a.1.2 <? 0) || (NumBlocks (cfg o) <=? a.1.2) then Err ErrInvalidBlockID
     else Err ErrInvalidDataSize, o).
Proof.
  destruct a as [[op id] data]. unfold accepted, Access, validID. cbn [fst snd].
  intros H. destruct (id <? 0) eqn:E1; [done|].
  destruct (NumBlocks (cfg o) <=? id) eqn:E2; [done|]. cbn [orb negb].
  apply Z.ltb_ge in E1. apply Z.leb_gt in E2.
  assert ((0 <=? id) = true) as E3 by (apply Z.leb_le; lia).
  assert ((id <? NumBlocks (cfg o)) = true) as E4 by (apply Z.ltb_lt; lia).
  rewrite E3, E4 in H. cbn [andb] in H. apply negb_false_iff in H. by rewrite H.
Qed.

Lemma legacy_Access_accepted o a :
  accepted (cfg o) a = true →
  0 ≤ a.1.2 < NumBlocks (cfg o) ∧
  ((a.1.2 <? 0) || (NumBlocks (cfg o) <=? a.1.2)) = false ∧
  Access rand_Reader a.1.1 a.1.2 a.2 o = access rand_Reader a.1.2 (handed a) o.
Proof.
  destruct a as [[op id] data]. unfold accepted, Access, validID, handed. cbn [fst snd].
  intros H. apply andb_true_iff in H as [H H3]. apply andb_true_iff in H as [H1 H2].
  apply Z.leb_le in H1. apply Z.ltb_lt in H2.
  assert ((id <? 0) = false) as -> by (apply Z.ltb_ge; lia).
  assert ((NumBlocks (cfg o) <=? id) = false) as -> by (apply Z.leb_gt; lia).
  cbn [orb negb]. apply negb_true_iff in H3. rewrite H3.
  split; [lia|]. split; [done|]. by destruct (op =? OpRead).
Qed.

(** One call of [Access] on an engine that meets the invariant. *)
Lemma legacy_Access_result o mem a :
  inv o mem →
  let r := Access rand_Reader a.1.1 a.1.2 a.2 o in
  (r.1 = (if (a.1.2 <? 0) || (NumBlocks (cfg o) <=? a.1.2) then Err ErrInvalidBlockID
          else if accepted (cfg o) a
               then if StashLimit (cfg o) <? Z.of_nat (length (stash r.2))
                    then Err ErrStashOverflow
                    else Ok (Some (stored (cfg o) mem a))
               else Err ErrInvalidDataSize)) ∧
  inv r.2 (ref_step (cfg o) mem a) ∧ cfg r.2 = cfg o ∧
  height r.2 = height o ∧ numLeaves r.2 = numLeaves o ∧
  posMap r.2 = (if accepted (cfg o) a
                then <[a.1.2 := fresh_leaf rand_Reader o a.1.2]> (posMap o)
                else posMap o).
Proof.
  intros Hinv. cbv zeta. unfold ref_step.
  destruct (accepted (cfg o) a) eqn:Ha.
  - destruct (legacy_Access_accepted o a Ha) as (Hid & -> & ->).
    destruct (legacy_access_spec o mem a.1.2 (handed a) Hinv Hid)
      as (o' & -> & Hinv' & Ec & Eh & EL & Ep).
    done.
  - rewrite (legacy_Access_rejected o a Ha). cbn [fst snd].
    split; [by destruct (_ || _)|]. done.
Qed.

Lemma legacy_run_inv o mem calls :
  inv o mem →
  inv (run rand_Reader o calls) (foldl (ref_step (cfg o)) mem calls) ∧
  cfg (run rand_Reader o calls) = cfg o ∧
  height (run rand_Reader o calls) = height o ∧
  numLeaves (run rand_Reader o calls) = numLeaves o.
Proof.
  revert o mem. induction calls as [|a calls IH]; intros o mem Hinv; [done|].
  change (run rand_Reader o (a :: calls))
    with (run rand_Reader (Access rand_Reader a.1.1 a.1.2 a.2 o).2 calls).
  change (foldl (ref_step (cfg o)) mem (a :: calls))
    with (foldl (ref_step (cfg o)) (ref_step (cfg o) mem a) calls).
  destruct (legacy_Access_result o mem a Hinv) as (_ & Hinv' & Ec & Eh & EL & _).
  destruct (IH _ _ Hinv') as (H1 & H2 & H3 & H4). rewrite Ec in H1.
  rewrite H2, H3, H4. done.
Qed.

Lemma legacy_results_from o mem calls :
  inv o mem →
  Forall2 (λ r r', r = r' ∨ r = Err ErrStashOverflow)
    (results rand_Reader o calls) (ref_results (cfg o) mem calls).
Proof.
  revert o mem. induction calls as [|a calls IH]; intros o mem Hinv;
    [by apply Forall2_nil|].
  cbn [results ref_results]. unfold step.
  destruct (legacy_Access_result o mem a Hinv) as (Hr & Hinv' & Ec & _).
  apply Forall2_cons. split.
  - rewrite Hr. destruct (_ || _); [by left|].
    destruct (accepted _ _); [|by left]. destruct (_ <? _); [by right|by left].
  - specialize (IH _ _ Hinv'). by rewrite Ec in IH.
Qed.

End Random.

(** ** Construction *)

Lemma legacy_tree_blocks_new n m b : ¬ held b → tree_blocks (replicate n (replicate m b)) = [].
Proof.
  intros Hb. unfold tree_blocks. induction n as [|n IH]; [done|].
  cbn [replicate]. change (mjoin (?x :: ?t)) with (x ++ mjoin t).
  rewrite filter_app, IH, app_nil_r.
  clear IH. induction m as [|m IH]; [done|]. cbn [replicate].
  by rewrite filter_cons_False.
Qed.

Lemma legacy_New_shape c o :
  NewPathORAM c = Ok o →
  0 < NumBlocks c ∧ 0 < BlockSize c ∧
  cfg o = mkConfig (NumBlocks c) (BlockSize c)
            (if BucketSize c =? 0 then 5 else BucketSize c)
            (if StashLimit c =? 0 then 100 else StashLimit c) ∧
  0 < BucketSize (cfg o) ∧
  1 ≤ height o ≤ 63 ∧ numLeaves o = 2 ^ (height o - 1) ∧
  posMap o = ∅ ∧ stash o = [] ∧ drawn o = O ∧
  tree o = replicate (Z.to_nat (2 ^ height o - 1))
             (replicate (Z.to_nat (BucketSize (cfg o)))
                (mkblock (-1) (-1) (zeros (BlockSize c)))).
Proof.
  unfold NewPathORAM. destruct (_ || _) eqn:E; [done|].
  apply orb_false_iff in E as [E1 E2]. apply Z.leb_gt in E1, E2.
  set (bs := if BucketSize c =? 0 then 5 else BucketSize c).
  set (nb := wrap64 (Z.quot _ _)).
  destruct (height_loop_spec 64 1 nb) as (H1 & _); [lia|lia|apply wrap64_range|].
  set (h := height_loop 64 1 nb) in *.
  rewrite mask_value by lia. rewrite shl1_value by lia.
  assert (1 ≤ 2 ^ h - 1) as Hpos.
  { assert (2 ^ 1 ≤ 2 ^ h) by (apply Z.pow_le_mono_r; lia). lia. }
  destruct (2 ^ h - 1 <? 0) eqn:E3; [apply Z.ltb_lt in E3; lia|].
  assert ((0 <? 2 ^ h - 1) = true) as -> by (apply Z.ltb_lt; lia).
  cbn [andb]. destruct (bs <? 0) eqn:E4; [done|]. apply Z.ltb_ge in E4.
  intros [= <-]. cbn.
  assert (bs ≠ 0) as Hbs.
  { unfold bs. destruct (BucketSize c =? 0) eqn:E5; [done|]. by apply Z.eqb_neq. }
  split; [done|]. split; [done|]. split; [done|]. split; [lia|]. done.
Qed.

Lemma legacy_New_inv c o : NewPathORAM c = Ok o → inv o ∅.
Proof.
  intros Hnew.
  destruct (legacy_New_shape c o Hnew)
    as (HN & HB & Ec & Hbs & Hh & HL & Hpm & Hst & _ & Ht).
  destruct (height_depth (height o)) as (d & Ed & EL); [lia|].
  assert (¬ held (mkblock (-1) (-1) (zeros (BlockSize c)))) as Hdead
    by (unfold held; cbn; lia).
  split.
  - exists d. split.
    + done.
    + by rewrite HL.
    + rewrite Ht, length_replicate. rewrite Z2Nat.id.
      * rewrite Ed. unfold pow2. done.
      * assert (2 ^ 1 ≤ 2 ^ height o) by (apply Z.pow_le_mono_r; lia). lia.
    + rewrite Ht. apply Forall_replicate. rewrite length_replicate. lia.
    + rewrite Ec. cbn. lia.
  - rewrite Hst, Hpm, Ht. unfold content_ok. rewrite legacy_tree_blocks_new by done.
    cbn [app]. split; [by apply Forall_nil|]. split.
    + intros k bkt b Hk Hb Hheld. apply lookup_replicate in Hk as [-> _].
      apply elem_of_replicate in Hb as [-> _]. done.
    + split; [apply NoDup_nil_2|]. intros i [x Hx]. by rewrite lookup_empty in Hx.
  - intros i [x Hx]. by rewrite lookup_empty in Hx.
Qed.

(** ** Properties of the engine *)

(** [NewPathORAM].  It returns [ErrInvalidConfig] exactly when N or B
    is not positive; it panics on a negative bucket size; otherwise it
    returns an engine with the defaults filled in (bucket size 5 and
    stash limit 100 for zero), nothing allocated, a height between 1
    and 63 and a tree of [2^height - 1] buckets whose slots are all
    empty blocks of B zero bytes. *)
Theorem Legacy_NewPathORAM_outcome (c : Config) :
  (NumBlocks c ≤ 0 ∨ BlockSize c ≤ 0 ↔ NewPathORAM c = Err ErrInvalidConfig) ∧
  (0 < NumBlocks c → 0 < BlockSize c → BucketSize c < 0 → NewPathORAM c = Panic) ∧
  (0 < NumBlocks c → 0 < BlockSize c → 0 ≤ BucketSize c →
   ∃ o, NewPathORAM c = Ok o ∧
        cfg o = mkConfig (NumBlocks c) (BlockSize c)
                  (if BucketSize c =? 0 then 5 else BucketSize c)
                  (if StashLimit c =? 0 then 100 else StashLimit c) ∧
        Capacity o = NumBlocks c ∧ Size o = 0 ∧ StashSize o = 0 ∧
        1 ≤ Height o ≤ 63 ∧ NumLeaves o = 2 ^ (Height o - 1) ∧
        Z.of_nat (length (tree o)) = 2 ^ Height o - 1 ∧
        Forall (λ bkt, bkt = replicate (Z.to_nat (BucketSize (cfg o)))
                               (mkblock (-1) (-1) (zeros (BlockSize c))))
          (tree o)).
Proof.
  assert (∀ r, NewPathORAM c = r →
               0 < NumBlocks c → 0 < BlockSize c →
               (BucketSize c < 0 → r = Panic) ∧
               (0 ≤ BucketSize c → ∃ o, r = Ok o)) as Hcases.
  { intros r <- HN HB. unfold NewPathORAM.
    assert ((NumBlocks c <=? 0) || (BlockSize c <=? 0) = false) as ->.
    { apply orb_false_iff. split; apply Z.leb_gt; lia. }
    set (bs := if BucketSize c =? 0 then 5 else BucketSize c).
    set (nb := wrap64 (Z.quot _ _)).
    destruct (height_loop_spec 64 1 nb) as (H1 & _); [lia|lia|apply wrap64_range|].
    set (h := height_loop 64 1 nb) in *.
    rewrite mask_value by lia. rewrite shl1_value by lia.
    assert (1 ≤ 2 ^ h - 1) as Hpos.
    { assert (2 ^ 1 ≤ 2 ^ h) by (apply Z.pow_le_mono_r; lia). lia. }
    assert ((2 ^ h - 1 <? 0) = false) as -> by (apply Z.ltb_ge; lia).
    assert ((0 <? 2 ^ h - 1) = true) as -> by (apply Z.ltb_lt; lia).
    cbn [andb]. split.
    - intros Hneg. assert ((bs <? 0) = true) as ->; [|done].
      apply Z.ltb_lt. unfold bs.
      by destruct (BucketSize c =? 0) eqn:E; [apply Z.eqb_eq in E; lia|].
    - intros Hnn. assert ((bs <? 0) = false) as ->; [|by eexists].
      apply Z.ltb_ge. unfold bs. by destruct (BucketSize c =? 0). }
  split; [|split].
  - unfold NewPathORAM. split.
    + intros H. assert ((NumBlocks c <=? 0) || (BlockSize c <=? 0) = true) as ->; [|done].
      apply orb_true_iff. rewrite !Z.leb_le. done.
    + destruct (_ || _) eqn:E.
      * intros _. apply orb_true_iff in E. by rewrite !Z.leb_le in E.
      * intros H. exfalso. revert H.
        repeat (destruct (_ <? _) || destruct (_ && _)); discriminate.
  - intros HN HB Hneg. by apply (Hcases _ eq_refl HN HB).
  - intros HN HB Hnn. destruct (Hcases _ eq_refl HN HB) as [_ [o Ho]]; [done|].
    exists o. split; [done|].
    destruct (legacy_New_shape c o Ho)
      as (_ & _ & Ec & Hbs & Hh & HL & Hpm & Hst & _ & Ht).
    split; [done|]. split; [unfold Capacity; by rewrite Ec|].
    split; [unfold Size; by rewrite Hpm|]. split; [unfold StashSize; by rewrite Hst|].
    split; [done|]. split; [done|]. unfold Height. split.
    + rewrite Ht, length_replicate. rewrite Z2Nat.id; [done|].
      assert (2 ^ 1 ≤ 2 ^ height o) by (apply Z.pow_le_mono_r; lia). lia.
    + rewrite Ht. by apply Forall_replicate.
Qed.

Section Sequences.
Variable rand_Reader : nat → Z.

(** The whole run against a plain array.  On an engine that
    [NewPathORAM] has built, every call of a sequence of calls of
    [Access] returns what an array of N payloads would return at that
    point, or [ErrStashOverflow]: the same validation error, or the
    payload of the id as the call leaves it.  For [OpRead] that is the
    payload last stored (zeros if none); for any other operation with
    data it is the data written over the old payload, so a write
    returns its own data and not the payload before it. *)
Theorem Legacy_results_reference (c : Config) (o0 : PathORAM) (calls : list call) :
  NewPathORAM c = Ok o0 →
  Forall2 (λ r r', r = r' ∨ r = Err ErrStashOverflow)
    (results rand_Reader o0 calls) (ref_results (cfg o0) ∅ calls).
Proof.
  intros Hnew. apply legacy_results_from. by eapply legacy_New_inv.
Qed.

Lemma legacy_payload_length o mem id :
  inv o mem → Z.of_nat (length (payload (cfg o) mem id)) = BlockSize (cfg o).
Proof.
  intros [[d Hsh] (Hg & _ & _ & Hdom) Hmem]. unfold payload.
  destruct (mem !! id) as [p|] eqn:E.
  - cbn. assert (id ∈ b_id <$> stash o ++ tree_blocks (tree o)) as Hin.
    { apply Hdom, Hmem. by rewrite E. }
    apply list_elem_of_fmap in Hin as (b & -> & Hb). rewrite Forall_forall in Hg.
    destruct (Hg b Hb) as (_ & _ & _ & Hm & Hl). congruence.
  - cbn. unfold zeros. rewrite length_replicate. destruct Hsh. lia.
Qed.

(** What a write returns.  On such an engine, after any sequence of
    calls, [Access(OpWrite, id, data)] with a valid id and B bytes of
    data returns [data] itself, whatever the block held before, unless
    the stash it leaves is longer than [StashLimit], when it returns
    [ErrStashOverflow]; [Write] leaves the same engine and returns the
    error only; and the [OpRead] that follows returns [data], under
    the same condition. *)
Theorem Legacy_write_returns_written (c : Config) (o0 : PathORAM)
    (calls : list call) (id : Z) (data : bytes) :
  NewPathORAM c = Ok o0 →
  0 ≤ id < NumBlocks c → Z.of_nat (length data) = BlockSize c →
  let o := run rand_Reader o0 calls in
  let w := Access rand_Reader OpWrite id (Some data) o in
  let r := Access rand_Reader OpRead id None w.2 in
  w.1 = (if StashLimit (cfg o0) <? StashSize w.2
         then Err ErrStashOverflow else Ok (Some data)) ∧
  Write rand_Reader id (Some data) o
  = (if StashLimit (cfg o0) <? StashSize w.2 then Err ErrStashOverflow else Ok tt, w.2) ∧
  r.1 = (if StashLimit (cfg o0) <? StashSize r.2
         then Err ErrStashOverflow else Ok (Some data)).
Proof.
  intros Hnew Hid Hlen. cbv zeta.
  destruct (legacy_New_shape c o0 Hnew) as (_ & _ & Ec0 & _).
  assert (NumBlocks (cfg o0) = NumBlocks c ∧ BlockSize (cfg o0) = BlockSize c)
    as [EN EB] by (by rewrite Ec0).
  destruct (legacy_run_inv rand_Reader o0 ∅ calls (legacy_New_inv c o0 Hnew))
    as (Hinv & Ec & _).
  set (o := run rand_Reader o0 calls) in *.
  set (mem := foldl (ref_step (cfg o0)) ∅ calls) in *.
  set (a := (OpWrite, id, Some data) : call).
  assert (accepted (cfg o) a = true) as Ha.
  { unfold accepted, a. cbn. rewrite Ec, EN, EB.
    assert ((0 <=? id) = true) as -> by (apply Z.leb_le; lia).
    assert ((id <? NumBlocks c) = true) as -> by (apply Z.ltb_lt; lia).
    by rewrite Hlen, Z.eqb_refl. }
  assert ((id <? 0) || (NumBlocks (cfg o) <=? id) = false) as Hr.
  { rewrite Ec, EN. apply orb_false_iff. rewrite Z.ltb_ge, Z.leb_gt. lia. }
  assert (stored (cfg o) mem a = data) as Est.
  { unfold stored, handed, a. cbn. apply go_copy_same.
    pose proof (legacy_payload_length o mem id Hinv) as Hp.
    rewrite Ec in Hp |- *. rewrite EB in Hp. lia. }
  destruct (legacy_Access_result rand_Reader o mem a Hinv)
    as (Hw & Hinv1 & Ec1 & _). cbn [fst snd a] in Hw. fold a in Hw.
  rewrite Hr, Ha, Est, Ec in Hw.
  change (Access rand_Reader a.1.1 a.1.2 a.2 o)
    with (Access rand_Reader OpWrite id (Some data) o) in Hinv1, Ec1.
  set (w := Access rand_Reader OpWrite id (Some data) o) in *.
  split; [exact Hw|]. split.
  - unfold Write, validID. rewrite Hr. cbn [negb len_opt].
    rewrite Ec, EB, Hlen, Z.eqb_refl. cbn [negb].
    destruct (legacy_Access_accepted rand_Reader o a Ha) as (_ & _ & Eacc).
    change (Access rand_Reader a.1.1 a.1.2 a.2 o) with w in Eacc.
    change (handed a) with (Some data) in Eacc. change (a.1.2) with id in Eacc.
    unfold bind, ret. rewrite <- Eacc. destruct w as [wr wo]. cbn [fst snd] in *.
    subst wr. unfold StashSize.
    destruct (StashLimit (cfg o0) <? Z.of_nat (length (stash wo))); reflexivity.
  - unfold ref_step in Hinv1. rewrite Ha, Est in Hinv1. cbn [a fst snd] in Hinv1.
    set (b := (OpRead, id, None) : call).
    destruct (legacy_Access_result rand_Reader w.2 _ b Hinv1) as (Hrd & _).
    cbn [fst snd b] in Hrd. fold b in Hrd. rewrite Ec1 in Hrd. rewrite Hr in Hrd.
    assert (accepted (cfg o) b = true) as Hb.
    { unfold accepted, b. cbn. rewrite Ec, EN.
      assert ((0 <=? id) = true) as -> by (apply Z.leb_le; lia).
      by assert ((id <? NumBlocks c) = true) as -> by (apply Z.ltb_lt; lia). }
    rewrite Hb in Hrd.
    assert (stored (cfg o) (<[id := data]> mem) b = data) as Est'.
    { unfold stored, handed, b, payload. cbn. by rewrite lookup_insert_eq. }
    rewrite Est', Ec in Hrd. exact Hrd.
Qed.

(** What the engine holds.  On such an engine, after any sequence of
    calls: the configuration, the height and the number of leaves are
    those of the start and the tree keeps its [2^height - 1] buckets
    of [BucketSize] slots; every block of the stash or of the tree has
    an id in [0, N), the leaf the position map records for the id, in
    [0, NumLeaves), and the payload of the id in the array, of B
    bytes; a block of the tree lies in a bucket of the path of its
    leaf; no id is held twice; and [Size] is the number of blocks
    held, at most [Capacity]. *)
Theorem Legacy_blocks_as_recorded (c : Config) (o0 : PathORAM) (calls : list call) :
  NewPathORAM c = Ok o0 →
  let o := run rand_Reader o0 calls in
  cfg o = cfg o0 ∧ Height o = Height o0 ∧ NumLeaves o = NumLeaves o0 ∧
  Z.of_nat (length (tree o)) = 2 ^ Height o - 1 ∧
  Forall (λ bkt, Z.of_nat (length bkt) = BucketSize (cfg o0)) (tree o) ∧
  (∀ b, b ∈ blocks o →
        0 ≤ b_id b < NumBlocks c ∧ posMap o !! b_id b = Some (b_leaf b) ∧
        0 ≤ b_leaf b < NumLeaves o ∧
        b_data b = payload (cfg o0) (ref_run (cfg o0) calls) (b_id b) ∧
        Z.of_nat (length (b_data b)) = BlockSize c) ∧
  (∀ (k : nat) bkt b, tree o !! k = Some bkt → b ∈ bkt → b_id b ≠ -1 →
        Z.of_nat k ∈ Path (Height o) (NumLeaves o) (b_leaf b)) ∧
  NoDup (b_id <$> blocks o) ∧
  Size o = Z.of_nat (length (blocks o)) ∧ Size o ≤ Capacity o.
Proof.
  intros Hnew. cbv zeta.
  destruct (legacy_New_shape c o0 Hnew) as (HN & _ & Ec0 & _).
  assert (NumBlocks (cfg o0) = NumBlocks c ∧ BlockSize (cfg o0) = BlockSize c)
    as [EN EB] by (by rewrite Ec0).
  destruct (legacy_run_inv rand_Reader o0 ∅ calls (legacy_New_inv c o0 Hnew))
    as (Hinv & Ec & Eh & EL).
  set (o := run rand_Reader o0 calls) in *.
  destruct Hinv as [[d [Hh HL Hlen Hslots HB]] (Hg & Hpath & Hnd & Hdom) Hmem].
  rewrite Ec in Hg, Hslots. rewrite Forall_forall in Hg.
  fold (blocks o) in Hg, Hnd, Hdom.
  assert (Size o = Z.of_nat (length (blocks o))) as Esize.
  { unfold Size. f_equal. rewrite <- (length_fmap b_id).
    rewrite <- (length_map_to_list (posMap o)), <- (length_fmap fst).
    apply Permutation_length, NoDup_Permutation; [apply NoDup_fst_map_to_list|done|].
    intros i. rewrite list_elem_of_fmap. split.
    - intros ([i' l] & -> & H). apply elem_of_map_to_list in H. cbn.
      apply Hdom. by rewrite H.
    - intros Hi. apply list_elem_of_fmap in Hi as (b & -> & Hb).
      destruct (Hg b Hb) as (_ & Hp & _). exists (b_id b, b_leaf b).
      split; [done|]. by apply elem_of_map_to_list. }
  split; [done|]. split; [done|]. split; [done|]. unfold Height, NumLeaves.
  split; [by rewrite Hlen, Hh|]. split; [done|]. split; [|split; [|split; [done|split]]].
  - intros b Hb. destruct (Hg b Hb) as (Hid & Hp & Hl & Hm & Hlb).
    rewrite EN in Hid. rewrite EB in Hlb.
    split; [done|]. split; [done|]. split; [done|]. split; [|done].
    unfold payload, ref_run. by rewrite Hm.
  - intros k bkt b Hk Hb Hheld. by eapply Hpath.
  - done.
  - rewrite Esize. unfold Capacity. rewrite Ec, EN.
    rewrite <- (length_fmap b_id).
    pose proof (NoDup_bounded_length (b_id <$> blocks o) (NumBlocks c) Hnd) as H.
    rewrite Z.max_r in H by lia. apply H.
    intros i Hi. apply list_elem_of_fmap in Hi as (b & -> & Hb).
    destruct (Hg b Hb) as (Hid & _). by rewrite EN in Hid.
Qed.

End Sequences.

End LegacyEngine.

(** ** Instances *)

(** Writes, reads and rejected calls at N = 7, B = 1, Z = 1; the call
    with operation 7 hands in two bytes. *)
Lemma Legacy_results_reference_witness :
  let c := Legacy.mkConfig 7 1 1 10 in
  let rnd := stream [3; 1; 2; 0; 1; 3; 2; 2; 1; 0; 3; 3; 1; 2] in
  let calls : list Legacy.call :=
    [(1, 2, Some [x0a]); (1, 5, Some [x0b]); (0, 2, None); (1, 2, Some [x0c]);
     (0, 5, None); (7, 3, Some [x01; x02]); (1, 3, None); (0, 9, None)] in
  Legacy.NewPathORAM c = Ok (Legacy.engine_of c) ∧
  Legacy.ref_results (Legacy.cfg (Legacy.engine_of c)) ∅ calls
  = [Ok (Some [x0a]); Ok (Some [x0b]); Ok (Some [x0a]); Ok (Some [x0c]);
     Ok (Some [x0b]); Ok (Some [x01]); Err ErrInvalidDataSize; Err ErrInvalidBlockID] ∧
  Forall2 (λ r r', r = r' ∨ r = Err ErrStashOverflow)
    (Legacy.results rnd (Legacy.engine_of c) calls)
    (Legacy.ref_results (Legacy.cfg (Legacy.engine_of c)) ∅ calls).
Proof.
  intros c rnd calls.
  assert (Legacy.NewPathORAM c = Ok (Legacy.engine_of c)) as Hnew
    by (vm_compute; reflexivity).
  split; [exact Hnew|]. split; [vm_compute; reflexivity|].
  apply (Legacy_results_reference rnd c (Legacy.engine_of c) calls Hnew).
Defined.

(** A second write to id 2 at N = 7, B = 1, Z = 1: the block held 10,
    the call returns the 12 it writes. *)
Lemma Legacy_write_returns_written_witness :
  let c := Legacy.mkConfig 7 1 1 10 in
  let rnd := stream [3; 1; 2; 0; 1; 3; 2; 2; 1; 0; 3; 3; 1; 2] in
  let calls : list Legacy.call := [(1, 2, Some [x0a]); (1, 5, Some [x0b])] in
  let data : bytes := [x0c] in
  let o := Legacy.run rnd (Legacy.engine_of c) calls in
  let w := Legacy.Access rnd Legacy.OpWrite 2 (Some data) o in
  Legacy.NewPathORAM c = Ok (Legacy.engine_of c) ∧
  (Legacy.Access rnd Legacy.OpRead 2 None o).1 = Ok (Some [x0a]) ∧
  Legacy.StashSize w.2 = 0 ∧
  w.1 = Ok (Some data).
Proof.
  intros c rnd calls data o w.
  assert (Legacy.NewPathORAM c = Ok (Legacy.engine_of c)) as Hnew
    by (vm_compute; reflexivity).
  assert (0 ≤ 2 < Legacy.NumBlocks c) as H1 by (change (0 ≤ 2 < 7); lia).
  assert (Z.of_nat (length data) = Legacy.BlockSize c) as H2 by reflexivity.
  assert (Legacy.StashSize w.2 = 0) as Hs by (vm_compute; reflexivity).
  split; [exact Hnew|]. split; [vm_compute; reflexivity|]. split; [exact Hs|].
  pose proof (Legacy_write_returns_written rnd c (Legacy.engine_of c) calls 2 data
                Hnew H1 H2) as H.
  cbv zeta in H. fold o in H. fold w in H.
  destruct H as (H & _).
  rewrite H. vm_compute. reflexivity.
Defined.

(** The blocks after three writes at N = 7, B = 1, Z = 1. *)
Lemma Legacy_blocks_as_recorded_witness :
  let c := Legacy.mkConfig 7 1 1 10 in
  let rnd := stream [3; 1; 2; 0; 1; 3; 2; 2; 1; 0; 3; 3; 1; 2] in
  let calls : list Legacy.call :=
    [(1, 2, Some [x0a]); (1, 5, Some [x0b]); (1, 2, Some [x0c])] in
  let o := Legacy.run rnd (Legacy.engine_of c) calls in
  Legacy.NewPathORAM c = Ok (Legacy.engine_of c) ∧
  b_id <$> Legacy.blocks o = [5; 2] ∧
  Legacy.Size o = 2 ∧ NoDup (b_id <$> Legacy.blocks o).
Proof.
  intros c rnd calls o.
  assert (Legacy.NewPathORAM c = Ok (Legacy.engine_of c)) as Hnew
    by (vm_compute; reflexivity).
  split; [exact Hnew|]. split; [vm_compute; reflexivity|].
  pose proof (Legacy_blocks_as_recorded rnd c (Legacy.engine_of c) calls Hnew) as H.
  cbv zeta in H. fold o in H.
  destruct H as (_ & _ & _ & _ & _ & _ & _ & Hnd & Hsz & _).
  split; [|exact Hnd]. rewrite Hsz. vm_compute. reflexivity.
Defined.

